(** * Tydux: the mutation-commit protocol

    A shallow embedding of the three state containers of the repository:

    - [StoreTs]: the [Store] of [src/Store.ts] (mutators proxy,
      [mutateState], [MutatorEvent]);
    - [Dispatchers]: the older [Store] whose mutators are wrapped in place
      ([createDispatchers], [select]);
    - [FacadeTs]: the redux facade of [projects/w11k/tydux/src/lib/Facade.ts].

    JavaScript objects are association lists in insertion order, object
    identity is a location of a heap, exceptions are an outcome of a small
    state monad, and the micro-task queue of the facade is an explicit list
    of pending jobs. The properties of a state object hold primitive
    values: objects and arrays nested in a state, which a draft shares
    with the state it was made from, are not modelled. *)

From Stdlib Require Import ZArith Lia String Ascii List DecimalString DecimalNat.
From stdpp Require Import base list strings gmap.

(** ** JavaScript values, strings and plain objects

    A string is the sequence of its UTF-16 code units, as [length],
    [indexOf], [substring] and [split] count them; the code units are
    those below 256, one [ascii] each, so that a text with a character
    outside Latin-1 has no counterpart here. *)

Module Js.

(** Primitive values, as user code writes them in literals. *)
Inductive prim : Type :=
| PUndefined
| PNull
| PBool (b : bool)
| PNum (n : Z)
| PStr (s : string).

Definition loc := nat.

(** A value held by a property: a primitive, a reference to an object of
    the heap, or a function (named after the method it wraps). *)
Inductive value : Type :=
| VPrim (p : prim)
| VRef (l : loc)
| VFun (f : string).

Inductive exn : Type :=
| Error (msg : string)
| TypeError.

Global Instance prim_eq_dec : EqDecision prim.
Proof. solve_decision. Defined.
Global Instance value_eq_dec : EqDecision value.
Proof. solve_decision. Defined.
Global Instance exn_eq_dec : EqDecision exn.
Proof. solve_decision. Defined.

(** [s.indexOf(pat)]: the first position of [pat] in [s], or -1. *)
Definition indexOf (pat s : string) : Z :=
  match String.index 0 pat s with
  | Some n => Z.of_nat n
  | None => (-1)%Z
  end.

(** [s.substring(a, b)]: both ends are clamped to [0, length] and swapped
    when out of order. *)
Definition clamp (len : nat) (i : Z) : nat := Nat.min (Z.to_nat i) len.

Definition substring (s : string) (a b : Z) : string :=
  let a' := clamp (String.length s) a in
  let b' := clamp (String.length s) b in
  String.substring (Nat.min a' b') (Nat.max a' b' - Nat.min a' b') s.

(** [s.split(sep)] for a one-character separator. *)
Fixpoint split (sep : ascii) (s : string) : list string :=
  match s with
  | EmptyString => [EmptyString]
  | String c s' =>
      if Ascii.eqb c sep then EmptyString :: split sep s'
      else match split sep s' with
           | [] => [String c EmptyString]
           | x :: xs => String c x :: xs
           end
  end.

(** What [String.prototype.trim] strips, among the code units below 256:
    the white space (tab, vertical tab, form feed, space, no-break space
    U+00A0) and the line terminators (line feed, carriage return) of
    ECMAScript. The other white space (U+1680, U+2000 to U+200A, U+2028,
    U+2029, U+202F, U+205F, U+3000, U+FEFF) is above 255. *)
Definition isWhitespace (c : ascii) : bool :=
  bool_decide (nat_of_ascii c ∈ [32; 9; 10; 11; 12; 13; 160]).

Fixpoint trimStart (s : string) : string :=
  match s with
  | String c s' => if isWhitespace c then trimStart s' else s
  | EmptyString => EmptyString
  end.

Fixpoint trimEnd (s : string) : string :=
  match s with
  | EmptyString => EmptyString
  | String c s' =>
      match trimEnd s' with
      | EmptyString => if isWhitespace c then EmptyString else String c EmptyString
      | t => String c t
      end
  end.

Definition trim (s : string) : string := trimEnd (trimStart s).

(** [l.join(sep)]. *)
Fixpoint join (sep : string) (l : list string) : string :=
  match l with
  | [] => ""
  | [x] => x
  | x :: xs => x +:+ sep +:+ join sep xs
  end.

(** The decimal numeral of an array index, as string concatenation
    prints it. *)
Definition numToString (i : nat) : string :=
  NilEmpty.string_of_uint (Nat.to_uint i).

(** [s] occurs somewhere in [t]. *)
Definition occursIn (s t : string) : Prop :=
  exists pre post, t = pre +:+ s +:+ post.

(** Own enumerable properties of a plain object, in insertion order,
    which is the order in which JavaScript lists keys that are not
    integer-like (an integer-like key, such as "0", it lists first). *)
Abbreviation props V := (list (string * V)).

Fixpoint getOwn {V} (o : props V) (k : string) : option V :=
  match o with
  | [] => None
  | (k', v) :: o' => if String.eqb k' k then Some v else getOwn o' k
  end.

(** [o[k] = v]: overwrite in place, or append a new property. *)
Fixpoint setOwn {V} (o : props V) (k : string) (v : V) : props V :=
  match o with
  | [] => [(k, v)]
  | (k', v') :: o' =>
      if String.eqb k' k then (k', v) :: o' else (k', v') :: setOwn o' k v
  end.

(** [_.keys(o)] / [Object.keys(o)]. *)
Definition keys {V} (o : props V) : list string := o.*1.

(** [l.indexOf(x)] on an array of strings. *)
Fixpoint arrayIndexOf (x : string) (l : list string) : option nat :=
  match l with
  | [] => None
  | y :: l' => if String.eqb y x then Some 0 else S <$> arrayIndexOf x l'
  end.

End Js.

Import Js.

(** ** src/Store.ts *)

Module StoreTs.

(** The action of a [MutatorEvent]: a plain object with a [type] and one
    property per supplied argument. *)
Definition Action := props prim.

Record MutatorEvent : Type := mkMutatorEvent {
  ev_storeId : value;
  ev_action : Action;
  ev_state : value;
  ev_duration : option Z;
}.

(** The fields of the class [Store]. [mutatorEvents] lists the events
    handed to [mutatorEventsSubject.next], oldest first. *)
Record Store : Type := mkStore {
  storeId : string;
  _state : value;
  mutatorCallStackCount : nat;
  mutatorEvents : list MutatorEvent;
}.

(** The receiver of a proxied mutator: [this.mutate] itself ([proxyObj]),
    or the [tempThisObj] a root call creates in front of it. *)
Inductive receiver : Type :=
| RProxyObj
| RTempThisObj.

(** Everything a mutator call can touch: the store, the heap of state
    objects, the own properties of [proxyObj] and of the [tempThisObj] of
    the call tree in progress, the process-wide development flag, the
    wall clock read by [Date.now], and the ids of the stores that the
    process-wide global state holds. *)
Record World : Type := mkWorld {
  store : Store;
  heap : list (props prim);
  proxyObj : props value;
  tempThisObj : props value;
  developmentMode : bool;
  clock : Z;
  globalStores : list string;
}.

Definition withStore (f : Store -> Store) (w : World) : World :=
  mkWorld (f (store w)) (heap w) (proxyObj w) (tempThisObj w)
          (developmentMode w) (clock w) (globalStores w).

Definition withHeap (f : list (props prim) -> list (props prim)) (w : World) : World :=
  mkWorld (store w) (f (heap w)) (proxyObj w) (tempThisObj w)
          (developmentMode w) (clock w) (globalStores w).

Definition withProxyObj (f : props value -> props value) (w : World) : World :=
  mkWorld (store w) (heap w) (f (proxyObj w)) (tempThisObj w)
          (developmentMode w) (clock w) (globalStores w).

Definition withTempThisObj (f : props value -> props value) (w : World) : World :=
  mkWorld (store w) (heap w) (proxyObj w) (f (tempThisObj w))
          (developmentMode w) (clock w) (globalStores w).

Definition withGlobalStores (f : list string -> list string) (w : World) : World :=
  mkWorld (store w) (heap w) (proxyObj w) (tempThisObj w)
          (developmentMode w) (clock w) (f (globalStores w)).

(** *** The monad of calls: state passing, exceptions, fuel *)

Inductive outcome (A : Type) : Type :=
| Normal (a : A)
| Throws (e : exn)
| OutOfFuel.
Arguments Normal {A} a.
Arguments Throws {A} e.
Arguments OutOfFuel {A}.

Definition M (A : Type) : Type := World -> outcome A * World.

Definition ret {A} (a : A) : M A := fun w => (Normal a, w).
Definition throw {A} (e : exn) : M A := fun w => (Throws e, w).
Definition outOfFuel {A} : M A := fun w => (OutOfFuel, w).

Definition bind {A B} (m : M A) (f : A -> M B) : M B :=
  fun w =>
    match m w with
    | (Normal a, w') => f a w'
    | (Throws e, w') => (Throws e, w')
    | (OutOfFuel, w') => (OutOfFuel, w')
    end.

Definition gets {A} (f : World -> A) : M A := fun w => (Normal (f w), w).
Definition modify (f : World -> World) : M unit := fun w => (Normal tt, f w).

(** [try { m } finally { fin }] *)
Definition tryFinally {A} (m : M A) (fin : World -> World) : M A :=
  fun w => let '(r, w') := m w in (r, fin w').

(** [try { m } catch (e) { handler e }] *)
Definition tryCatch {A} (m : M A) (handler : exn -> M A) : M A :=
  fun w =>
    match m w with
    | (Throws e, w') => handler e w'
    | r => r
    end.

#[local] Notation "'let!' x ':=' m 'in' k" := (bind m (fun x => k))
  (at level 10, x pattern, m at level 100, k at level 200).
#[local] Notation "m ';;' k" := (bind m (fun _ => k))
  (at level 100, k at level 200, right associativity).

(** *** Mutators *)

(** What a mutator method does with [this], written as a tree of the
    operations it performs:
    [this.state.f], [this.state.f = p], [this.state = {...}],
    [this.m = p], [this.m(args)], [try { this.m(args) } catch (e) {...}],
    [return p] and [throw e]. *)
Inductive body : Type :=
| Return (p : prim)
| Throw (e : exn)
| GetState (f : string) (k : prim -> body)
| SetState (f : string) (p : prim) (k : body)
| AssignState (o : props prim) (k : body)
| SetMember (m : string) (p : prim) (k : body)
| Call (m : string) (args : list prim) (k : body)
| TryCall (m : string) (args : list prim) (kOk : body) (kErr : exn -> body).

(** A method of the mutators class: the text [fn.toString()] returns, and
    its behaviour on the arguments. *)
Record Mutator : Type := mkMutator {
  fnSource : string;
  fnBody : list prim -> body;
}.

(** A mutators instance: its own enumerable properties (instance fields)
    and the methods [_.functionsIn] finds on it. *)
Record Mutators : Type := mkMutators {
  ownMembers : props prim;
  methods : props Mutator;
}.

Section WithMessages.

(** The message constants of [./error-messages], which the repository
    snapshot does not include, and the message of the error of
    [./global-state]. *)
Variable mutatorHasInstanceMembers : string.
Variable mutatorWrongReturnType : string.
Variable storeIdInUse : string.

(** [failIfInstanceMembersExistExceptState], on [_.keys(obj)]. *)
Definition failIfInstanceMembersExistExceptState (objKeys : list string) : M unit :=
  let members := objKeys in
  let idxOfState := arrayIndexOf "state" members in
  let members :=
    match idxOfState with
    | Some idx => delete idx members
    | None => members
    end in
  if bool_decide (0 < length members)
  then throw (Error (mutatorHasInstanceMembers +:+ ": " +:+ join "," members))
  else ret tt.

(** Modelled from the spec: [failIfNotUndefined] of [./utils], which is not
    part of the snapshot: "the method must return no value, any other
    return is a reported error". *)
Definition failIfNotUndefined (result : prim) : M unit :=
  match result with
  | PUndefined => ret tt
  | _ => throw (Error mutatorWrongReturnType)
  end.

(** [createActionFromArguments]: the parameter names are cut out of the
    function text between the first "(" and the first ")". *)
Definition argNamesOf (fnString : string) : list string :=
  let argsString :=
    substring fnString (indexOf "(" fnString + 1) (indexOf ")" fnString) in
  trim <$> split "," argsString.

(** ["[" + i + "] " + argNames[i]]; a missing name prints as "undefined". *)
Definition argKey (argNames : list string) (i : nat) : string :=
  "[" +:+ numToString i +:+ "] " +:+ default "undefined" (argNames !! i).

Fixpoint recordArgs (argNames : list string) (i : nat) (args : list prim)
  (action : Action) : Action :=
  match args with
  | [] => action
  | a :: rest => recordArgs argNames (S i) rest (setOwn action (argKey argNames i) a)
  end.

Definition createActionFromArguments (actionTypeName : string) (fn : Mutator)
  (args : list prim) : Action :=
  let argNames := argNamesOf (fnSource fn) in
  let action := recordArgs argNames 0 args [] in
  setOwn action "type" (PStr actionTypeName).

(** *** Heap *)

Definition alloc (o : props prim) : M loc :=
  fun w => (Normal (length (heap w)), withHeap (fun h => h ++ [o]) w).

Definition objectAt (h : list (props prim)) (l : loc) : props prim :=
  default [] (h !! l).

(** Modelled from the spec: [createProxy] of [./utils], which is not part
    of the snapshot: the draft is a fresh object in front of the state,
    reads see the state's members and writes stay on the draft. The
    older store has a local function of this name that does the same
    ([_.assignIn] into a fresh object, then [Object.setPrototypeOf], which
    rejects a target that is neither an object nor [null]). *)
Definition createProxy (target : value) : M value :=
  match target with
  | VRef l => let! o := gets (fun w => objectAt (heap w) l) in
              let! l' := alloc o in ret (VRef l')
  | VPrim PNull => let! l' := alloc [] in ret (VRef l')
  | VFun _ => let! l' := alloc [] in ret (VRef l')
  | VPrim _ => throw TypeError
  end.

(** Modelled from the spec: [deepFreeze] of [./deep-freeze] returns the
    object it froze; mutator bodies never hold a committed object, so
    the freeze itself is not tracked. *)
Definition deepFreeze (state : value) : value := state.

(** *** The class [Store] *)

Definition setState (state : value) : M unit :=
  fun w =>
    let st := if developmentMode w then deepFreeze state else state in
    (Normal tt,
     withStore (fun s => mkStore (storeId s) st (mutatorCallStackCount s)
                                 (mutatorEvents s)) w).

Definition processMutator (mutatorEvent : MutatorEvent) : M unit :=
  setState (ev_state mutatorEvent);;
  modify (withStore (fun s =>
    mkStore (storeId s) (_state s) (mutatorCallStackCount s)
            (mutatorEvents s ++ [mutatorEvent]))).

Definition setCount (f : nat -> nat) : World -> World :=
  withStore (fun s => mkStore (storeId s) (_state s)
                              (f (mutatorCallStackCount s)) (mutatorEvents s)).

Definition withDuration (d : Z) (e : MutatorEvent) : MutatorEvent :=
  mkMutatorEvent (ev_storeId e) (ev_action e) (ev_state e) (Some d).

(** The [try] block of [mutateState]. The callback also hands back the
    value it stored in the variable [result] of the enclosing function. *)
Definition mutateStateTry {R} (fn : value -> bool -> M (MutatorEvent * R))
  (isRoot : bool) : M R :=
  let! stateProxy := (let! st := gets (fun w => _state (store w)) in createProxy st) in
  let! dev := gets developmentMode in
  let! start := gets (fun w => if dev then clock w else 0%Z) in
  let! r := fn stateProxy isRoot in
  let! mutatorEvent :=
    (if dev then let! now := gets clock in ret (withDuration (now - start) r.1)
     else ret r.1) in
  (if isRoot then processMutator mutatorEvent else ret tt);;
  ret r.2.

(** [mutateState] *)
Definition mutateState {R} (fn : value -> bool -> M (MutatorEvent * R)) : M R :=
  let! isRoot := gets (fun w => Nat.eqb (mutatorCallStackCount (store w)) 0) in
  modify (setCount S);;
  tryFinally (mutateStateTry fn isRoot) (setCount Nat.pred).

(** *** Property lookup along the prototype chains

    [tempThisObj -> proxyObj -> proxyProto -> {}]: [proxyProto] holds one
    function per mutator name and nothing else. *)
Variable mutatorsInstance : Mutators.

Definition proxyProtoGet (name : string) : value :=
  match getOwn (methods mutatorsInstance) name with
  | Some _ => VFun name
  | None => VPrim PUndefined
  end.

Definition proxyObjGet (name : string) (w : World) : value :=
  match getOwn (proxyObj w) name with
  | Some v => v
  | None => proxyProtoGet name
  end.

Definition getProp (this : receiver) (name : string) : M value :=
  gets (fun w =>
    match this with
    | RProxyObj => proxyObjGet name w
    | RTempThisObj =>
        match getOwn (tempThisObj w) name with
        | Some v => v
        | None => proxyObjGet name w
        end
    end).

(** [this[name] = v] creates or overwrites an own property of the
    receiver. *)
Definition setProp (this : receiver) (name : string) (v : value) : M unit :=
  modify (match this with
          | RProxyObj => withProxyObj (fun o => setOwn o name v)
          | RTempThisObj => withTempThisObj (fun o => setOwn o name v)
          end).

Definition ownKeys (this : receiver) : M (list string) :=
  gets (fun w =>
    match this with
    | RProxyObj => keys (proxyObj w)
    | RTempThisObj => keys (tempThisObj w)
    end).

(** [this.state.f] *)
Definition readStateField (this : receiver) (f : string) : M prim :=
  let! st := getProp this "state" in
  match st with
  | VRef l => gets (fun w => default PUndefined (getOwn (objectAt (heap w) l) f))
  | VPrim PUndefined | VPrim PNull => throw TypeError
  | _ => ret PUndefined
  end.

(** [this.state.f = p] (strict mode: a primitive takes no property). *)
Definition writeStateField (this : receiver) (f : string) (p : prim) : M unit :=
  let! st := getProp this "state" in
  match st with
  | VRef l => modify (withHeap (fun h => <[l := setOwn (objectAt h l) f p]> h))
  | VPrim _ => throw TypeError
  | VFun _ => ret tt
  end.

(** *** Running a mutator body on a receiver *)

Fixpoint runBody (call : string -> list prim -> receiver -> M prim)
  (b : body) (thisObj : receiver) : M prim :=
  match b with
  | Return p => ret p
  | Throw e => throw e
  | GetState f k =>
      let! p := readStateField thisObj f in runBody call (k p) thisObj
  | SetState f p k =>
      writeStateField thisObj f p;; runBody call k thisObj
  | AssignState o k =>
      let! l := alloc o in
      setProp thisObj "state" (VRef l);; runBody call k thisObj
  | SetMember m p k =>
      setProp thisObj m (VPrim p);; runBody call k thisObj
  | Call m args k =>
      call m args thisObj;; runBody call k thisObj
  | TryCall m args kOk kErr =>
      fun w =>
        match call m args thisObj w with
        | (Normal _, w') => runBody call kOk thisObj w'
        | (Throws e, w') => runBody call (kErr e) thisObj w'
        | (OutOfFuel, w') => (OutOfFuel, w')
        end
  end.

(** The arrow function that a proxied mutator hands to [mutateState].
    [this] is the receiver of the proxied function: an arrow function has
    no [this] of its own. *)
Definition mutatorCallback (call : string -> list prim -> receiver -> M prim)
  (mutatorName : string) (mutatorFn : Mutator) (args : list prim)
  (this : receiver) (oldState : value) (isRootCall : bool) : M (MutatorEvent * prim) :=
  let! thisObj :=
    (if isRootCall
     then setProp RProxyObj "state" oldState;;
          modify (withTempThisObj (fun _ => []));;
          ret RTempThisObj
     else ret this) in
  let! result := runBody call (fnBody mutatorFn args) thisObj in
  failIfNotUndefined result;;
  (let! ks := ownKeys thisObj in failIfInstanceMembersExistExceptState ks);;
  (let! st := getProp thisObj "state" in setProp RProxyObj "state" st);;
  let! sid := getProp this "storeId" in
  let! st := getProp RProxyObj "state" in
  let mutatorEvent :=
    mkMutatorEvent sid (createActionFromArguments mutatorName mutatorFn args)
                   st None in
  ret (mutatorEvent, result).

(** The function [createMutatorsProxy] stores in [proxyProto] under
    [mutatorName]; [call] performs the method calls the mutator makes on
    its own [this]. Nothing is ever stored on the prototype that
    [Object.setPrototypeOf(proxyProto, {})] installs, and the failing proxy
    that ends a root call only guards a [tempThisObj] nobody holds any
    more. *)
Definition proxiedMutator (call : string -> list prim -> receiver -> M prim)
  (mutatorName : string) (mutatorFn : Mutator) (args : list prim)
  (this : receiver) : M prim :=
  mutateState (mutatorCallback call mutatorName mutatorFn args this).

(** [this[name](...args)]: the property found along the chain must be one
    of the proxied functions. The fuel bounds the depth of nested calls. *)
Fixpoint callMethod (fuel : nat) (name : string) (args : list prim)
  (this : receiver) : M prim :=
  match fuel with
  | 0 => outOfFuel
  | S fuel' =>
      let! fn := getProp this name in
      match fn with
      | VFun f =>
          match getOwn (methods mutatorsInstance) f with
          | Some mutatorFn =>
              proxiedMutator (callMethod fuel') f mutatorFn args this
          | None => throw TypeError
          end
      | _ => throw TypeError
      end
  end.

(** [store.mutate.name(...args)], as the methods of the store call it. *)
Definition mutate (fuel : nat) (name : string) (args : list prim) : M prim :=
  callMethod fuel name args RProxyObj.

(** Modelled from the spec: [addStoreToGlobalState] of [./global-state],
    which is not part of the snapshot: registration "records the owner
    id" in "a process-wide registry", and two "stores registered under the
    same owner id" are "reported by throwing at registration time". *)
Definition addStoreToGlobalState : M unit :=
  let! id := gets (fun w => storeId (store w)) in
  let! registered := gets globalStores in
  if bool_decide (id ∈ registered)
  then throw (Error storeIdInUse)
  else modify (withGlobalStores (fun ids => ids ++ [id])).

(** The store object before its constructor has run, in a process where
    no store is registered. *)
Definition emptyWorld (id : string) (dev : bool) : World :=
  mkWorld (mkStore id (VPrim PUndefined) 0 []) [] [] [] dev 0 [].

(** The constructor: [createMutatorsProxy] and the [delete] after it
    leave [this.mutate] without an own property. *)
Definition constructor (state : props prim) : M unit :=
  let! l := alloc state in
  let! id := gets (fun w => storeId (store w)) in
  processMutator (mkMutatorEvent (VPrim (PStr id)) [("type", PStr "@@INIT")]
                                 (VRef l) None);;
  failIfInstanceMembersExistExceptState (keys (ownMembers mutatorsInstance));;
  modify (withProxyObj (fun _ => []));;
  addStoreToGlobalState.

(** The character [c] does not occur in [s]. *)
Fixpoint lacks (c : ascii) (s : string) : Prop :=
  match s with
  | EmptyString => True
  | String c' s' => c' <> c /\ lacks c s'
  end.

(** A parameter name as a formatter prints it: ASCII characters, none
    of them a comma, a closing parenthesis or white space. *)
Fixpoint plainName (s : string) : Prop :=
  match s with
  | EmptyString => True
  | String c s' =>
      nat_of_ascii c < 128 /\ c <> ","%char /\ c <> ")"%char
      /\ isWhitespace c = false /\ plainName s'
  end.

(** *** Association lists *)

Lemma getOwn_setOwn_eq {V} (o : props V) k v : getOwn (setOwn o k v) k = Some v.
Proof.
  induction o as [|[k' v'] o IH]; simpl.
  - by rewrite String.eqb_refl.
  - destruct (String.eqb k' k) eqn:E; simpl; rewrite E; [done | apply IH].
Qed.

Lemma getOwn_setOwn_ne {V} (o : props V) k k' v :
  k <> k' -> getOwn (setOwn o k v) k' = getOwn o k'.
Proof.
  intros Hne. induction o as [|[k1 v1] o IH]; simpl.
  - destruct (String.eqb k k') eqn:E; [apply String.eqb_eq in E; done | done].
  - destruct (String.eqb k1 k) eqn:E; simpl.
    + apply String.eqb_eq in E; subst k1.
      destruct (String.eqb k k') eqn:E'; [apply String.eqb_eq in E'; done | done].
    + destruct (String.eqb k1 k'); [done | apply IH].
Qed.

(** *** What a nested call leaves alone *)

(** Every state object a receiver can reach was allocated at or after
    [base]. *)
Definition stateRefsFrom (base : nat) (w : World) : Prop :=
  base <= length (heap w)
  /\ (forall l, getOwn (tempThisObj w) "state" = Some (VRef l) -> base <= l)
  /\ (exists v, getOwn (proxyObj w) "state" = Some v
                /\ forall l, v = VRef l -> base <= l).

Definition inCallTree (w : World) : Prop := 1 <= mutatorCallStackCount (store w).

Definition keepsObjectsBelow (base : nat) (w w' : World) : Prop :=
  forall l, l < base -> heap w' !! l = heap w !! l.

Definition frame (base : nat) (w w' : World) : Prop :=
  inCallTree w -> stateRefsFrom base w ->
  stateRefsFrom base w' /\ store w' = store w
  /\ developmentMode w' = developmentMode w /\ clock w' = clock w
  /\ keepsObjectsBelow base w w'.

Definition framed {A} (base : nat) (m : M A) : Prop :=
  forall w, frame base w (m w).2.

Lemma frame_refl base w : frame base w w.
Proof. by intros ? ?. Qed.

Lemma frame_trans base w1 w2 w3 :
  frame base w1 w2 -> frame base w2 w3 -> frame base w1 w3.
Proof.
  intros H12 H23 Hin Hrefs.
  destruct (H12 Hin Hrefs) as (Hr2 & Hs2 & Hd2 & Hc2 & Hk2).
  assert (inCallTree w2) as Hin2 by (unfold inCallTree; by rewrite Hs2).
  destruct (H23 Hin2 Hr2) as (Hr3 & Hs3 & Hd3 & Hc3 & Hk3).
  split; [exact Hr3|]. split; [congruence|]. split; [congruence|].
  split; [congruence|]. intros l Hl. by rewrite Hk3, Hk2.
Qed.

Lemma framed_ret {A} base (a : A) : framed base (ret a).
Proof. intros w. apply frame_refl. Qed.

Lemma framed_throw {A} base e : framed base (throw (A:=A) e).
Proof. intros w. apply frame_refl. Qed.

Lemma framed_outOfFuel {A} base : framed base (outOfFuel (A:=A)).
Proof. intros w. apply frame_refl. Qed.

Lemma framed_gets {A} base (f : World -> A) : framed base (gets f).
Proof. intros w. apply frame_refl. Qed.

Lemma framed_bind {A B} base (m : M A) (f : A -> M B) :
  framed base m -> (forall a, framed base (f a)) -> framed base (bind m f).
Proof.
  intros Hm Hf w. unfold bind. specialize (Hm w).
  destruct (m w) as [[a|e|] w1]; simpl in *; [|done..].
  eapply frame_trans; [exact Hm | apply Hf].
Qed.

(** A continuation may rely on what was read from a world of the call
    tree. *)
Lemma framed_gets_bind {A B} base (g : World -> A) (f : A -> M B) :
  (forall w, inCallTree w -> stateRefsFrom base w -> frame base w (f (g w) w).2) ->
  framed base (bind (gets g) f).
Proof. intros H w. unfold frame. intros Hin Hrefs. by apply H. Qed.

Lemma framed_tryCatch {A} base (m : M A) h :
  framed base m -> (forall e, framed base (h e)) -> framed base (tryCatch m h).
Proof.
  intros Hm Hh w. unfold tryCatch. specialize (Hm w).
  destruct (m w) as [[a|e|] w1]; simpl in *; [done| |done].
  eapply frame_trans; [exact Hm | apply Hh].
Qed.

Definition resolveState (this : receiver) (w : World) : value :=
  match this with
  | RProxyObj => proxyObjGet "state" w
  | RTempThisObj =>
      match getOwn (tempThisObj w) "state" with
      | Some v => v
      | None => proxyObjGet "state" w
      end
  end.

Lemma getProp_state this w : getProp this "state" w = (Normal (resolveState this w), w).
Proof. by destruct this. Qed.

Lemma resolveState_from base this w l :
  stateRefsFrom base w -> resolveState this w = VRef l -> base <= l.
Proof.
  intros (_ & Ht & v & Hp & Hv) H.
  assert (proxyObjGet "state" w = VRef l -> base <= l) as Hproxy.
  { unfold proxyObjGet. rewrite Hp. apply Hv. }
  destruct this; simpl in H; [by apply Hproxy|].
  destruct (getOwn (tempThisObj w) "state") as [v'|] eqn:E; [|by apply Hproxy].
  subst v'. by apply Ht.
Qed.

Lemma frame_alloc base o w : frame base w (alloc o w).2.
Proof.
  intros _ (Hlen & Ht & Hp). simpl.
  split; [|split; [done|split; [done|split; [done|]]]].
  - split; [|done]. simpl. rewrite length_app. lia.
  - intros l Hl. simpl. apply lookup_app_l. lia.
Qed.

Lemma frame_setProp_state base this v w :
  (forall l, v = VRef l -> base <= l) -> frame base w (setProp this "state" v w).2.
Proof.
  intros Hv _ (Hlen & Ht & Hp).
  split; [|by destruct this].
  unfold stateRefsFrom. destruct this; simpl.
  - split; [done|]. split; [done|]. exists v. by rewrite getOwn_setOwn_eq.
  - split; [done|]. split; [|done]. intros l. rewrite getOwn_setOwn_eq.
    intros [= ->]. by apply Hv.
Qed.

Lemma frame_setProp_member base this m p w :
  frame base w (setProp this m (VPrim p) w).2.
Proof.
  destruct (decide (m = "state")) as [->|Hne].
  { by apply frame_setProp_state. }
  intros _ (Hlen & Ht & Hp).
  split; [|by destruct this].
  unfold stateRefsFrom. destruct this; simpl.
  - split; [done|]. split; [done|]. by rewrite getOwn_setOwn_ne.
  - split; [done|]. split; [|done]. by rewrite getOwn_setOwn_ne.
Qed.

Lemma framed_readStateField base this f : framed base (readStateField this f).
Proof.
  intros w. unfold readStateField, bind. rewrite getProp_state.
  destruct (resolveState this w) as [[]| |]; apply frame_refl.
Qed.

Lemma framed_writeStateField base this f p : framed base (writeStateField this f p).
Proof.
  intros w. unfold writeStateField, bind. rewrite getProp_state.
  destruct (resolveState this w) as [[]|l|] eqn:E; try apply frame_refl.
  intros _ Hrefs. pose proof (resolveState_from _ _ _ _ Hrefs E) as Hl.
  destruct Hrefs as (Hlen & Ht & Hp). simpl.
  split; [|split; [done|split; [done|split; [done|]]]].
  - split; [|done]. simpl. by rewrite length_insert.
  - intros l' Hl'. simpl. apply list_lookup_insert_ne. lia.
Qed.

(** The body of a mutator, given that the calls it makes are framed. *)
Lemma framed_runBody base call :
  (forall m args this, framed base (call m args this)) ->
  forall b thisObj, framed base (runBody call b thisObj).
Proof.
  intros Hcall b thisObj. induction b as [p|e|f k IH|f p k IH|o k IH|m p k IH|m args k IH|m args kOk IHok kErr IHerr]; simpl.
  - apply framed_ret.
  - apply framed_throw.
  - apply framed_bind; [apply framed_readStateField | intros; apply IH].
  - apply framed_bind; [apply framed_writeStateField | intros; apply IH].
  - intros w. unfold bind. simpl.
    eapply frame_trans; [|apply IH].
    intros Hin Hrefs. pose proof Hrefs as (Hlen & _).
    revert Hin Hrefs. change (frame base w (setProp thisObj "state" (VRef (length (heap w))) (alloc o w).2).2).
    eapply frame_trans; [apply (frame_alloc base o)|].
    apply frame_setProp_state. by intros l [= <-].
  - intros w. unfold bind. simpl.
    eapply frame_trans; [|apply IH]. apply frame_setProp_member.
  - apply framed_bind; [apply Hcall | intros; apply IH].
  - intros w. specialize (Hcall m args thisObj w).
    destruct (call m args thisObj w) as [[a|e|] w1]; simpl in *; [| |done].
    + eapply frame_trans; [exact Hcall | apply IHok].
    + eapply frame_trans; [exact Hcall | apply IHerr].
Qed.
Lemma framed_createProxy base target : framed base (createProxy target).
Proof.
  destruct target as [[]|l|f]; simpl; try apply framed_throw.
  - intros w. apply (frame_alloc base []).
  - intros w. unfold bind. simpl. apply (frame_alloc base).
  - intros w. apply (frame_alloc base []).
Qed.

Lemma framed_mutateStateTry {R} base (fn : value -> bool -> M (MutatorEvent * R)) :
  (forall st, framed base (fn st false)) -> framed base (mutateStateTry fn false).
Proof.
  intros Hfn. unfold mutateStateTry.
  apply framed_bind.
  { apply framed_bind; [apply framed_gets | intros; apply framed_createProxy]. }
  intros stateProxy. apply framed_bind; [apply framed_gets|]. intros dev.
  apply framed_bind; [apply framed_gets|]. intros start.
  apply framed_bind; [apply Hfn|]. intros r.
  apply framed_bind.
  { destruct dev; [|apply framed_ret].
    apply framed_bind; [apply framed_gets | intros; apply framed_ret]. }
  intros ev. apply framed_bind; intros; apply framed_ret.
Qed.

Lemma store_eta s :
  mkStore (storeId s) (_state s) (mutatorCallStackCount s) (mutatorEvents s) = s.
Proof. by destruct s. Qed.

Lemma framed_mutateState {R} base (fn : value -> bool -> M (MutatorEvent * R)) :
  (forall st, framed base (fn st false)) -> framed base (mutateState fn).
Proof.
  intros Hfn w Hin Hrefs. unfold mutateState, bind, gets, modify, tryFinally.
  unfold inCallTree in Hin.
  destruct (Nat.eqb_spec (mutatorCallStackCount (store w)) 0) as [E|_]; [lia|].
  pose proof (framed_mutateStateTry base fn Hfn (setCount S w)) as Hf.
  destruct (mutateStateTry fn false (setCount S w)) as [r w2]. simpl in *.
  destruct Hf as (Hr2 & Hs2 & Hd2 & Hc2 & Hk2).
  { unfold inCallTree. simpl. lia. }
  { exact Hrefs. }
  split; [exact Hr2|]. split; [|done].
  simpl. rewrite Hs2. simpl. apply store_eta.
Qed.

Lemma framed_failIfNotUndefined base r : framed base (failIfNotUndefined r).
Proof. destruct r; (apply framed_ret || apply framed_throw). Qed.

Lemma framed_failIfInstanceMembers base ks :
  framed base (failIfInstanceMembersExistExceptState ks).
Proof.
  unfold failIfInstanceMembersExistExceptState.
  case_bool_decide; (apply framed_ret || apply framed_throw).
Qed.

Lemma framed_copyState base thisObj :
  framed base (let! st := getProp thisObj "state" in setProp RProxyObj "state" st).
Proof.
  intros w. unfold bind. rewrite getProp_state. intros Hin Hrefs.
  apply (frame_setProp_state base RProxyObj (resolveState thisObj w) w); [|done..].
  intros l. by apply resolveState_from.
Qed.

(** After the receiver is chosen, a callback only runs the body, checks
    it and copies [thisObj.state] to [proxyObj]. *)
Definition afterReceiver (call : string -> list prim -> receiver -> M prim)
  (mutatorName : string) (mutatorFn : Mutator) (args : list prim)
  (this thisObj : receiver) : M (MutatorEvent * prim) :=
  let! result := runBody call (fnBody mutatorFn args) thisObj in
  failIfNotUndefined result;;
  (let! ks := ownKeys thisObj in failIfInstanceMembersExistExceptState ks);;
  (let! st := getProp thisObj "state" in setProp RProxyObj "state" st);;
  let! sid := getProp this "storeId" in
  let! st := getProp RProxyObj "state" in
  ret (mkMutatorEvent sid (createActionFromArguments mutatorName mutatorFn args)
                      st None, result).

Lemma framed_afterReceiver base call mutatorName mutatorFn args this thisObj :
  (forall m args this, framed base (call m args this)) ->
  framed base (afterReceiver call mutatorName mutatorFn args this thisObj).
Proof.
  intros Hcall. unfold afterReceiver.
  apply framed_bind; [by apply framed_runBody|]. intros result.
  apply framed_bind; [apply framed_failIfNotUndefined|]. intros _.
  apply framed_bind.
  { apply framed_bind; [apply framed_gets | intros; apply framed_failIfInstanceMembers]. }
  intros _. apply framed_bind; [apply framed_copyState|]. intros _.
  apply framed_bind; [apply framed_gets|]. intros sid.
  apply framed_bind; [apply framed_gets|]. intros st. apply framed_ret.
Qed.

Lemma framed_callMethod base fuel :
  forall name args this, framed base (callMethod fuel name args this).
Proof.
  induction fuel as [|fuel IH]; intros name args this; simpl.
  { apply framed_outOfFuel. }
  apply framed_bind; [apply framed_gets|]. intros [p|l|f]; try apply framed_throw.
  destruct (getOwn (methods mutatorsInstance) f) as [mutatorFn|]; [|apply framed_throw].
  unfold proxiedMutator. apply framed_mutateState. intros st.
  apply (framed_afterReceiver base (callMethod fuel) f mutatorFn args this this IH).
Qed.

(** *** A root call *)

Lemma mutatorCallback_root call mutatorName mutatorFn args this st w :
  mutatorCallback call mutatorName mutatorFn args this st true w =
  afterReceiver call mutatorName mutatorFn args this RTempThisObj
    (withTempThisObj (fun _ => []) (withProxyObj (fun o => setOwn o "state" st) w)).
Proof. reflexivity. Qed.

Lemma createProxy_alloc target w r w' :
  createProxy target w = (r, w') ->
  (w' = w /\ r = Throws TypeError)
  \/ (exists o, w' = withHeap (fun h => h ++ [o]) w /\ r = Normal (VRef (length (heap w)))).
Proof.
  destruct target as [[]|l|f]; simpl; unfold throw, bind, gets, alloc, ret; simpl;
    intros [= <- <-]; eauto.
Qed.

(** What a root call of [mutateState] does around its callback. *)
Lemma mutateState_root {R} (fn : value -> bool -> M (MutatorEvent * R)) w r w' :
  mutatorCallStackCount (store w) = 0 ->
  mutateState fn w = (r, w') ->
  (r = Throws TypeError /\ w' = w)
  \/ exists o w3,
       let w2 := withHeap (fun h => h ++ [o]) (setCount S w) in
       exists r3, fn (VRef (length (heap w))) true w2 = (r3, w3) /\
       match r3 with
       | Normal (ev, res) =>
           r = Normal res /\ storeId (store w') = storeId (store w3)
           /\ mutatorCallStackCount (store w') = Nat.pred (mutatorCallStackCount (store w3))
           /\ (exists ev', ev_state ev' = ev_state ev /\ ev_action ev' = ev_action ev
                  /\ ev_storeId ev' = ev_storeId ev
                  /\ mutatorEvents (store w') = mutatorEvents (store w3) ++ [ev']
                  /\ _state (store w') = ev_state ev')
           /\ heap w' = heap w3 
       | Throws e => r = Throws e /\ w' = setCount Nat.pred w3
       | OutOfFuel => r = OutOfFuel /\ w' = setCount Nat.pred w3
       end.
Proof.
  intros Hc. unfold mutateState, bind, gets, modify, tryFinally. rewrite Hc. simpl.
  destruct (mutateStateTry fn true (setCount S w)) as [r1 w1] eqn:Htry.
  intros [= <- <-]. unfold mutateStateTry in Htry.
  unfold bind at 1 in Htry. unfold bind at 1 in Htry. unfold gets at 1 in Htry.
  simpl in Htry.
  destruct (createProxy (_state (store w)) (setCount S w)) as [rp wp] eqn:Hp.
  apply createProxy_alloc in Hp as [[-> ->]|(o & -> & ->)].
  { left. injection Htry as <- <-. split; [done|].
    destruct w as [s h po t d c g]. unfold setCount, withStore. simpl in *.
    f_equal. destruct s. simpl in *. by subst. }
  right. exists o. unfold bind, gets in Htry. simpl in Htry.
  destruct (fn (VRef (length (heap w))) true _) as [[[ev res]|e|] w3] eqn:Hfn.
  - exists w3. simpl. eexists. split; [done|]. simpl.
    destruct (developmentMode w) eqn:Hdev; simpl in Htry; unfold ret in Htry;
      simpl in Htry; injection Htry as <- <-; simpl;
      (split; [done|]); (split; [done|]); (split; [done|]);
      (split; [|done]); eexists; (split; [|split; [|split; [|split; [reflexivity|]]]]);
      simpl; try done; by destruct (developmentMode w3).
  - exists w3. simpl. eexists. split; [done|]. simpl. by injection Htry as <- <-.
  - exists w3. simpl. eexists. split; [done|]. simpl. by injection Htry as <- <-.
Qed.


(** The world in which the method body of a root call starts: depth one,
    a fresh draft [o] at the end of the heap, [proxyObj.state] pointing to
    it, and an empty [tempThisObj]. *)
Definition rootEntry (o : props prim) (w : World) : World :=
  withTempThisObj (fun _ => [])
    (withProxyObj (fun po => setOwn po "state" (VRef (length (heap w))))
       (withHeap (fun h => h ++ [o]) (setCount S w))).

Lemma rootEntry_refs o w :
  mutatorCallStackCount (store w) = 0 ->
  inCallTree (rootEntry o w) /\ stateRefsFrom (length (heap w)) (rootEntry o w).
Proof.
  intros Hc. split.
  - unfold inCallTree. simpl. lia.
  - unfold stateRefsFrom. simpl. rewrite length_app. split; [lia|]. split; [done|].
    eexists. rewrite getOwn_setOwn_eq. split; [done|]. by intros l [= <-].
Qed.

Lemma mutate_root fuel name args w r w' :
  mutatorCallStackCount (store w) = 0 ->
  mutate fuel name args w = (r, w') ->
  keepsObjectsBelow (length (heap w)) w w'
  /\ storeId (store w') = storeId (store w)
  /\ mutatorCallStackCount (store w') = 0
  /\ match r with
     | Normal _ =>
         exists ev, mutatorEvents (store w') = mutatorEvents (store w) ++ [ev]
                    /\ _state (store w') = ev_state ev
     | _ => store w' = store w
     end.
Proof.
  intros Hc. unfold mutate. destruct fuel as [|fuel]; simpl.
  { intros [= <- <-]. by repeat split. }
  unfold bind, getProp, gets. 
  destruct (proxyObjGet name w) as [p|l|f]; try (intros [= <- <-]; by repeat split).
  destruct (getOwn (methods mutatorsInstance) f) as [mutatorFn|];
    [|intros [= <- <-]; by repeat split].
  intros H. apply mutateState_root in H; [|done].
  destruct H as [[-> ->]|(o & w3 & r3 & Hcb & H)].
  { by repeat split. }
  rewrite mutatorCallback_root in Hcb.
  pose proof (framed_afterReceiver (length (heap w)) (callMethod fuel) f mutatorFn args
                RProxyObj RTempThisObj (framed_callMethod _ fuel) (rootEntry o w)) as Hf.
  destruct (rootEntry_refs o w Hc) as [Hin Hrefs].
  unfold rootEntry in Hf. rewrite Hcb in Hf. simpl in Hf.
  destruct (Hf Hin Hrefs) as (Hr3 & Hs3 & Hd3 & Hc3 & Hk3). clear Hf.
  assert (keepsObjectsBelow (length (heap w)) w w3) as Hk.
  { intros l Hl. rewrite Hk3 by done. simpl. by apply lookup_app_l. }
  simpl in Hs3.
  destruct r3 as [[ev res]|e|].
  - destruct H as (-> & Hid & Hcnt & (ev' & He1 & He2 & He3 & Hev & Hst) & Hh).
    split. { intros l Hl. rewrite Hh. by apply Hk. }
    rewrite Hid, Hcnt, Hev, Hs3. simpl. split; [done|]. split; [done|]. eauto.
  - destruct H as [-> ->]. split; [done|]. simpl. rewrite Hs3. simpl.
    split; [done|]. split; [done|]. apply store_eta.
  - destruct H as [-> ->]. split; [done|]. simpl. rewrite Hs3. simpl.
    split; [done|]. split; [done|]. apply store_eta.
Qed.

(** A root call, step by step: the draft is allocated, the body runs on a
    new [tempThisObj], and the event is committed if nothing threw. *)
Lemma mutate_root_unfold fuel name mutatorFn args w l :
  mutatorCallStackCount (store w) = 0 ->
  getOwn (proxyObj w) name = None ->
  getOwn (methods mutatorsInstance) name = Some mutatorFn ->
  _state (store w) = VRef l ->
  mutate (S fuel) name args w =
  tryFinally
    (let! r := afterReceiver (callMethod fuel) name mutatorFn args
                 RProxyObj RTempThisObj in
     let! mutatorEvent :=
       (if developmentMode w
        then let! now := gets clock in ret (withDuration (now - clock w) r.1)
        else ret r.1) in
     processMutator mutatorEvent;; ret r.2)
    (setCount Nat.pred)
    (rootEntry (objectAt (heap w) l) w).
Proof.
  intros Hc Hown Hm Hst. unfold mutate. simpl.
  unfold bind at 1. unfold getProp, gets at 1. unfold proxyObjGet, proxyProtoGet.
  rewrite Hown, Hm. rewrite Hm.
  unfold proxiedMutator, mutateState, tryFinally.
  unfold bind at 1. unfold gets at 1. rewrite Hc. simpl Nat.eqb. cbv iota.
  unfold bind at 1. unfold modify at 1. cbv iota beta.
  unfold mutateStateTry.
  unfold bind at 1. unfold bind at 1. unfold gets at 1. cbv iota beta.
  change (_state (store (setCount S w))) with (_state (store w)). rewrite Hst.
  unfold createProxy, bind at 1, gets at 1. cbv iota beta.
  unfold bind at 1, alloc at 1. cbv iota beta.
  unfold ret at 1.
  unfold bind at 1, gets at 1. cbv iota beta.
  unfold bind at 1, gets at 1. cbv iota beta.
  cbn [developmentMode clock withHeap setCount withStore].
  destruct (developmentMode w); reflexivity.
Qed.

(** A nested call of [mutateState]: a proxy of the committed state is
    allocated and never used, the callback runs one level deeper, nothing
    is committed. *)
Lemma mutateState_nested_unfold {R} (fn : value -> bool -> M (MutatorEvent * R)) w l :
  inCallTree w ->
  _state (store w) = VRef l ->
  mutateState fn w =
  tryFinally (let! r := fn (VRef (length (heap w))) false in ret r.2)
             (setCount Nat.pred)
             (withHeap (fun h => h ++ [objectAt (heap w) l]) (setCount S w)).
Proof.
  intros Hin Hst. unfold inCallTree in Hin.
  unfold mutateState, tryFinally.
  unfold bind at 1. unfold gets at 1.
  destruct (Nat.eqb_spec (mutatorCallStackCount (store w)) 0) as [E|_]; [lia|].
  unfold bind at 1. unfold modify at 1. cbv iota beta.
  unfold mutateStateTry.
  unfold bind at 1. unfold bind at 1. unfold gets at 1. cbv iota beta.
  change (_state (store (setCount S w))) with (_state (store w)). rewrite Hst.
  unfold createProxy, bind at 1, gets at 1. cbv iota beta.
  unfold bind at 1, alloc at 1. cbv iota beta.
  unfold ret at 1.
  unfold bind at 1, gets at 1. cbv iota beta.
  unfold bind at 1, gets at 1. cbv iota beta.
  cbn [developmentMode clock withHeap setCount withStore heap].
  unfold bind.
  destruct (fn _ false _) as [[r|e|] w']; [|done..].
  by destruct (developmentMode w).
Qed.

Lemma mutatorCallback_nested call mutatorName mutatorFn args this st :
  mutatorCallback call mutatorName mutatorFn args this st false =
  afterReceiver call mutatorName mutatorFn args this this.
Proof. reflexivity. Qed.

(** *** Claims about [Store.ts] *)

(** C1. A root call whose mutator throws [e], by itself or through a call
    it makes, throws [e] to its caller; the committed state is the same
    reference, no object that existed before the call was written to, no
    [MutatorEvent] was emitted, and the call depth is back to zero. *)
Theorem mutator_throw_is_atomic fuel name mutatorFn args w l e w2 :
  mutatorCallStackCount (store w) = 0 ->
  getOwn (proxyObj w) name = None ->
  getOwn (methods mutatorsInstance) name = Some mutatorFn ->
  _state (store w) = VRef l ->
  runBody (callMethod fuel) (fnBody mutatorFn args) RTempThisObj
          (rootEntry (objectAt (heap w) l) w) = (Throws e, w2) ->
  exists w',
    mutate (S fuel) name args w = (Throws e, w')
    /\ _state (store w') = _state (store w)
    /\ (forall l', l' < length (heap w) -> heap w' !! l' = heap w !! l')
    /\ mutatorEvents (store w') = mutatorEvents (store w)
    /\ mutatorCallStackCount (store w') = 0.
Proof.
  intros Hc Hown Hm Hst Hbody.
  assert (mutate (S fuel) name args w = (Throws e, setCount Nat.pred w2)) as Hcall.
  { rewrite (mutate_root_unfold fuel name mutatorFn args w l) by done.
    unfold tryFinally, bind at 1, afterReceiver, bind at 1. by rewrite Hbody. }
  exists (setCount Nat.pred w2). split; [exact Hcall|].
  destruct (mutate_root _ _ _ _ _ _ Hc Hcall) as (Hk & _ & Hcnt & Hs).
  rewrite Hs. by repeat split.
Qed.


(** *** Strings *)

Lemma append_assoc (a b c : string) : (a +:+ b) +:+ c = a +:+ b +:+ c.
Proof.
  induction a as [|ch a IH]; [done|].
  change (String ch ((a +:+ b) +:+ c) = String ch (a +:+ b +:+ c)). by f_equal.
Qed.

Lemma occursIn_refl s : occursIn s s.
Proof.
  exists "", "". change (s = s +:+ ""). induction s as [|c s IH]; [done|].
  change (String c s = String c (s +:+ "")). by f_equal.
Qed.

Lemma occursIn_append_l s a b : occursIn s a -> occursIn s (a +:+ b).
Proof.
  intros (pre & post & ->). exists pre, (post +:+ b).
  by rewrite !append_assoc.
Qed.

Lemma occursIn_append_r s a b : occursIn s b -> occursIn s (a +:+ b).
Proof.
  intros (pre & post & ->). exists (a +:+ pre), post.
  by rewrite !append_assoc.
Qed.

Lemma occursIn_join sep s l : s ∈ l -> occursIn s (join sep l).
Proof.
  induction l as [|x l IH]; [by intros ?%elem_of_nil|].
  intros [->|Hin]%elem_of_cons; destruct l as [|y l]; simpl.
  - apply occursIn_refl.
  - apply occursIn_append_l, occursIn_refl.
  - by apply elem_of_nil in Hin.
  - by apply occursIn_append_r, occursIn_append_r, IH.
Qed.

Lemma arrayIndexOf_lookup x l i : arrayIndexOf x l = Some i -> l !! i = Some x.
Proof.
  revert i. induction l as [|y l IH]; intros i; simpl; [done|].
  destruct (String.eqb_spec y x) as [->|Hne].
  - by intros [= <-].
  - destruct (arrayIndexOf x l) as [j|]; simpl; [|done].
    intros [= <-]. by apply IH.
Qed.

(** What [failIfInstanceMembersExistExceptState] keeps of the keys. *)
Definition membersExceptState (objKeys : list string) : list string :=
  match arrayIndexOf "state" objKeys with
  | Some idx => delete idx objKeys
  | None => objKeys
  end.

Lemma elem_of_membersExceptState m ks :
  m ∈ ks -> m <> "state" -> m ∈ membersExceptState ks.
Proof.
  intros Hin Hne. unfold membersExceptState.
  destruct (arrayIndexOf "state" ks) as [idx|] eqn:E; [|done].
  apply arrayIndexOf_lookup in E.
  rewrite (delete_Permutation ks idx "state" E) in Hin.
  apply elem_of_cons in Hin as [->|Hin]; done.
Qed.

Lemma failIfInstanceMembers_reports m ks w :
  m ∈ ks -> m <> "state" ->
  exists msg,
    failIfInstanceMembersExistExceptState ks w = (Throws (Error msg), w)
    /\ occursIn m msg.
Proof.
  intros Hin Hne. pose proof (elem_of_membersExceptState m ks Hin Hne) as Hm.
  unfold failIfInstanceMembersExistExceptState.
  fold (membersExceptState ks).
  exists (mutatorHasInstanceMembers +:+ ": " +:+ join "," (membersExceptState ks)).
  split.
  - rewrite bool_decide_true; [done|].
    destruct (membersExceptState ks); [by apply elem_of_nil in Hm | simpl; lia].
  - by apply occursIn_append_r, occursIn_append_r, occursIn_join.
Qed.

Lemma constructor_reports_member m state w :
  m <> "state" ->
  m ∈ keys (ownMembers mutatorsInstance) ->
  exists msg w',
    constructor state w = (Throws (Error msg), w') /\ occursIn m msg.
Proof.
  intros Hne Hin. unfold constructor, bind at 1, alloc at 1.
  unfold bind at 1, gets at 1. unfold bind at 1.
  destruct (processMutator _ _) as [[[]|e|] w1] eqn:Hp; try done.
  unfold bind at 1.
  destruct (failIfInstanceMembers_reports m _ w1 Hin Hne) as (msg & -> & Hocc).
  by exists msg, w1.
Qed.

Lemma call_reports_member m fuel name mutatorFn args w l w2 :
  m <> "state" ->
  mutatorCallStackCount (store w) = 0 ->
  getOwn (proxyObj w) name = None ->
  getOwn (methods mutatorsInstance) name = Some mutatorFn ->
  _state (store w) = VRef l ->
  runBody (callMethod fuel) (fnBody mutatorFn args) RTempThisObj
          (rootEntry (objectAt (heap w) l) w) = (Normal PUndefined, w2) ->
  m ∈ keys (tempThisObj w2) ->
  exists msg w',
    mutate (S fuel) name args w = (Throws (Error msg), w')
    /\ occursIn m msg
    /\ store w' = store w.
Proof.
  intros Hne Hc Hown Hm Hst Hbody Hin.
  destruct (failIfInstanceMembers_reports m _ w2 Hin Hne) as (msg & Hfail & Hocc).
  assert (mutate (S fuel) name args w = (Throws (Error msg), setCount Nat.pred w2))
    as Hcall.
  { rewrite (mutate_root_unfold fuel name mutatorFn args w l) by done.
    unfold tryFinally, bind at 1, afterReceiver, bind at 1. rewrite Hbody.
    unfold bind at 1. simpl. unfold bind at 1, bind at 1, ownKeys, gets at 1.
    by rewrite Hfail. }
  exists msg, (setCount Nat.pred w2). split; [done|]. split; [done|].
  by destruct (mutate_root _ _ _ _ _ _ Hc Hcall) as (_ & _ & _ & Hs).
Qed.

(** A returned value makes a root call throw, whatever the development
    flag says. *)
Lemma call_reports_returned_value fuel name mutatorFn args w l p w2 :
  mutatorCallStackCount (store w) = 0 ->
  getOwn (proxyObj w) name = None ->
  getOwn (methods mutatorsInstance) name = Some mutatorFn ->
  _state (store w) = VRef l ->
  runBody (callMethod fuel) (fnBody mutatorFn args) RTempThisObj
          (rootEntry (objectAt (heap w) l) w) = (Normal p, w2) ->
  p <> PUndefined ->
  exists w',
    mutate (S fuel) name args w = (Throws (Error mutatorWrongReturnType), w')
    /\ store w' = store w.
Proof.
  intros Hc Hown Hm Hst Hbody Hp.
  assert (mutate (S fuel) name args w
          = (Throws (Error mutatorWrongReturnType), setCount Nat.pred w2)) as Hcall.
  { rewrite (mutate_root_unfold fuel name mutatorFn args w l) by done.
    unfold tryFinally, bind at 1, afterReceiver, bind at 1. rewrite Hbody.
    unfold bind at 1. by destruct p. }
  exists (setCount Nat.pred w2). split; [done|].
  by destruct (mutate_root _ _ _ _ _ _ Hc Hcall) as (_ & _ & _ & Hs).
Qed.

(** A call made inside a call tree, on the [this] of the calling method:
    the member check of the nested call sees the members of that [this]. *)
Lemma nested_call_reports_member m fuel name mutatorFn args w l w2 :
  m <> "state" ->
  inCallTree w ->
  _state (store w) = VRef l ->
  getOwn (tempThisObj w) name = None ->
  getOwn (proxyObj w) name = None ->
  getOwn (methods mutatorsInstance) name = Some mutatorFn ->
  runBody (callMethod fuel) (fnBody mutatorFn args) RTempThisObj
          (withHeap (fun h => h ++ [objectAt (heap w) l]) (setCount S w))
  = (Normal PUndefined, w2) ->
  m ∈ keys (tempThisObj w2) ->
  exists msg w',
    callMethod (S fuel) name args RTempThisObj w = (Throws (Error msg), w')
    /\ occursIn m msg.
Proof.
  intros Hne Hin Hst Ht Hp Hm Hbody Hmem.
  destruct (failIfInstanceMembers_reports m _ w2 Hmem Hne) as (msg & Hfail & Hocc).
  exists msg, (setCount Nat.pred w2). split; [|done].
  cbn [callMethod]. unfold bind at 1, getProp, gets at 1. cbn beta iota.
  rewrite Ht. unfold proxyObjGet, proxyProtoGet. rewrite Hp, Hm. rewrite Hm.
  unfold proxiedMutator. rewrite (mutateState_nested_unfold _ w l) by done.
  rewrite mutatorCallback_nested.
  unfold tryFinally, bind at 1, afterReceiver, bind at 1. rewrite Hbody.
  unfold bind at 1. simpl. unfold bind at 1, bind at 1, ownKeys, gets at 1.
  by rewrite Hfail.
Qed.

(** An error thrown by the method of a root call is the error of the
    call. *)
Lemma call_throws_what_the_method_throws fuel name mutatorFn args w l e w2 :
  mutatorCallStackCount (store w) = 0 ->
  getOwn (proxyObj w) name = None ->
  getOwn (methods mutatorsInstance) name = Some mutatorFn ->
  _state (store w) = VRef l ->
  runBody (callMethod fuel) (fnBody mutatorFn args) RTempThisObj
          (rootEntry (objectAt (heap w) l) w) = (Throws e, w2) ->
  exists w', mutate (S fuel) name args w = (Throws e, w') /\ store w' = store w.
Proof.
  intros Hc Hown Hm Hst Hbody.
  assert (mutate (S fuel) name args w = (Throws e, setCount Nat.pred w2)) as Hcall.
  { rewrite (mutate_root_unfold fuel name mutatorFn args w l) by done.
    unfold tryFinally, bind at 1, afterReceiver, bind at 1. by rewrite Hbody. }
  exists (setCount Nat.pred w2). split; [done|].
  by destruct (mutate_root _ _ _ _ _ _ Hc Hcall) as (_ & _ & _ & Hs).
Qed.

(** C5, as the code has it. A member other than [state] on the mutators
    object makes the constructor throw an error whose message contains
    its name. A member other than [state] that is on the [this] of a
    call, outermost or nested, when its method returns [undefined] makes
    that call throw such an error. The check comes after the method and
    after the check of the returned value: a root call whose method
    returns a value throws the error of that check, and one whose method
    throws, throws what the method threw, whatever members there are. *)
Theorem illegal_member_is_reported m :
  m <> "state" ->
  (forall state w,
      m ∈ keys (ownMembers mutatorsInstance) ->
      exists msg w',
        constructor state w = (Throws (Error msg), w') /\ occursIn m msg)
  /\ (forall fuel name mutatorFn args w l w2,
         mutatorCallStackCount (store w) = 0 ->
         getOwn (proxyObj w) name = None ->
         getOwn (methods mutatorsInstance) name = Some mutatorFn ->
         _state (store w) = VRef l ->
         runBody (callMethod fuel) (fnBody mutatorFn args) RTempThisObj
                 (rootEntry (objectAt (heap w) l) w) = (Normal PUndefined, w2) ->
         m ∈ keys (tempThisObj w2) ->
         exists msg w',
           mutate (S fuel) name args w = (Throws (Error msg), w')
           /\ occursIn m msg
           /\ store w' = store w)
  /\ (forall fuel name mutatorFn args w l w2,
         inCallTree w ->
         _state (store w) = VRef l ->
         getOwn (tempThisObj w) name = None ->
         getOwn (proxyObj w) name = None ->
         getOwn (methods mutatorsInstance) name = Some mutatorFn ->
         runBody (callMethod fuel) (fnBody mutatorFn args) RTempThisObj
                 (withHeap (fun h => h ++ [objectAt (heap w) l]) (setCount S w))
         = (Normal PUndefined, w2) ->
         m ∈ keys (tempThisObj w2) ->
         exists msg w',
           callMethod (S fuel) name args RTempThisObj w = (Throws (Error msg), w')
           /\ occursIn m msg)
  /\ (forall fuel name mutatorFn args w l p w2,
         mutatorCallStackCount (store w) = 0 ->
         getOwn (proxyObj w) name = None ->
         getOwn (methods mutatorsInstance) name = Some mutatorFn ->
         _state (store w) = VRef l ->
         runBody (callMethod fuel) (fnBody mutatorFn args) RTempThisObj
                 (rootEntry (objectAt (heap w) l) w) = (Normal p, w2) ->
         p <> PUndefined ->
         exists w',
           mutate (S fuel) name args w = (Throws (Error mutatorWrongReturnType), w')
           /\ store w' = store w)
  /\ (forall fuel name mutatorFn args w l e w2,
         mutatorCallStackCount (store w) = 0 ->
         getOwn (proxyObj w) name = None ->
         getOwn (methods mutatorsInstance) name = Some mutatorFn ->
         _state (store w) = VRef l ->
         runBody (callMethod fuel) (fnBody mutatorFn args) RTempThisObj
                 (rootEntry (objectAt (heap w) l) w) = (Throws e, w2) ->
         exists w', mutate (S fuel) name args w = (Throws e, w') /\ store w' = store w).
Proof.
  intros Hne. split; [|split; [|split; [|split]]].
  - intros state w Hin. by apply constructor_reports_member.
  - intros fuel name mutatorFn args w l w2 Hc Hown Hm Hst Hbody Hin.
    by eapply call_reports_member.
  - intros fuel name mutatorFn args w l w2 Hin Hst Ht Hp Hm Hbody Hmem.
    by eapply nested_call_reports_member.
  - intros fuel name mutatorFn args w l p w2 Hc Hown Hm Hst Hbody Hp.
    by eapply call_reports_returned_value.
  - intros fuel name mutatorFn args w l e w2 Hc Hown Hm Hst Hbody.
    by eapply call_throws_what_the_method_throws.
Qed.


(** *** One draft per call tree

    The commit protocol as the specification words it: a root call opens
    one draft of the committed state; the method and every method it
    calls on [this] read and write that draft and the members of that
    [this]; each call is checked when it returns; the root call commits
    the final draft. No heap, no call counter and no proxy objects occur
    here. *)

(** The state the call tree sees through [this.state]: an object, by
    content, or a primitive that was assigned to it. *)
Inductive dstate : Type :=
| DObj (o : props prim)
| DPrim (p : prim).

Record Draft : Type := mkDraft {
  d_state : dstate;
  d_members : props prim;
}.

Definition draftRead (d : Draft) (f : string) : outcome prim :=
  match d_state d with
  | DObj o => Normal (default PUndefined (getOwn o f))
  | DPrim PUndefined | DPrim PNull => Throws TypeError
  | DPrim _ => Normal PUndefined
  end.

Definition draftWrite (d : Draft) (f : string) (p : prim) : outcome Draft :=
  match d_state d with
  | DObj o => Normal (mkDraft (DObj (setOwn o f p)) (d_members d))
  | DPrim _ => Throws TypeError
  end.

Definition draftSetMember (d : Draft) (m : string) (p : prim) : Draft :=
  if String.eqb m "state" then mkDraft (DPrim p) (d_members d)
  else mkDraft (d_state d) (setOwn (d_members d) m p).

Fixpoint draftBody (call : string -> list prim -> Draft -> outcome unit * Draft)
  (b : body) (d : Draft) : outcome prim * Draft :=
  match b with
  | Return p => (Normal p, d)
  | Throw e => (Throws e, d)
  | GetState f k =>
      match draftRead d f with
      | Normal p => draftBody call (k p) d
      | Throws e => (Throws e, d)
      | OutOfFuel => (OutOfFuel, d)
      end
  | SetState f p k =>
      match draftWrite d f p with
      | Normal d' => draftBody call k d'
      | Throws e => (Throws e, d)
      | OutOfFuel => (OutOfFuel, d)
      end
  | AssignState o k => draftBody call k (mkDraft (DObj o) (d_members d))
  | SetMember m p k => draftBody call k (draftSetMember d m p)
  | Call m args k =>
      match call m args d with
      | (Normal _, d') => draftBody call k d'
      | (Throws e, d') => (Throws e, d')
      | (OutOfFuel, d') => (OutOfFuel, d')
      end
  | TryCall m args kOk kErr =>
      match call m args d with
      | (Normal _, d') => draftBody call kOk d'
      | (Throws e, d') => draftBody call (kErr e) d'
      | (OutOfFuel, d') => (OutOfFuel, d')
      end
  end.

(** One call of a transition method on the draft, with the two contract
    checks at its return. *)
Definition draftMethod (call : string -> list prim -> Draft -> outcome unit * Draft)
  (mutatorFn : Mutator) (args : list prim) (d : Draft) : outcome unit * Draft :=
  match draftBody call (fnBody mutatorFn args) d with
  | (Normal PUndefined, d') =>
      match keys (d_members d') with
      | [] => (Normal tt, d')
      | ms => (Throws (Error (mutatorHasInstanceMembers +:+ ": " +:+ join "," ms)), d')
      end
  | (Normal _, d') => (Throws (Error mutatorWrongReturnType), d')
  | (Throws e, d') => (Throws e, d')
  | (OutOfFuel, d') => (OutOfFuel, d')
  end.

(** [this.name(...args)] inside the call tree: [state] and the members
    are not methods. *)
Fixpoint draftCall (fuel : nat) (name : string) (args : list prim) (d : Draft)
  : outcome unit * Draft :=
  match fuel with
  | 0 => (OutOfFuel, d)
  | S fuel' =>
      if String.eqb name "state" then (Throws TypeError, d)
      else match getOwn (d_members d) name with
           | Some _ => (Throws TypeError, d)
           | None =>
               match getOwn (methods mutatorsInstance) name with
               | Some mutatorFn => draftMethod (draftCall fuel') mutatorFn args d
               | None => (Throws TypeError, d)
               end
           end
  end.

(** A root call on the committed state [committed]: the outcome, and the
    state to commit. *)
Definition draftRootCall (fuel : nat) (mutatorFn : Mutator) (args : list prim)
  (committed : props prim) : outcome unit * dstate :=
  let '(r, d) := draftMethod (draftCall fuel) mutatorFn args (mkDraft (DObj committed) []) in
  (r, d_state d).

(** *** The store refines the one-draft protocol *)

(** What a value denotes in a heap. *)
Definition view (h : list (props prim)) (v : value) : option dstate :=
  match v with
  | VRef l => DObj <$> h !! l
  | VPrim p => Some (DPrim p)
  | VFun _ => None
  end.

Definition liftMembers (ms : props prim) : props value :=
  (fun kv => (kv.1, VPrim kv.2)) <$> ms.

Definition notState (kv : string * value) : Prop := kv.1 <> "state".

#[local] Instance notState_dec kv : Decision (notState kv).
Proof. unfold notState. apply _. Defined.

(** A world inside a call tree shows the draft [d] to [tempThisObj]. *)
Record shows (w : World) (d : Draft) : Prop := mkShows {
  shows_depth : inCallTree w;
  shows_committed : exists l, _state (store w) = VRef l;
  shows_state : view (heap w) (resolveState RTempThisObj w) = Some (d_state d);
  shows_proxyObj_state : is_Some (getOwn (proxyObj w) "state");
  shows_proxyObj_other : forall k, k <> "state" -> getOwn (proxyObj w) k = None;
  shows_members : filter notState (tempThisObj w) = liftMembers (d_members d);
  shows_nodup : NoDup (keys (tempThisObj w));
}.
Lemma keys_setOwn_in {V} (o : props V) k v :
  k ∈ keys o -> keys (setOwn o k v) = keys o.
Proof.
  induction o as [|[k' v'] o IH]; simpl; [by intros ?%elem_of_nil|].
  destruct (String.eqb_spec k' k) as [->|Hne]; [done|].
  intros [->|Hin]%elem_of_cons; [done|]. simpl. f_equal. by apply IH.
Qed.

Lemma keys_setOwn_notin {V} (o : props V) k v :
  k ∉ keys o -> keys (setOwn o k v) = keys o ++ [k].
Proof.
  induction o as [|[k' v'] o IH]; simpl; [done|].
  intros Hnin. apply not_elem_of_cons in Hnin as [Hne Hnin].
  destruct (String.eqb_spec k' k) as [->|_]; [done|]. simpl. f_equal. by apply IH.
Qed.

Lemma NoDup_keys_setOwn {V} (o : props V) k v :
  NoDup (keys o) -> NoDup (keys (setOwn o k v)).
Proof.
  intros Hnd. destruct (decide (k ∈ keys o)) as [Hin|Hnin].
  - by rewrite keys_setOwn_in.
  - rewrite keys_setOwn_notin by done. apply NoDup_app. split; [done|].
    split; [|apply NoDup_singleton]. intros x Hx ->%list_elem_of_singleton. done.
Qed.

Lemma filter_notState_setOwn_state (o : props value) v :
  filter notState (setOwn o "state" v) = filter notState o.
Proof.
  induction o as [|[k' v'] o IH]; cbn [setOwn].
  - rewrite filter_cons_False; [done|]. unfold notState. simpl. tauto.
  - destruct (String.eqb_spec k' "state") as [->|Hne].
    + rewrite !filter_cons_False; [done| |]; unfold notState; simpl; tauto.
    + rewrite !filter_cons_True by done. by rewrite IH.
Qed.

Lemma filter_notState_setOwn_other (o : props value) k v :
  k <> "state" -> filter notState (setOwn o k v) = setOwn (filter notState o) k v.
Proof.
  intros Hk. induction o as [|[k' v'] o IH]; cbn [setOwn].
  - by rewrite filter_cons_True.
  - destruct (String.eqb_spec k' k) as [->|Hne].
    + rewrite !filter_cons_True by done. cbn [setOwn]. by rewrite String.eqb_refl.
    + destruct (decide (k' = "state")) as [->|Hk'].
      * rewrite !filter_cons_False; [done| |]; unfold notState; simpl; tauto.
      * rewrite !filter_cons_True by done. cbn [setOwn].
        destruct (String.eqb_spec k' k); [done|]. by rewrite IH.
Qed.

Lemma liftMembers_setOwn ms k p :
  liftMembers (setOwn ms k p) = setOwn (liftMembers ms) k (VPrim p).
Proof.
  unfold liftMembers. induction ms as [|[k' p'] ms IH]; [done|].
  cbn [setOwn]. destruct (String.eqb k' k) eqn:E;
    cbn [fmap list_fmap setOwn fst snd]; rewrite E; [done|].
  f_equal. apply IH.
Qed.

Lemma getOwn_liftMembers ms k : getOwn (liftMembers ms) k = VPrim <$> getOwn ms k.
Proof.
  unfold liftMembers. induction ms as [|[k' p'] ms IH]; simpl; [done|].
  by destruct (String.eqb k' k).
Qed.

Lemma keys_liftMembers ms : keys (liftMembers ms) = keys ms.
Proof.
  unfold liftMembers, keys. rewrite <- list_fmap_compose.
  by apply list_fmap_ext.
Qed.

Lemma getOwn_filter_notState (o : props value) k :
  k <> "state" -> getOwn (filter notState o) k = getOwn o k.
Proof.
  intros Hk. induction o as [|[k' v'] o IH]; [done|].
  destruct (decide (k' = "state")) as [->|Hk'].
  - rewrite filter_cons_False by (unfold notState; simpl; tauto). cbn [getOwn].
    destruct (String.eqb_spec "state" k); [done | apply IH].
  - rewrite filter_cons_True by done. cbn [getOwn]. by rewrite IH.
Qed.

Lemma filter_notState_id (o : props value) :
  "state" ∉ keys o -> filter notState o = o.
Proof.
  induction o as [|[k v] o IH]; [done|]. cbn [keys fmap list_fmap fst].
  intros [Hne Hnin]%not_elem_of_cons.
  rewrite filter_cons_True by (unfold notState; simpl; congruence).
  by rewrite IH.
Qed.

Lemma membersExceptState_keys (o : props value) :
  NoDup (keys o) -> membersExceptState (keys o) = keys (filter notState o).
Proof.
  unfold membersExceptState. induction o as [|[k v] o IH]; [done|].
  cbn [keys fmap list_fmap fst arrayIndexOf].
  intros [Hnin Hnd]%NoDup_cons.
  destruct (String.eqb_spec k "state") as [->|Hne].
  - rewrite filter_cons_False by (unfold notState; simpl; tauto).
    cbn [delete list_delete]. by rewrite filter_notState_id.
  - rewrite filter_cons_True by done. cbn [keys fmap list_fmap fst].
    fold (keys (filter notState o)). rewrite <- IH by done. fold (keys o).
    by destruct (arrayIndexOf "state" (keys o)).
Qed.

Inductive outcomeRel {A B} (R : A -> B -> Prop) : outcome A -> outcome B -> Prop :=
| rel_normal a b : R a b -> outcomeRel R (Normal a) (Normal b)
| rel_throws e : outcomeRel R (Throws e) (Throws e)
| rel_outOfFuel : outcomeRel R OutOfFuel OutOfFuel.

(** [m], run on [tempThisObj] inside a call tree, does to the world what
    [s] does to the draft; [R] relates what they return, given the final
    world. *)
Definition refines {A B} (R : World -> A -> B -> Prop) (m : M A)
  (s : Draft -> outcome B * Draft) : Prop :=
  forall w d, shows w d ->
    outcomeRel (R (m w).2) (m w).1 (s d).1
    /\ shows (m w).2 (s d).2
    /\ store (m w).2 = store w
    /\ developmentMode (m w).2 = developmentMode w
    /\ clock (m w).2 = clock w.

Lemma view_extend h o v ds : view h v = Some ds -> view (h ++ [o]) v = Some ds.
Proof.
  destruct v as [p|l|f]; simpl; [done| |done].
  destruct (h !! l) as [o'|] eqn:E; [|done].
  intros [= <-]. by rewrite (lookup_app_l_Some _ _ _ _ E).
Qed.

Lemma shows_extend_heap w d o :
  shows w d -> shows (withHeap (fun h => h ++ [o]) w) d.
Proof.
  intros []. split; try done.
  change (view (heap w ++ [o]) (resolveState RTempThisObj w) = Some (d_state d)).
  by apply view_extend.
Qed.

Lemma shows_deeper w d : shows w d -> shows (setCount S w) d.
Proof. intros []. split; try done. unfold inCallTree in *. simpl. lia. Qed.

Lemma shows_same_store w w' d :
  shows w d -> store w' = store w -> heap w' = heap w -> proxyObj w' = proxyObj w ->
  tempThisObj w' = tempThisObj w -> shows w' d.
Proof.
  intros [] Hs Hh Hp Ht. split; unfold inCallTree, resolveState, proxyObjGet in *;
    rewrite ?Hs, ?Hh, ?Hp, ?Ht; done.
Qed.

Lemma shows_assign w d o :
  shows w d ->
  shows (withTempThisObj (fun t => setOwn t "state" (VRef (length (heap w))))
           (withHeap (fun h => h ++ [o]) w))
        (mkDraft (DObj o) (d_members d)).
Proof.
  intros []. split; try done; simpl.
  - rewrite getOwn_setOwn_eq. simpl. by rewrite lookup_app_r, Nat.sub_diag.
  - by rewrite filter_notState_setOwn_state.
  - by apply NoDup_keys_setOwn.
Qed.

Lemma shows_setMember w d m p :
  shows w d ->
  shows (withTempThisObj (fun t => setOwn t m (VPrim p)) w) (draftSetMember d m p).
Proof.
  intros []. unfold draftSetMember.
  destruct (String.eqb_spec m "state") as [->|Hne]; split; try done; simpl.
  - by rewrite getOwn_setOwn_eq.
  - by rewrite filter_notState_setOwn_state.
  - by apply NoDup_keys_setOwn.
  - by rewrite getOwn_setOwn_ne.
  - rewrite filter_notState_setOwn_other by done. rewrite shows_members0.
    symmetry. apply liftMembers_setOwn.
  - by apply NoDup_keys_setOwn.
Qed.

Lemma read_refines f w d :
  shows w d -> readStateField RTempThisObj f w = (draftRead d f, w).
Proof.
  intros []. unfold readStateField, bind. rewrite getProp_state. unfold draftRead.
  destruct (resolveState RTempThisObj w) as [p|l|g]; simpl in *.
  - injection shows_state0 as <-. by destruct p.
  - destruct (heap w !! l) as [o|] eqn:E; [|done]. injection shows_state0 as <-.
    unfold gets, objectAt. by rewrite E.
  - done.
Qed.

Lemma write_refines f p w d :
  shows w d ->
  match draftWrite d f p with
  | Normal d' =>
      exists w', writeStateField RTempThisObj f p w = (Normal tt, w')
                 /\ shows w' d' /\ store w' = store w
                 /\ developmentMode w' = developmentMode w /\ clock w' = clock w
  | Throws e => writeStateField RTempThisObj f p w = (Throws e, w)
  | OutOfFuel => False
  end.
Proof.
  intros Hshows. pose proof Hshows as [].
  unfold writeStateField, bind. rewrite getProp_state. unfold draftWrite.
  destruct (resolveState RTempThisObj w) as [q|l|g] eqn:Hres; cbn [view] in shows_state0.
  - by injection shows_state0 as <-.
  - destruct (heap w !! l) as [o|] eqn:E; [|done]. injection shows_state0 as <-.
    eexists. split; [reflexivity|]. split; [|done].
    split; try done.
    change (view (<[l:=setOwn (objectAt (heap w) l) f p]> (heap w))
                 (resolveState RTempThisObj w) = Some (DObj (setOwn o f p))).
    rewrite Hres. cbn [view]. unfold objectAt. rewrite E. cbn [default].
    rewrite list_lookup_insert_eq; [done|]. by eapply lookup_lt_Some.
  - done.
Qed.

Ltac refines_by H :=
  destruct H as (? & ? & ? & ? & ?);
  cbn [store developmentMode clock withTempThisObj withHeap withProxyObj] in *;
  split; [assumption|]; split; [assumption|];
  split; [congruence|]; split; congruence.

Lemma refines_runBody call scall :
  (forall m args,
      refines (fun _ _ _ => True) (call m args RTempThisObj) (scall m args)) ->
  forall b,
    refines (fun _ p q => p = q) (runBody call b RTempThisObj) (draftBody scall b).
Proof.
  intros Hcall b.
  induction b as [p|e|f k IH|f p k IH|o k IH|m p k IH|m args k IH
                 |m args kOk IHok kErr IHerr]; intros w d Hshows; simpl.
  - split; [by constructor|done].
  - split; [by constructor|done].
  - unfold bind. rewrite (read_refines f w d Hshows).
    destruct (draftRead d f) as [p|e|]; simpl.
    + by apply IH.
    + split; [by constructor|done].
    + split; [by constructor|done].
  - unfold bind. pose proof (write_refines f p w d Hshows) as Hw.
    destruct (draftWrite d f p) as [d'|e|]; [| |done].
    + destruct Hw as (w' & -> & Hshows' & Hs & Hd & Hc).
      refines_by (IH w' d' Hshows').
    + rewrite Hw. split; [by constructor|done].
  - unfold bind. simpl.
    refines_by (IH _ _ (shows_assign w d o Hshows)).
  - unfold bind. simpl.
    refines_by (IH _ _ (shows_setMember w d m p Hshows)).
  - unfold bind. destruct (Hcall m args w d Hshows) as (Hr & Hsh & Hs & Hd & Hc).
    destruct (call m args RTempThisObj w) as [r w'].
    destruct (scall m args d) as [r' d']. simpl in *.
    destruct Hr as [a b _|e|]; simpl.
    + refines_by (IH w' d' Hsh).
    + split; [by constructor|done].
    + split; [by constructor|done].
  - destruct (Hcall m args w d Hshows) as (Hr & Hsh & Hs & Hd & Hc).
    destruct (call m args RTempThisObj w) as [r w'].
    destruct (scall m args d) as [r' d']. simpl in *.
    destruct Hr as [a b _|e|]; simpl.
    + refines_by (IHok w' d' Hsh).
    + refines_by (IHerr e w' d' Hsh).
    + split; [by constructor|done].
Qed.

Lemma shows_copy w d :
  shows w d ->
  shows (withProxyObj (fun o => setOwn o "state" (resolveState RTempThisObj w)) w) d
  /\ proxyObjGet "state"
       (withProxyObj (fun o => setOwn o "state" (resolveState RTempThisObj w)) w)
     = resolveState RTempThisObj w.
Proof.
  intros []. remember (resolveState RTempThisObj w) as v eqn:Hv.
  assert (proxyObjGet "state" (withProxyObj (fun o => setOwn o "state" v) w) = v) as Hp.
  { unfold proxyObjGet. cbn [proxyObj withProxyObj]. by rewrite getOwn_setOwn_eq. }
  split; [|exact Hp]. split; try done.
  - unfold resolveState. rewrite Hp. cbn [tempThisObj withProxyObj heap].
    rewrite Hv in shows_state0 |- *. unfold resolveState in shows_state0 |- *.
    by destruct (getOwn (tempThisObj w) "state").
  - cbn [proxyObj withProxyObj]. by rewrite getOwn_setOwn_eq.
  - intros k Hk. cbn [proxyObj withProxyObj]. rewrite getOwn_setOwn_ne by done.
    by apply shows_proxyObj_other0.
Qed.

(** What [afterReceiver] returns when it runs on [tempThisObj]. *)
Definition eventOf (mutatorName : string) (mutatorFn : Mutator) (args : list prim)
  (this : receiver) (w' : World) (r : MutatorEvent * prim) : Prop :=
  r.2 = PUndefined
  /\ (getProp this "storeId" w').1 = Normal (ev_storeId r.1)
  /\ ev_action r.1 = createActionFromArguments mutatorName mutatorFn args
  /\ ev_state r.1 = resolveState RTempThisObj w'
  /\ ev_duration r.1 = None.

Lemma failIfInstanceMembers_refines w d :
  shows w d ->
  failIfInstanceMembersExistExceptState (keys (tempThisObj w)) w =
  match keys (d_members d) with
  | [] => (Normal tt, w)
  | ms => (Throws (Error (mutatorHasInstanceMembers +:+ ": " +:+ join "," ms)), w)
  end.
Proof.
  intros []. unfold failIfInstanceMembersExistExceptState.
  fold (membersExceptState (keys (tempThisObj w))).
  rewrite membersExceptState_keys, shows_members0, keys_liftMembers by done.
  by destruct (keys (d_members d)).
Qed.

Lemma refines_afterReceiver call scall mutatorName mutatorFn args this :
  (forall m args,
      refines (fun _ _ _ => True) (call m args RTempThisObj) (scall m args)) ->
  refines (fun w' r _ => eventOf mutatorName mutatorFn args this w' r)
          (afterReceiver call mutatorName mutatorFn args this RTempThisObj)
          (draftMethod scall mutatorFn args).
Proof.
  intros Hcall w d Hshows.
  destruct (afterReceiver call mutatorName mutatorFn args this RTempThisObj w)
    as [ra wa] eqn:Ha.
  destruct (draftMethod scall mutatorFn args d) as [rd dd] eqn:Hd'.
  unfold afterReceiver in Ha. unfold draftMethod in Hd'.
  destruct (refines_runBody call scall Hcall (fnBody mutatorFn args) w d Hshows)
    as (Hr & Hsh & Hs & Hd & Hc).
  unfold bind at 1 in Ha.
  destruct (runBody call (fnBody mutatorFn args) RTempThisObj w) as [r w1].
  destruct (draftBody scall (fnBody mutatorFn args) d) as [r' d1].
  cbn [fst snd] in *.
  destruct Hr as [p q <-|e|];
    [|injection Ha as <- <-; injection Hd' as <- <-; by split; [constructor|]..].
  unfold bind at 1 in Ha.
  destruct p; cbn [failIfNotUndefined throw ret] in Ha;
    try (injection Ha as <- <-; injection Hd' as <- <-; by split; [constructor|]).
  unfold bind at 1, bind at 1, ownKeys, gets at 1 in Ha.
  rewrite (failIfInstanceMembers_refines w1 d1 Hsh) in Ha.
  destruct (keys (d_members d1)) as [|m ms];
    [|injection Ha as <- <-; injection Hd' as <- <-; by split; [constructor|]].
  unfold bind at 1, bind at 1 in Ha. rewrite getProp_state in Ha.
  cbn [setProp modify] in Ha.
  destruct (shows_copy w1 d1 Hsh) as [Hsh2 Hp2].
  unfold bind, getProp, gets, ret in Ha. cbn beta iota in Ha.
  injection Ha as <- <-. injection Hd' as <- <-.
  split; [|by split]. constructor. unfold eventOf.
  cbn [fst snd ev_storeId ev_action ev_state ev_duration].
  split; [done|]. split; [done|]. split; [done|]. split; [|done].
  unfold resolveState in Hp2 |- *. rewrite Hp2. cbn [tempThisObj withProxyObj].
  by destruct (getOwn (tempThisObj w1) "state").
Qed.

Lemma shows_shallower w d :
  shows w d -> 2 <= mutatorCallStackCount (store w) -> shows (setCount Nat.pred w) d.
Proof. intros [] Hc. split; try done. unfold inCallTree in *. simpl. lia. Qed.

(** A method call made inside the call tree, once the method is found. *)
Lemma refines_proxiedMutator call scall mutatorName mutatorFn args :
  (forall m args,
      refines (fun _ _ _ => True) (call m args RTempThisObj) (scall m args)) ->
  refines (fun _ _ _ => True)
          (proxiedMutator call mutatorName mutatorFn args RTempThisObj)
          (draftMethod scall mutatorFn args).
Proof.
  intros Hcall w d Hshows. pose proof Hshows as [].
  destruct shows_committed0 as [l Hl].
  unfold proxiedMutator. rewrite (mutateState_nested_unfold _ w l) by done.
  rewrite mutatorCallback_nested.
  set (w2 := withHeap (fun h => h ++ [objectAt (heap w) l]) (setCount S w)).
  assert (shows w2 d) as Hshows2 by by apply shows_extend_heap, shows_deeper.
  destruct (refines_afterReceiver call scall mutatorName mutatorFn args RTempThisObj
              Hcall w2 d Hshows2) as (Hr & Hsh & Hs & Hd & Hc).
  unfold tryFinally, bind.
  destruct (afterReceiver call mutatorName mutatorFn args RTempThisObj RTempThisObj w2)
    as [r w3].
  destruct (draftMethod scall mutatorFn args d) as [r' d3].
  cbn [fst snd] in *.
  assert (store (setCount Nat.pred w3) = store w) as Hstore.
  { cbn [store setCount withStore]. rewrite Hs. subst w2.
    cbn [store setCount withStore withHeap storeId _state mutatorCallStackCount
           mutatorEvents Nat.pred]. apply store_eta. }
  assert (shows (setCount Nat.pred w3) d3) as Hfinal.
  { apply shows_shallower; [done|]. rewrite Hs. subst w2. unfold inCallTree in *.
    simpl. lia. }
  destruct Hr as [a b _|e|]; cbn [ret fst snd]; (split; [by constructor|]);
    (split; [done|]); (split; [done|]); by subst w2.
Qed.

Lemma refines_callMethod fuel :
  forall name args,
    refines (fun _ _ _ => True) (callMethod fuel name args RTempThisObj)
            (draftCall fuel name args).
Proof.
  induction fuel as [|fuel IH]; intros name args w d Hshows.
  { split; [apply rel_outOfFuel|by cbn]. }
  cbn [callMethod draftCall]. pose proof Hshows as [].
  destruct (String.eqb_spec name "state") as [->|Hne].
  { unfold bind. rewrite getProp_state.
    destruct (resolveState RTempThisObj w) as [p|l|f]; [| |done];
      (split; [apply rel_throws|by cbn]). }
  assert (getOwn (tempThisObj w) name = VPrim <$> getOwn (d_members d) name) as Hown.
  { by rewrite <- getOwn_liftMembers, <- shows_members0, getOwn_filter_notState. }
  unfold bind. unfold getProp, gets. cbn beta iota. rewrite Hown.
  destruct (getOwn (d_members d) name) as [p|]; cbn [fmap option_fmap option_map].
  { split; [apply rel_throws|by cbn]. }
  unfold proxyObjGet, proxyProtoGet. rewrite shows_proxyObj_other0 by done.
  destruct (getOwn (methods mutatorsInstance) name) as [mutatorFn|] eqn:Hm.
  - rewrite Hm. by apply refines_proxiedMutator.
  - split; [apply rel_throws|by cbn].
Qed.

Lemma rootEntry_shows o w l :
  mutatorCallStackCount (store w) = 0 ->
  (forall k, k <> "state" -> getOwn (proxyObj w) k = None) ->
  _state (store w) = VRef l ->
  shows (rootEntry o w) (mkDraft (DObj o) []).
Proof.
  intros Hc Hother Hst. split.
  - unfold inCallTree. simpl. lia.
  - by exists l.
  - unfold resolveState, proxyObjGet. cbn [rootEntry tempThisObj proxyObj heap
      withTempThisObj withProxyObj withHeap setCount withStore getOwn].
    rewrite getOwn_setOwn_eq. cbn [view d_state].
    by rewrite lookup_app_r, Nat.sub_diag.
  - cbn [rootEntry proxyObj withTempThisObj withProxyObj]. by rewrite getOwn_setOwn_eq.
  - intros k Hk. cbn [rootEntry proxyObj withTempThisObj withProxyObj withHeap
      setCount withStore]. rewrite getOwn_setOwn_ne by done. by apply Hother.
  - done.
  - apply NoDup_nil_2.
Qed.

(** A root call is the one-draft protocol, followed by the commit. *)
Lemma root_call_refines fuel name mutatorFn args w l :
  mutatorCallStackCount (store w) = 0 ->
  (forall k, k <> "state" -> getOwn (proxyObj w) k = None) ->
  name <> "state" ->
  getOwn (methods mutatorsInstance) name = Some mutatorFn ->
  _state (store w) = VRef l ->
  match draftRootCall fuel mutatorFn args (objectAt (heap w) l) with
  | (Normal _, final) =>
      exists w' ev,
        mutate (S fuel) name args w = (Normal PUndefined, w')
        /\ mutatorEvents (store w') = mutatorEvents (store w) ++ [ev]
        /\ _state (store w') = ev_state ev
        /\ view (heap w') (ev_state ev) = Some final
        /\ ev_action ev = createActionFromArguments name mutatorFn args
        /\ ev_storeId ev = proxyProtoGet "storeId"
        /\ storeId (store w') = storeId (store w)
        /\ mutatorCallStackCount (store w') = 0
        /\ (forall k, k <> "state" -> getOwn (proxyObj w') k = None)
  | (Throws e, _) =>
      exists w', mutate (S fuel) name args w = (Throws e, w') /\ store w' = store w
                 /\ (forall k, k <> "state" -> getOwn (proxyObj w') k = None)
  | (OutOfFuel, _) =>
      exists w', mutate (S fuel) name args w = (OutOfFuel, w') /\ store w' = store w
                 /\ (forall k, k <> "state" -> getOwn (proxyObj w') k = None)
  end.
Proof.
  intros Hc Hother Hname Hm Hst.
  pose proof (mutate_root_unfold fuel name mutatorFn args w l Hc
                (Hother name Hname) Hm Hst) as Hmut.
  set (o := objectAt (heap w) l) in *.
  pose proof (rootEntry_shows o w l Hc Hother Hst) as Hshows.
  destruct (refines_afterReceiver (callMethod fuel) (draftCall fuel) name mutatorFn
              args RProxyObj (refines_callMethod fuel) _ _ Hshows)
    as (Hr & Hsh & Hs & Hd & Hclk).
  unfold draftRootCall. unfold tryFinally in Hmut. unfold bind at 1 in Hmut.
  destruct (afterReceiver (callMethod fuel) name mutatorFn args RProxyObj
              RTempThisObj (rootEntry o w)) as [r w3].
  destruct (draftMethod (draftCall fuel) mutatorFn args (mkDraft (DObj o) []))
    as [r' d3].
  cbn [fst snd] in *.
  assert (store (setCount Nat.pred w3) = store w) as Hstore.
  { cbn [store setCount withStore]. rewrite Hs.
    cbn [rootEntry store setCount withStore withHeap withProxyObj withTempThisObj
           storeId _state mutatorCallStackCount mutatorEvents Nat.pred].
    apply store_eta. }
  assert (forall k, k <> "state" -> getOwn (proxyObj w3) k = None) as Hpo
      by by destruct Hsh.
  destruct Hr as [[ev res] [] Hev|e|]; [|by eexists..].
  destruct Hev as (Hres & Hsid & Hact & Hstate & Hdur). cbn [fst snd] in *. subst res.
  pose proof Hsh as [].
  assert (ev_storeId ev = proxyProtoGet "storeId") as Hsid'.
  { unfold getProp, gets in Hsid. cbn [fst] in Hsid. injection Hsid as <-.
    unfold proxyObjGet. by rewrite shows_proxyObj_other0. }
  assert (view (heap w3) (ev_state ev) = Some (d_state d3)) as Hview
      by by rewrite Hstate.
  assert (mutatorEvents (store w3) = mutatorEvents (store w)) as Hevs
      by by rewrite Hs.
  assert (storeId (store w3) = storeId (store w)) as Hid by by rewrite Hs.
  assert (mutatorCallStackCount (store w3) = 1) as Hcnt.
  { rewrite Hs. simpl. by rewrite Hc. }
  rewrite Hmut. clear Hmut.
  destruct (developmentMode w);
    unfold bind, gets, ret, processMutator, setState, modify, bind; cbn [fst snd];
    eexists; eexists; (split; [reflexivity|]);
    cbn [store heap proxyObj withStore setCount mutatorEvents _state storeId
           mutatorCallStackCount withDuration ev_state ev_action ev_storeId];
    rewrite ?Hevs, ?Hcnt; try (destruct (developmentMode w3));
    unfold deepFreeze; by repeat (split; [done|]).
Qed.

(** C2. A root call does what the one-draft protocol does: the method and
    all the methods it calls on [this] work on the one draft the root call
    opened. When the protocol ends normally the store emits exactly one
    [MutatorEvent], whose state is the committed state and holds the final
    content of that draft; otherwise it emits none and the store is what
    it was. Either way the call depth is zero again and [this.mutate] has
    no own property but [state], which is what the next outermost call
    needs to be a root call with a draft and an event of its own. *)
Theorem nested_calls_share_one_draft fuel name mutatorFn args w l :
  mutatorCallStackCount (store w) = 0 ->
  (forall k, k <> "state" -> getOwn (proxyObj w) k = None) ->
  name <> "state" ->
  getOwn (methods mutatorsInstance) name = Some mutatorFn ->
  _state (store w) = VRef l ->
  match draftRootCall fuel mutatorFn args (objectAt (heap w) l) with
  | (Normal _, final) =>
      exists w' ev,
        mutate (S fuel) name args w = (Normal PUndefined, w')
        /\ mutatorEvents (store w') = mutatorEvents (store w) ++ [ev]
        /\ _state (store w') = ev_state ev
        /\ view (heap w') (ev_state ev) = Some final
        /\ mutatorCallStackCount (store w') = 0
        /\ (forall k, k <> "state" -> getOwn (proxyObj w') k = None)
  | (Throws e, _) =>
      exists w', mutate (S fuel) name args w = (Throws e, w')
                 /\ mutatorEvents (store w') = mutatorEvents (store w)
                 /\ store w' = store w
                 /\ mutatorCallStackCount (store w') = 0
                 /\ (forall k, k <> "state" -> getOwn (proxyObj w') k = None)
  | (OutOfFuel, _) =>
      exists w', mutate (S fuel) name args w = (OutOfFuel, w')
                 /\ mutatorEvents (store w') = mutatorEvents (store w)
                 /\ store w' = store w
                 /\ mutatorCallStackCount (store w') = 0
                 /\ (forall k, k <> "state" -> getOwn (proxyObj w') k = None)
  end.
Proof.
  intros Hc Hother Hname Hm Hst.
  pose proof (root_call_refines fuel name mutatorFn args w l Hc Hother Hname Hm Hst) as H.
  destruct (draftRootCall fuel mutatorFn args (objectAt (heap w) l)) as [[[]|e|] final].
  - destruct H as (w' & ev & H1 & H2 & H3 & H4 & _ & _ & _ & H5 & H6).
    by exists w', ev.
  - destruct H as (w' & H1 & H2 & H3). exists w'. by rewrite H2.
  - destruct H as (w' & H1 & H2 & H3). exists w'. by rewrite H2.
Qed.


(** *** The action of an event *)

Fixpoint noBracket (s : string) : Prop :=
  match s with
  | EmptyString => True
  | String c s' => c <> "]"%char /\ noBracket s'
  end.

Lemma noBracket_string_of_uint d : noBracket (NilEmpty.string_of_uint d).
Proof. induction d; simpl; (split; [discriminate | assumption]) || exact I. Qed.

Lemma append_cons c (a b : string) : String c a +:+ b = String c (a +:+ b).
Proof. reflexivity. Qed.

Lemma append_nil (b : string) : "" +:+ b = b.
Proof. reflexivity. Qed.

Lemma bracket_splits_once (s1 s2 r1 r2 : string) :
  noBracket s1 -> noBracket s2 ->
  s1 +:+ String "]" r1 = s2 +:+ String "]" r2 -> s1 = s2.
Proof.
  revert s2. induction s1 as [|c s1 IH]; intros [|c2 s2]; simpl;
    rewrite ?append_cons, ?append_nil.
  - done.
  - intros _ [Hc _] [= <- _]. done.
  - intros [Hc _] _ [= -> _]. done.
  - intros [_ H1] [_ H2] [= -> H]. f_equal. by apply IH.
Qed.

Lemma numToString_inj i j : numToString i = numToString j -> i = j.
Proof.
  unfold numToString. intros H. apply DecimalNat.Unsigned.to_uint_inj.
  pose proof (NilEmpty.usu (Nat.to_uint i)) as Hi. rewrite H, NilEmpty.usu in Hi.
  by injection Hi.
Qed.

Lemma argKey_inj names i j : argKey names i = argKey names j -> i = j.
Proof.
  unfold argKey. rewrite !append_cons, !append_nil. intros [= H].
  apply numToString_inj.
  eapply bracket_splits_once; [apply noBracket_string_of_uint..|exact H].
Qed.

Lemma argKey_not_type names i : argKey names i <> "type".
Proof. unfold argKey. by rewrite append_cons. Qed.

Lemma recordArgs_other names i args action k :
  (forall j, k <> argKey names (i + j)) ->
  getOwn (recordArgs names i args action) k = getOwn action k.
Proof.
  revert i action. induction args as [|a rest IH]; intros i action Hk; simpl; [done|].
  rewrite IH.
  - apply getOwn_setOwn_ne. intros <-. apply (Hk 0). by rewrite Nat.add_0_r.
  - intros j. rewrite Nat.add_succ_comm. apply Hk.
Qed.

Lemma recordArgs_get names i args action j a :
  args !! j = Some a ->
  getOwn (recordArgs names i args action) (argKey names (i + j)) = Some a.
Proof.
  revert i action j. induction args as [|a0 rest IH]; intros i action j; [done|].
  destruct j as [|j]; simpl.
  - intros [= <-]. rewrite Nat.add_0_r, recordArgs_other.
    + apply getOwn_setOwn_eq.
    + intros j E. apply argKey_inj in E. lia.
  - intros H. rewrite <- Nat.add_succ_comm. by apply IH.
Qed.

(** The action of an event: the bare mutator name as its type, and every
    supplied argument under "[i] name". *)
Lemma createActionFromArguments_spec actionTypeName fn args :
  getOwn (createActionFromArguments actionTypeName fn args) "type"
    = Some (PStr actionTypeName)
  /\ forall i a,
       args !! i = Some a ->
       getOwn (createActionFromArguments actionTypeName fn args)
              (argKey (argNamesOf (fnSource fn)) i) = Some a.
Proof.
  unfold createActionFromArguments. split.
  - apply getOwn_setOwn_eq.
  - intros i a H. rewrite getOwn_setOwn_ne.
    + by apply (recordArgs_get _ 0).
    + intros E. by apply (argKey_not_type (argNamesOf (fnSource fn)) i).
Qed.

(** C10. The event a root call commits: its action has the bare mutator
    name as type and each supplied argument under its "[i] name" key, but
    its [storeId] is what [this.storeId] yields on the proxy object, the
    function of a mutator called storeId or [undefined], and never the
    id of the store. *)
Theorem committed_event_lacks_store_id fuel name mutatorFn args w l final :
  mutatorCallStackCount (store w) = 0 ->
  (forall k, k <> "state" -> getOwn (proxyObj w) k = None) ->
  name <> "state" ->
  getOwn (methods mutatorsInstance) name = Some mutatorFn ->
  _state (store w) = VRef l ->
  draftRootCall fuel mutatorFn args (objectAt (heap w) l) = (Normal tt, final) ->
  exists w' ev,
    mutate (S fuel) name args w = (Normal PUndefined, w')
    /\ mutatorEvents (store w') = mutatorEvents (store w) ++ [ev]
    /\ getOwn (ev_action ev) "type" = Some (PStr name)
    /\ (forall i a, args !! i = Some a ->
          getOwn (ev_action ev) (argKey (argNamesOf (fnSource mutatorFn)) i) = Some a)
    /\ ev_storeId ev = proxyProtoGet "storeId"
    /\ ev_storeId ev <> VPrim (PStr (storeId (store w))).
Proof.
  intros Hc Hother Hname Hm Hst Hdraft.
  pose proof (root_call_refines fuel name mutatorFn args w l Hc Hother Hname Hm Hst) as H.
  rewrite Hdraft in H.
  destruct H as (w' & ev & H1 & H2 & _ & _ & Hact & Hsid & _).
  exists w', ev. rewrite Hact, Hsid.
  destruct (createActionFromArguments_spec name mutatorFn args) as [Ht Ha].
  repeat (split; [done|]). unfold proxyProtoGet.
  by destruct (getOwn (methods mutatorsInstance) "storeId").
Qed.


(** *** The parameter names of a method *)

Lemma length_append (a b : string) :
  String.length (a +:+ b) = String.length a + String.length b.
Proof. induction a as [|c a IH]; [done|]. rewrite append_cons. cbn. by rewrite IH. Qed.

Lemma index_of_first c pre rest :
  lacks c pre ->
  String.index 0 (String c "") (pre +:+ String c rest) = Some (String.length pre).
Proof.
  induction pre as [|b pre IH]; intros Hpre.
  - rewrite append_nil. cbn. destruct (ascii_dec c c); [|done]. by destruct rest.
  - destruct Hpre as [Hb Hpre]. rewrite append_cons. cbn [String.index String.prefix].
    destruct (ascii_dec c b) as [->|_]; [done|]. by rewrite IH.
Qed.

Lemma substring_skip (a b : string) n :
  String.substring (String.length a) n (a +:+ b) = String.substring 0 n b.
Proof. induction a as [|c a IH]; [done|]. rewrite append_cons. exact IH. Qed.

Lemma substring_take (b c : string) :
  String.substring 0 (String.length b) (b +:+ c) = b.
Proof.
  induction b as [|ch b IH]; [by destruct c|]. rewrite append_cons. cbn. by rewrite IH.
Qed.

(** The text between the first "(" and the first ")" after it. *)
Lemma argNamesOf_inner pre inner post :
  lacks "(" pre -> lacks ")" pre -> lacks ")" inner ->
  argNamesOf (pre +:+ "(" +:+ inner +:+ ")" +:+ post) = trim <$> split "," inner.
Proof.
  intros Hopen Hclose Hinner. unfold argNamesOf. f_equal.
  set (s := pre +:+ "(" +:+ inner +:+ ")" +:+ post).
  assert (indexOf "(" s = Z.of_nat (String.length pre)) as ->.
  { unfold indexOf, s. change ("(" +:+ inner +:+ ")" +:+ post)
      with (String "(" (inner +:+ ")" +:+ post)). by rewrite index_of_first. }
  assert (indexOf ")" s = Z.of_nat (String.length pre + 1 + String.length inner)) as ->.
  { unfold indexOf, s.
    replace (pre +:+ "(" +:+ inner +:+ ")" +:+ post)
      with ((pre +:+ "(" +:+ inner) +:+ String ")" post)
      by (by rewrite !append_assoc).
    rewrite index_of_first.
    - by rewrite !length_append, Nat.add_assoc.
    - clear -Hclose Hinner. induction pre as [|b pre IH]; [by split|].
      destruct Hclose as [Hb Hpre]. rewrite append_cons. split; [done|by apply IH]. }
  unfold substring, clamp.
  assert (String.length s
          = String.length pre + 1 + String.length inner + 1 + String.length post) as ->.
  { unfold s. rewrite !length_append. cbn. lia. }
  replace (Z.to_nat (Z.of_nat (String.length pre) + 1)) with (String.length pre + 1) by lia.
  rewrite Nat2Z.id.
  replace (Nat.min (String.length pre + 1) _) with (String.length pre + 1) by lia.
  replace (Nat.min (String.length pre + 1 + String.length inner) _)
    with (String.length pre + 1 + String.length inner) by lia.
  replace (Nat.min (String.length pre + 1) _) with (String.length pre + 1) by lia.
  replace (Nat.max _ _ - (String.length pre + 1)) with (String.length inner) by lia.
  unfold s. replace (pre +:+ "(" +:+ inner +:+ ")" +:+ post)
    with ((pre +:+ "(") +:+ inner +:+ ")" +:+ post) by (by rewrite !append_assoc).
  replace (String.length pre + 1) with (String.length (pre +:+ "("))
    by (rewrite length_append; done).
  by rewrite substring_skip, substring_take.
Qed.

Lemma split_lacks sep s : lacks sep s -> split sep s = [s].
Proof.
  induction s as [|c s IH]; [done|]. intros [Hc Hs]. cbn [split].
  rewrite (proj2 (Ascii.eqb_neq c sep)) by done. by rewrite IH.
Qed.

Lemma split_first sep a b :
  lacks sep a -> split sep (a +:+ String sep b) = a :: split sep b.
Proof.
  induction a as [|c a IH].
  - intros _. rewrite append_nil. cbn [split]. by rewrite Ascii.eqb_refl.
  - intros [Hc Ha]. rewrite append_cons. cbn [split].
    rewrite (proj2 (Ascii.eqb_neq c sep)) by done. by rewrite IH.
Qed.

Lemma plainName_lacks n : plainName n -> lacks "," n /\ lacks ")" n.
Proof.
  induction n as [|c n IH]; [done|]. intros (_ & H1 & H2 & _ & Hn).
  destruct (IH Hn). by repeat split.
Qed.

Lemma trimStart_plain n : plainName n -> trimStart n = n.
Proof.
  destruct n as [|c n]; [done|]. intros (_ & _ & _ & Hc & _). cbn. by rewrite Hc.
Qed.

Lemma trimEnd_plain n : plainName n -> trimEnd n = n.
Proof.
  induction n as [|c n IH]; [done|]. intros (_ & _ & _ & Hc & Hn). cbn [trimEnd].
  rewrite IH by done. destruct n; [by rewrite Hc|done].
Qed.

Lemma trim_plain n : plainName n -> trim n = n.
Proof. intros Hn. unfold trim. by rewrite trimStart_plain, trimEnd_plain. Qed.

Lemma trim_after_space n : plainName n -> trim (" " +:+ n) = n.
Proof. intros Hn. exact (trim_plain n Hn). Qed.

Lemma split_nonempty sep s : split sep s <> [].
Proof.
  induction s as [|c s IH]; cbn [split]; [done|].
  destruct (Ascii.eqb c sep); [done|]. by destruct (split sep s).
Qed.

Lemma lacks_append c a b : lacks c a -> lacks c b -> lacks c (a +:+ b).
Proof.
  induction a as [|ch a IH]; [done|]. intros [Hc Ha] Hb. rewrite append_cons.
  split; [done|by apply IH].
Qed.

Lemma split_after_space s :
  trim <$> split "," (String " " s) = trim <$> split "," s.
Proof.
  cbn [split Ascii.eqb Bool.eqb]. pose proof (split_nonempty "," s) as Hne.
  destruct (split "," s) as [|x xs]; [done|]. reflexivity.
Qed.

(** The parameters, printed with ", " between them, split at the
    commas. *)
Lemma split_join_names n names :
  plainName n -> Forall plainName names ->
  trim <$> split "," (join ", " (n :: names)) = n :: names
  /\ lacks ")" (join ", " (n :: names)).
Proof.
  intros Hn Hnames. revert n Hn.
  induction Hnames as [|m names Hm Hnames IH]; intros n Hn.
  - cbn [join]. destruct (plainName_lacks n Hn) as [Hc Hp].
    rewrite split_lacks by done. cbn. by rewrite trim_plain.
  - destruct (IH m Hm) as [IH1 IH2]. destruct (plainName_lacks n Hn) as [Hc Hp].
    change (join ", " (n :: m :: names))
      with (n +:+ String "," (String " " (join ", " (m :: names)))).
    rewrite split_first by done. split.
    + cbn [fmap list_fmap]. rewrite trim_plain by done. f_equal.
      etransitivity; [apply split_after_space | exact IH1].
    + apply lacks_append; [done|]. split; [done|]. split; [done|exact IH2].
Qed.

(** For a method printed as [name(a, b, c) {...}], with nothing in
    parentheses before the parameter list and names of ASCII characters
    other than comma, closing parenthesis and white space,
    [createActionFromArguments] reads the names [a], [b], [c]; for a
    method without parameters it reads one name, the empty one. *)
Theorem parameter_names_are_read_off_the_text pre names post :
  lacks "(" pre -> lacks ")" pre ->
  Forall plainName names ->
  argNamesOf (pre +:+ "(" +:+ join ", " names +:+ ")" +:+ post)
  = match names with
    | [] => [""]
    | _ => names
    end.
Proof.
  intros Hopen Hclose Hnames. destruct Hnames as [|n names Hn Hnames].
  - cbn [join]. by rewrite (argNamesOf_inner pre "" post).
  - destruct (split_join_names n names Hn Hnames) as [Hsplit Hlacks].
    by rewrite argNamesOf_inner.
Qed.

(** *** The properties of an action *)

Lemma getOwn_absent {V} (o : props V) k : k ∉ keys o -> getOwn o k = None.
Proof.
  induction o as [|[k' v] o IH]; [done|]. cbn [keys fmap list_fmap fst getOwn].
  intros [Hne Hnin]%not_elem_of_cons.
  destruct (String.eqb_spec k' k) as [->|_]; [done|]. by apply IH.
Qed.

Lemma recordArgs_keys names i args action :
  (forall k, k ∈ keys action -> exists j, j < i /\ k = argKey names j) ->
  keys (recordArgs names i args action)
  = keys action ++ (argKey names <$> seq i (length args)).
Proof.
  revert i action. induction args as [|a args IH]; intros i action Hk.
  { cbn. by rewrite app_nil_r. }
  cbn [recordArgs length seq fmap list_fmap].
  assert (argKey names i ∉ keys action) as Hnew.
  { intros (j & Hj & E)%Hk. apply argKey_inj in E. lia. }
  rewrite IH.
  - rewrite keys_setOwn_notin by done. by rewrite <- app_assoc.
  - intros k. rewrite keys_setOwn_notin by done.
    intros [Hin | ->%list_elem_of_singleton]%elem_of_app.
    + destruct (Hk k Hin) as (j & Hj & ->). exists j. split; [lia|done].
    + exists i. split; [lia|done].
Qed.

(** The action of an event has one property per supplied argument, in
    their order, and [type] last, and no other: an argument beyond the
    parameters of the method is recorded under "[i] undefined", a
    parameter without an argument not at all. *)
Theorem action_records_the_arguments actionTypeName fn args :
  let names := argNamesOf (fnSource fn) in
  let action := createActionFromArguments actionTypeName fn args in
  keys action = (argKey names <$> seq 0 (length args)) ++ ["type"]
  /\ (forall i, length names <= i ->
                argKey names i = "[" +:+ numToString i +:+ "] undefined")
  /\ (forall i a, args !! i = Some a -> getOwn action (argKey names i) = Some a)
  /\ (forall i, length args <= i -> getOwn action (argKey names i) = None).
Proof.
  intros names action. subst action. unfold createActionFromArguments. fold names.
  assert (keys (recordArgs names 0 args [])
          = argKey names <$> seq 0 (length args)) as Hkeys.
  { rewrite recordArgs_keys; [reflexivity|]. by intros k ?%elem_of_nil. }
  assert (forall i, "type" <> argKey names i) as Htype.
  { intros i E. by apply (argKey_not_type names i). }
  split; [|split; [|split]].
  - rewrite keys_setOwn_notin; [by rewrite Hkeys|]. rewrite Hkeys.
    intros (i & E & _)%list_elem_of_fmap. by apply (Htype i).
  - intros i Hi. unfold argKey. by rewrite lookup_ge_None_2.
  - apply createActionFromArguments_spec.
  - intros i Hi. rewrite getOwn_setOwn_ne by apply Htype.
    apply getOwn_absent. rewrite Hkeys.
    intros (j & E & Hj%elem_of_seq)%list_elem_of_fmap. apply argKey_inj in E. lia.
Qed.

(** *** The constructor *)

Lemma membersExceptState_clean ks :
  NoDup ks -> (forall m, m ∈ ks -> m = "state") -> membersExceptState ks = [].
Proof.
  intros Hnd Hall. unfold membersExceptState. destruct ks as [|k ks]; [done|].
  assert (k = "state") as -> by (apply Hall; constructor).
  cbn. destruct ks as [|k' ks]; [done|].
  assert (k' = "state") as -> by (apply Hall; do 2 constructor).
  apply NoDup_cons in Hnd as [Hnin _]. destruct Hnin. constructor.
Qed.

(** The constructor on a mutators instance that has no member of its own
    besides [state]. Under an id that no registered store has, it
    returns: the state is the initial one; the one event emitted is
    "@@INIT", with the id of the store; the call depth is zero and
    [this.mutate] has no property of its own, so that every method of the
    mutators is found on it and the first call of one is a root call; the
    id is registered. Under an id that is registered already, it throws
    the error of the registration, and the registry stays as it was. *)
Theorem constructor_opens_the_store state id dev registered :
  NoDup (keys (ownMembers mutatorsInstance)) ->
  (forall m, m ∈ keys (ownMembers mutatorsInstance) -> m = "state") ->
  let w0 := withGlobalStores (fun _ => registered) (emptyWorld id dev) in
  (id ∉ registered ->
   exists w,
     constructor state w0 = (Normal tt, w)
     /\ _state (store w) = VRef 0
     /\ heap w = [state]
     /\ mutatorEvents (store w)
        = [mkMutatorEvent (VPrim (PStr id)) [("type", PStr "@@INIT")] (VRef 0) None]
     /\ storeId (store w) = id
     /\ mutatorCallStackCount (store w) = 0
     /\ proxyObj w = []
     /\ globalStores w = registered ++ [id]
     /\ forall name fn,
          getOwn (methods mutatorsInstance) name = Some fn ->
          getProp RProxyObj name w = (Normal (VFun name), w))
  /\ (id ∈ registered ->
      exists w,
        constructor state w0 = (Throws (Error storeIdInUse), w)
        /\ globalStores w = registered).
Proof.
  intros Hnd Hall w0. subst w0.
  assert (forall w, failIfInstanceMembersExistExceptState
                      (keys (ownMembers mutatorsInstance)) w = (Normal tt, w)) as Hclean.
  { intros w. unfold failIfInstanceMembersExistExceptState.
    fold (membersExceptState (keys (ownMembers mutatorsInstance))).
    by rewrite membersExceptState_clean. }
  unfold constructor, addStoreToGlobalState, processMutator, setState.
  unfold bind, alloc, gets, modify. cbn beta iota. rewrite Hclean.
  cbn [store heap proxyObj globalStores withStore withHeap withProxyObj
       withGlobalStores emptyWorld storeId].
  split; intros Hid.
  - rewrite bool_decide_false by done.
    eexists. split; [reflexivity|].
    cbn [store heap proxyObj globalStores withStore withHeap withProxyObj
         withGlobalStores emptyWorld _state mutatorEvents storeId
         mutatorCallStackCount developmentMode app ev_state length].
    split; [by destruct dev|]. do 6 (split; [reflexivity|]).
    intros name fn Hfn. unfold getProp, gets, proxyObjGet, proxyProtoGet.
    cbn [proxyObj withProxyObj withGlobalStores getOwn]. by rewrite Hfn.
  - rewrite bool_decide_true by done. unfold throw.
    eexists. split; reflexivity.
Qed.

End WithMessages.


(** The mutators of [mutators.test.ts]. [p += s] with a string [s]
    prints [p] and appends [s]; an integer below 10^21 prints in
    decimal. *)
Definition primToString (p : prim) : string :=
  match p with
  | PUndefined => "undefined"
  | PNull => "null"
  | PBool true => "true"
  | PBool false => "false"
  | PNum n =>
      if (n <? 0)%Z then "-" +:+ numToString (Z.to_nat (- n))
      else numToString (Z.to_nat n)
  | PStr t => t
  end.

Definition appendTo (p : prim) (s : string) : prim :=
  PStr (primToString p +:+ s).

Definition isPositive (p : prim) : bool :=
  match p with
  | PNum n => bool_decide (0 < n)%Z
  | _ => false
  end.

Definition TestMutator : Mutators :=
  mkMutators []
    [ ("mod1", mkMutator "function () { this.state.n1 += '1'; this.mod2(); this.mod3(); }"
         (fun _ => GetState "n1" (fun v => SetState "n1" (appendTo v "1")
                     (Call "mod2" [] (Call "mod3" [] (Return PUndefined))))));
      ("mod2", mkMutator "function () { this.state.n1 += '2'; }"
         (fun _ => GetState "n1" (fun v => SetState "n1" (appendTo v "2")
                     (Return PUndefined))));
      ("mod3", mkMutator "function () { this.state.n1 += '3'; }"
         (fun _ => GetState "n1" (fun v => SetState "n1" (appendTo v "3")
                     (Return PUndefined))));
      ("mut1", mkMutator "function () { this.state.a = 1; if (this.state.a > 0) { throw new Error(''); } this.state.a = 2; }"
         (fun _ => SetState "a" (PNum 1) (GetState "a" (fun v =>
                     if isPositive v then Throw (Error "")
                     else SetState "a" (PNum 2) (Return PUndefined)))));
      ("mut", mkMutator "function () { this.abc = 1; }"
         (fun _ => SetMember "abc" (PNum 1) (Return PUndefined)));
      ("setBoth", mkMutator "function (a, b) { this.state.a = a; this.state.b = b; }"
         (fun args => SetState "a" (default PUndefined (args !! 0))
                        (SetState "b" (default PUndefined (args !! 1))
                           (Return PUndefined))));
      ("answer", mkMutator "function () { return 42; }"
         (fun _ => Return (PNum 42))) ].

(** [new TestStore("TestStore", new TestMutator(), state)] *)
Definition testWorld (dev : bool) (state : props prim) : World :=
  (constructor "members" "in use" TestMutator state (emptyWorld "TestStore" dev)).2.

Definition throwingWorld : World := testWorld true [("a", PNum 0)].

Lemma mutator_throw_is_atomic_witness :
  exists w',
    mutate "members" "returned" TestMutator 1 "mut1" [] throwingWorld
      = (Throws (Error ""), w')
    /\ _state (store w') = _state (store throwingWorld)
    /\ (forall l', l' < length (heap throwingWorld) ->
                   heap w' !! l' = heap throwingWorld !! l')
    /\ mutatorEvents (store w') = mutatorEvents (store throwingWorld)
    /\ mutatorCallStackCount (store w') = 0.
Proof.
  eapply (mutator_throw_is_atomic "members" "returned" TestMutator 0 "mut1" _ []
            throwingWorld 0 (Error "")); vm_compute; reflexivity.
Defined.


(** [class MyMutators extends Mutators<any> { abc = 1; }] *)
Definition MyMutators : Mutators := mkMutators [("abc", PNum 1)] [].

(** Mutators that set a member in a nested call, and before throwing. *)
Definition NestingMutators : Mutators :=
  mkMutators []
    [ ("outer", mkMutator "function () { this.inner(); }"
         (fun _ => Call "inner" [] (Return PUndefined)));
      ("inner", mkMutator "function () { this.abc = 1; }"
         (fun _ => SetMember "abc" (PNum 1) (Return PUndefined)));
      ("hide", mkMutator "function () { this.abc = 1; throw new Error(''); }"
         (fun _ => SetMember "abc" (PNum 1) (Throw (Error "")))) ].

Definition nestingWorld : World :=
  (constructor "members" "in use" NestingMutators [] (emptyWorld "nesting" true)).2.

Lemma illegal_member_is_reported_witness :
  (exists msg w',
      constructor "members" "in use" MyMutators [] (emptyWorld "myStore" true)
        = (Throws (Error msg), w') /\ occursIn "abc" msg)
  /\ (exists msg w',
         mutate "members" "returned" TestMutator 1 "mut" [] (testWorld true [])
           = (Throws (Error msg), w')
         /\ occursIn "abc" msg
         /\ store w' = store (testWorld true []))
  /\ (exists msg w',
         callMethod "members" "returned" NestingMutators 1 "inner" [] RTempThisObj
                    (rootEntry [] nestingWorld) = (Throws (Error msg), w')
         /\ occursIn "abc" msg)
  /\ (exists w',
         mutate "members" "returned" NestingMutators 2 "outer" [] nestingWorld
           = (Throws (Error "members: abc"), w')
         /\ store w' = store nestingWorld).
Proof.
  split; [|split; [|split]].
  - apply (illegal_member_is_reported "members" "returned" "in use" MyMutators "abc");
      [done|].
    vm_compute. constructor.
  - eapply (proj1 (proj2 (illegal_member_is_reported "members" "returned" "in use"
                            TestMutator "abc" ltac:(done)))
              0 "mut" _ [] (testWorld true []) 0); try (vm_compute; reflexivity).
    vm_compute. constructor.
  - eapply (proj1 (proj2 (proj2 (illegal_member_is_reported "members" "returned"
                                   "in use" NestingMutators "abc" ltac:(done))))
              0 "inner" _ [] (rootEntry [] nestingWorld) 0);
      try (vm_compute; reflexivity); vm_compute; constructor.
  - eapply (proj2 (proj2 (proj2 (proj2 (illegal_member_is_reported "members" "returned"
                                          "in use" NestingMutators "abc" ltac:(done)))))
              1 "outer" _ [] nestingWorld 0); vm_compute; reflexivity.
Defined.

(** A method that sets a member and then throws: the call throws the
    error of the method, and that error does not name the member. *)
Lemma member_hidden_by_thrown_error :
  exists w',
    mutate "members" "returned" NestingMutators 1 "hide" [] nestingWorld
      = (Throws (Error ""), w')
    /\ getOwn (tempThisObj w') "abc" = Some (VPrim (PNum 1))
    /\ ~ occursIn "abc" "".
Proof.
  eexists. split; [vm_compute; reflexivity|]. split; [reflexivity|].
  intros (pre & post & E). by destruct pre.
Qed.


Definition mergingWorld : World := testWorld true [("n1", PStr "")].

Lemma nested_calls_share_one_draft_witness :
  exists w' ev,
    mutate "members" "returned" TestMutator 2 "mod1" [] mergingWorld
      = (Normal PUndefined, w')
    /\ mutatorEvents (store w') = mutatorEvents (store mergingWorld) ++ [ev]
    /\ _state (store w') = ev_state ev
    /\ view (heap w') (ev_state ev) = Some (DObj [("n1", PStr "123")])
    /\ mutatorCallStackCount (store w') = 0
    /\ (forall k, k <> "state" -> getOwn (proxyObj w') k = None).
Proof.
  exact (nested_calls_share_one_draft "members" "returned" TestMutator 1 "mod1"
           (mkMutator "function () { this.state.n1 += '1'; this.mod2(); this.mod3(); }"
              (fun _ => GetState "n1" (fun v => SetState "n1" (appendTo v "1")
                          (Call "mod2" [] (Call "mod3" [] (Return PUndefined))))))
           [] mergingWorld 0 eq_refl (fun _ _ => eq_refl) ltac:(done) eq_refl eq_refl).
Defined.

(** Two outermost calls, one after the other, each with two nested calls:
    two events besides "@@INIT", and the second call starts from what the
    first committed. *)
Example each_outermost_call_commits_once :
  let once := (mutate "members" "returned" TestMutator 2 "mod1" [] mergingWorld).2 in
  let twice := (mutate "members" "returned" TestMutator 2 "mod1" [] once).2 in
  length (mutatorEvents (store mergingWorld)) = 1
  /\ length (mutatorEvents (store once)) = 2
  /\ length (mutatorEvents (store twice)) = 3
  /\ view (heap twice) (_state (store twice)) = Some (DObj [("n1", PStr "123123")])
  /\ mutatorCallStackCount (store twice) = 0.
Proof. vm_compute. by repeat split. Qed.


Lemma committed_event_lacks_store_id_witness :
  exists w' ev,
    mutate "members" "returned" TestMutator 1 "setBoth" [PNum 1; PNum 2]
           (testWorld true [("a", PNum 0)]) = (Normal PUndefined, w')
    /\ mutatorEvents (store w')
       = mutatorEvents (store (testWorld true [("a", PNum 0)])) ++ [ev]
    /\ getOwn (ev_action ev) "type" = Some (PStr "setBoth")
    /\ (forall i a, [PNum 1; PNum 2] !! i = Some a ->
          getOwn (ev_action ev)
            (argKey (argNamesOf "function (a, b) { this.state.a = a; this.state.b = b; }") i)
          = Some a)
    /\ ev_storeId ev = VPrim PUndefined
    /\ ev_storeId ev <> VPrim (PStr "TestStore").
Proof.
  exact (committed_event_lacks_store_id "members" "returned" TestMutator 0 "setBoth"
           (mkMutator "function (a, b) { this.state.a = a; this.state.b = b; }"
              (fun args => SetState "a" (default PUndefined (args !! 0))
                             (SetState "b" (default PUndefined (args !! 1))
                                (Return PUndefined))))
           [PNum 1; PNum 2] (testWorld true [("a", PNum 0)]) 0
           (DObj [("a", PNum 1); ("b", PNum 2)])
           eq_refl (fun _ _ => eq_refl) ltac:(done) eq_refl eq_refl eq_refl).
Defined.

Lemma parameter_names_are_read_off_the_text_witness :
  argNamesOf "function (a, b) { this.state.a = a; this.state.b = b; }" = ["a"; "b"].
Proof.
  refine (parameter_names_are_read_off_the_text "function " ["a"; "b"]
            " { this.state.a = a; this.state.b = b; }" _ _ _).
  - repeat (split; [discriminate|]). exact I.
  - repeat (split; [discriminate|]). exact I.
  - repeat constructor; (discriminate || (cbn; lia)).
Defined.

Lemma constructor_opens_the_store_witness :
  (exists w,
      constructor "members" "in use" TestMutator [("n1", PStr "")]
                  (emptyWorld "TestStore" true) = (Normal tt, w)
      /\ w = mergingWorld
      /\ globalStores w = ["TestStore"])
  /\ (exists w,
         constructor "members" "in use" TestMutator [("n1", PStr "")]
                     (withGlobalStores (fun _ => ["TestStore"])
                                       (emptyWorld "TestStore" true))
         = (Throws (Error "in use"), w)
         /\ globalStores w = ["TestStore"]).
Proof.
  split.
  - destruct (proj1 (constructor_opens_the_store "members" "in use" TestMutator
                       [("n1", PStr "")] "TestStore" true [] NoDup_nil_2
                       (fun m H => False_ind _ (proj1 (elem_of_nil m) H)))
                (proj1 (elem_of_nil "TestStore")))
      as (w & Hc & H).
    exists w. split; [exact Hc|]. split; [|apply H].
    unfold mergingWorld, testWorld.
    change (withGlobalStores (fun _ => []) (emptyWorld "TestStore" true))
      with (emptyWorld "TestStore" true) in Hc.
    by rewrite Hc.
  - exact (proj2 (constructor_opens_the_store "members" "in use" TestMutator
                    [("n1", PStr "")] "TestStore" true ["TestStore"] NoDup_nil_2
                    (fun m H => False_ind _ (proj1 (elem_of_nil m) H)))
             (list_elem_of_here "TestStore" [])).
Defined.

End StoreTs.

(** ** The older store: mutators wrapped in place, [select] *)

Module Dispatchers.

Import StoreTs.

(** An event of [eventsSubject]. Its [boundMutator], a closure that calls
    the dispatcher again with the same arguments, is not kept. *)
Record Event : Type := mkEvent {
  ev_action : props prim;
  ev_state : value;
}.

(** The accessor property [state] of the mutators object: not defined
    yet, a getter and setter over a one-cell container
    ([assignStateValue]), or a getter that throws
    ([assignStateErrorGetter]). *)
Inductive stateProperty : Type :=
| StateUnset
| StateValue (container : value)
| StateErrorGetter.

Record World : Type := mkWorld {
  _state : value;
  runningMutatorStack : list string;
  events : list Event;
  beforeHooks : list string;
  afterHooks : list string;
  heap : list (props prim);
  mutatorsState : stateProperty;
  mutatorsMembers : props prim;
  developmentMode : bool;
}.

Definition D (A : Type) : Type := World -> outcome A * World.

Definition ret {A} (a : A) : D A := fun w => (Normal a, w).
Definition throw {A} (e : exn) : D A := fun w => (Throws e, w).
Definition outOfFuel {A} : D A := fun w => (OutOfFuel, w).

Definition bind {A B} (m : D A) (f : A -> D B) : D B :=
  fun w =>
    match m w with
    | (Normal a, w') => f a w'
    | (Throws e, w') => (Throws e, w')
    | (OutOfFuel, w') => (OutOfFuel, w')
    end.

Definition gets {A} (f : World -> A) : D A := fun w => (Normal (f w), w).
Definition modify (f : World -> World) : D unit := fun w => (Normal tt, f w).

Definition tryFinally {A} (m : D A) (fin : World -> World) : D A :=
  fun w => let '(r, w') := m w in (r, fin w').

#[local] Notation "'let!' x ':=' m 'in' k" := (bind m (fun x => k))
  (at level 10, x pattern, m at level 100, k at level 200).
#[local] Notation "m ';;' k" := (bind m (fun _ => k))
  (at level 100, k at level 200, right associativity).

Definition withState (st : value) (w : World) : World :=
  mkWorld st (runningMutatorStack w) (events w) (beforeHooks w) (afterHooks w)
          (heap w) (mutatorsState w) (mutatorsMembers w) (developmentMode w).

Definition withStack (f : list string -> list string) (w : World) : World :=
  mkWorld (_state w) (f (runningMutatorStack w)) (events w) (beforeHooks w)
          (afterHooks w) (heap w) (mutatorsState w) (mutatorsMembers w)
          (developmentMode w).

Definition withEvents (f : list Event -> list Event) (w : World) : World :=
  mkWorld (_state w) (runningMutatorStack w) (f (events w)) (beforeHooks w)
          (afterHooks w) (heap w) (mutatorsState w) (mutatorsMembers w)
          (developmentMode w).

Definition withBeforeHooks (f : list string -> list string) (w : World) : World :=
  mkWorld (_state w) (runningMutatorStack w) (events w) (f (beforeHooks w))
          (afterHooks w) (heap w) (mutatorsState w) (mutatorsMembers w)
          (developmentMode w).

Definition withAfterHooks (f : list string -> list string) (w : World) : World :=
  mkWorld (_state w) (runningMutatorStack w) (events w) (beforeHooks w)
          (f (afterHooks w)) (heap w) (mutatorsState w) (mutatorsMembers w)
          (developmentMode w).

Definition withHeap (f : list (props prim) -> list (props prim)) (w : World) : World :=
  mkWorld (_state w) (runningMutatorStack w) (events w) (beforeHooks w)
          (afterHooks w) (f (heap w)) (mutatorsState w) (mutatorsMembers w)
          (developmentMode w).

Definition withMutatorsState (sp : stateProperty) (w : World) : World :=
  mkWorld (_state w) (runningMutatorStack w) (events w) (beforeHooks w)
          (afterHooks w) (heap w) sp (mutatorsMembers w) (developmentMode w).

Definition withMutatorsMembers (f : props prim -> props prim) (w : World) : World :=
  mkWorld (_state w) (runningMutatorStack w) (events w) (beforeHooks w)
          (afterHooks w) (heap w) (mutatorsState w) (f (mutatorsMembers w))
          (developmentMode w).

Section WithMessages.

(** The message constants of [./error-messages]. *)
Variable illegalAccessToThisState : string.
Variable mutatorWrongReturnType : string.

Variable mutators : Mutators.

Definition assignStateErrorGetter : D unit :=
  modify (withMutatorsState StateErrorGetter).

Definition assignStateValue (state : value) : D unit :=
  modify (withMutatorsState (StateValue state)).

Definition alloc (o : props prim) : D loc :=
  fun w => (Normal (length (heap w)), withHeap (fun h => h ++ [o]) w).

(** [createProxy]: [_.assignIn] copies the members of the target into a
    fresh object, [Object.setPrototypeOf] rejects a target that is neither
    an object nor [null]. The copy is shallow; here the members hold
    primitive values, so that the draft and its target share nothing. *)
Definition createProxy (target : value) : D value :=
  match target with
  | VRef l => let! o := gets (fun w => objectAt (heap w) l) in
              let! l' := alloc o in ret (VRef l')
  | VPrim PNull => let! l' := alloc [] in ret (VRef l')
  | VFun _ => let! l' := alloc [] in ret (VRef l')
  | VPrim _ => throw TypeError
  end.

(** [checkMutatorReturnType] on what a method body of this model can
    return: a primitive has no [then], and reading [then] off [null]
    throws. *)
Definition checkMutatorReturnType (obj : prim) : D prim :=
  match obj with
  | PUndefined => ret PUndefined
  | PNull => throw TypeError
  | _ => throw (Error mutatorWrongReturnType)
  end.

(** [createActionFromArguments] of this store runs over the parameter
    names, not over the supplied arguments. *)
Fixpoint recordParams (argNames : list string) (i : nat) (args : list prim)
  (action : props prim) : props prim :=
  match argNames with
  | [] => action
  | n :: rest =>
      recordParams rest (S i) args
        (setOwn action ("[" +:+ numToString i +:+ "] " +:+ n)
                (default PUndefined (args !! i)))
  end.

Definition createActionFromArguments (fnName : string) (fn : Mutator)
  (args : list prim) : props prim :=
  let argNames := argNamesOf (fnSource fn) in
  setOwn (recordParams argNames 0 args []) "type" (PStr fnName).

(** [this.state], through the accessor. *)
Definition getState : D value :=
  fun w =>
    match mutatorsState w with
    | StateUnset => (Normal (VPrim PUndefined), w)
    | StateValue v => (Normal v, w)
    | StateErrorGetter => (Throws (Error illegalAccessToThisState), w)
    end.

(** [this.state = v]: the setter of the container; an accessor without a
    setter rejects the assignment in strict mode. *)
Definition putState (v : value) : D unit :=
  fun w =>
    match mutatorsState w with
    | StateErrorGetter => (Throws TypeError, w)
    | _ => (Normal tt, withMutatorsState (StateValue v) w)
    end.

Definition readStateField (f : string) : D prim :=
  let! st := getState in
  match st with
  | VRef l => gets (fun w => default PUndefined (getOwn (objectAt (heap w) l) f))
  | VPrim PUndefined | VPrim PNull => throw TypeError
  | _ => ret PUndefined
  end.

Definition writeStateField (f : string) (p : prim) : D unit :=
  let! st := getState in
  match st with
  | VRef l => modify (withHeap (fun h => <[l := setOwn (objectAt h l) f p]> h))
  | VPrim _ => throw TypeError
  | VFun _ => ret tt
  end.

(** A method body run with the mutators object itself as [this]. *)
Fixpoint runBody (call : string -> list prim -> D unit) (b : body) : D prim :=
  match b with
  | Return p => ret p
  | Throw e => throw e
  | GetState f k => let! p := readStateField f in runBody call (k p)
  | SetState f p k => writeStateField f p;; runBody call k
  | AssignState o k => let! l := alloc o in putState (VRef l);; runBody call k
  | SetMember m p k =>
      (if String.eqb m "state" then putState (VPrim p)
       else modify (withMutatorsMembers (fun ms => setOwn ms m p)));;
      runBody call k
  | Call m args k => call m args;; runBody call k
  | TryCall m args kOk kErr =>
      fun w =>
        match call m args w with
        | (Normal _, w') => runBody call kOk w'
        | (Throws e, w') => runBody call (kErr e) w'
        | (OutOfFuel, w') => (OutOfFuel, w')
        end
  end.

Definition setState (state : value) : D unit :=
  fun w => (Normal tt,
            withState (if developmentMode w then deepFreeze state else state) w).

Definition processMutator (action : props prim) (state : value) : D unit :=
  setState state;;
  modify (fun w => withEvents (fun evs => evs ++ [mkEvent action (_state w)]) w).

(** [_.assignIn(newState, source)]. *)
Definition assignIn (newState : props prim) (source : props prim) : props prim :=
  foldl (fun o kv => setOwn o kv.1 kv.2) newState source.

(** The object committed by a root call: a deep clone of the current
    state in development mode, an empty object otherwise, with the
    members of the draft assigned over it. *)
Definition newStateOf (w : World) (stateProxy : value) : props prim :=
  let base :=
    if developmentMode w
    then match _state w with VRef l => objectAt (heap w) l | _ => [] end
    else [] in
  match stateProxy with
  | VRef l => assignIn base (objectAt (heap w) l)
  | _ => base
  end.

(** The [try] block of a dispatcher. The promise a dispatcher returns
    only triggers the after-hook, recorded in [afterHooks] when it is
    scheduled. *)
Definition dispatcherTry (call : string -> list prim -> D unit) (mutName : string)
  (fn : Mutator) (args : list prim) : D unit :=
  let! result := runBody call (fnBody fn args) in
  let! dev := gets developmentMode in
  (if dev : bool then checkMutatorReturnType result else ret result);;
  modify (withAfterHooks (fun hs => hs ++ [mutName])).

Definition popStack (w : World) : World :=
  withStack (fun s => take (length s - 1) s) w.

(** The commit of a root dispatcher. [storeMethodName] is the property of
    that name on the receiver, set when a wrapped store method made the
    call. *)
Definition commitRoot (mutName : string) (fn : Mutator) (args : list prim)
  (storeMethodName : option string) : D unit :=
  let! stateProxy := getState in
  let! newState := gets (fun w => newStateOf w stateProxy) in
  let! l := alloc newState in
  let typeName :=
    match storeMethodName with
    | Some m => mutName +:+ " (" +:+ m +:+ ")"
    | None => mutName
    end in
  processMutator (createActionFromArguments typeName fn args) (VRef l);;
  let! dev := gets developmentMode in
  if dev : bool then assignStateErrorGetter else ret tt.

(** The function that [createDispatchers] stores under [mutName]. *)
Definition dispatcher (call : string -> list prim -> D unit)
  (mutName : string) (fn : Mutator) (args : list prim)
  (storeMethodName : option string) : D unit :=
  modify (withBeforeHooks (fun hs => hs ++ [mutName]));;
  let! rootMutator := gets (fun w => bool_decide (runningMutatorStack w = [])) in
  (if rootMutator : bool
   then let! st := gets _state in
        let! stateProxy := createProxy st in
        assignStateValue stateProxy
   else ret tt);;
  modify (withStack (fun s => s ++ [mutName]));;
  tryFinally (dispatcherTry call mutName fn args) popStack;;
  (if rootMutator : bool
   then commitRoot mutName fn args storeMethodName
   else ret tt).

(** [this[name](...args)] on the mutators object: an own member of that
    name hides the dispatcher. *)
Fixpoint callDispatcher (fuel : nat) (name : string) (args : list prim) : D unit :=
  match fuel with
  | 0 => outOfFuel
  | S fuel' =>
      let! hidden := gets (fun w => getOwn (mutatorsMembers w) name) in
      match hidden, getOwn (methods mutators) name with
      | None, Some fn => dispatcher (callDispatcher fuel') name fn args None
      | _, _ => throw TypeError
      end
  end.

(** [store.dispatch.name(...args)] *)
Definition dispatch (fuel : nat) (name : string) (args : list prim)
  (storeMethodName : option string) : D unit :=
  match fuel with
  | 0 => outOfFuel
  | S fuel' =>
      let! hidden := gets (fun w => getOwn (mutatorsMembers w) name) in
      match hidden, getOwn (methods mutators) name with
      | None, Some fn =>
          dispatcher (callDispatcher fuel') name fn args storeMethodName
      | _, _ => throw TypeError
      end
  end.


(** The constructor: the initial state is committed under "@@INIT". The
    dispatchers and hooks it builds are the functions above. *)
Definition emptyWorld (dev : bool) : World :=
  mkWorld (VPrim PUndefined) [] [] [] [] [] StateUnset [] dev.

Definition constructor (state : props prim) : D unit :=
  let! l := alloc state in
  processMutator [("type", PStr "@@INIT")] (VRef l).

(** *** What a call writes to

    The draft a receiver can reach, if it is an object, was allocated at
    or after [base]; a call leaves the objects below [base] as they are
    and removes none. *)
Definition draftFrom (base : nat) (w : World) : Prop :=
  base <= length (heap w)
  /\ forall l, mutatorsState w = StateValue (VRef l) -> base <= l.

Definition spares (base : nat) (w w' : World) : Prop :=
  draftFrom base w ->
  draftFrom base w'
  /\ length (heap w) <= length (heap w')
  /\ forall l, l < base -> heap w' !! l = heap w !! l.

Definition sparing {A} (base : nat) (m : D A) : Prop :=
  forall w, spares base w (m w).2.

(** A method body that reads and writes fields of [this.state] and calls
    other methods, but never assigns to [this.state] itself. *)
Fixpoint fieldOnly (b : body) : Prop :=
  match b with
  | Return _ | Throw _ => True
  | GetState _ k => forall p, fieldOnly (k p)
  | SetState _ _ k => fieldOnly k
  | AssignState _ _ => False
  | SetMember m _ k => m <> "state" /\ fieldOnly k
  | Call _ _ k => fieldOnly k
  | TryCall _ _ kOk kErr => fieldOnly kOk /\ forall e, fieldOnly (kErr e)
  end.

(** A call tree at work on the draft [d] of the state [old]: the draft
    has the properties of [old] first, each once. *)
Definition drafting (d : loc) (old : props prim) (w : World) : Prop :=
  runningMutatorStack w <> []
  /\ mutatorsState w = StateValue (VRef d)
  /\ exists cur, heap w !! d = Some cur /\ NoDup (keys cur)
                 /\ keys old `prefix_of` keys cur.

Definition drafts (d : loc) (old : props prim) (w w' : World) : Prop :=
  drafting d old w ->
  drafting d old w' /\ runningMutatorStack w' = runningMutatorStack w.

Definition draftingM {A} (d : loc) (old : props prim) (m : D A) : Prop :=
  forall w, drafts d old w (m w).2.

(** *** What a nested dispatcher call leaves alone *)

Definition inDispatch (w : World) : Prop :=
  runningMutatorStack w <> [] /\ exists v, mutatorsState w = StateValue v.

Definition keeps (w w' : World) : Prop :=
  inDispatch w ->
  inDispatch w'
  /\ runningMutatorStack w' = runningMutatorStack w
  /\ events w' = events w
  /\ _state w' = _state w
  /\ developmentMode w' = developmentMode w.

Definition kept {A} (m : D A) : Prop := forall w, keeps w (m w).2.

Lemma keeps_refl w : keeps w w.
Proof. by intros ?. Qed.

Lemma keeps_trans w1 w2 w3 : keeps w1 w2 -> keeps w2 w3 -> keeps w1 w3.
Proof.
  intros H12 H23 Hin. destruct (H12 Hin) as (Hin2 & ? & ? & ? & ?).
  destruct (H23 Hin2) as (Hin3 & ? & ? & ? & ?).
  split; [done|]. split; [congruence|]. split; [congruence|]. split; congruence.
Qed.

Lemma kept_ret {A} (a : A) : kept (ret a).
Proof. intros w. apply keeps_refl. Qed.

Lemma kept_throw {A} e : kept (throw (A:=A) e).
Proof. intros w. apply keeps_refl. Qed.

Lemma kept_gets {A} (f : World -> A) : kept (gets f).
Proof. intros w. apply keeps_refl. Qed.

Lemma kept_bind {A B} (m : D A) (f : A -> D B) :
  kept m -> (forall a, kept (f a)) -> kept (bind m f).
Proof.
  intros Hm Hf w. unfold bind. specialize (Hm w).
  destruct (m w) as [[a|e|] w1]; simpl in *; [|done..].
  eapply keeps_trans; [exact Hm | apply Hf].
Qed.

Lemma kept_modify f :
  (forall w, runningMutatorStack (f w) = runningMutatorStack w
             /\ events (f w) = events w /\ _state (f w) = _state w
             /\ developmentMode (f w) = developmentMode w
             /\ ((exists v, mutatorsState w = StateValue v) ->
                 exists v, mutatorsState (f w) = StateValue v)) ->
  kept (modify f).
Proof.
  intros H w [Hs Hv]. destruct (H w) as (H1 & H2 & H3 & H4 & H5). simpl.
  split; [|done]. split; [by rewrite H1 | by apply H5].
Qed.

Lemma kept_alloc o : kept (alloc o).
Proof. by intros w Hin. Qed.

Lemma kept_getState : kept getState.
Proof. intros w. unfold getState. destruct (mutatorsState w); apply keeps_refl. Qed.

Lemma kept_putState v : kept (putState v).
Proof.
  intros w [Hs [v' Hv]]. unfold putState. rewrite Hv. simpl.
  split; [|done]. split; [done | by eexists].
Qed.

Lemma kept_readStateField f : kept (readStateField f).
Proof.
  unfold readStateField. apply kept_bind; [apply kept_getState|].
  intros [[]| |]; (apply kept_gets || apply kept_throw || apply kept_ret).
Qed.

Lemma kept_writeStateField f p : kept (writeStateField f p).
Proof.
  unfold writeStateField. apply kept_bind; [apply kept_getState|].
  intros [q|l|g]; try (apply kept_throw || apply kept_ret).
  by apply kept_modify.
Qed.

Lemma kept_runBody call :
  (forall m args, kept (call m args)) -> forall b, kept (runBody call b).
Proof.
  intros Hcall b.
  induction b as [p|e|f k IH|f p k IH|o k IH|m p k IH|m args k IH
                 |m args kOk IHok kErr IHerr]; simpl.
  - apply kept_ret.
  - apply kept_throw.
  - apply kept_bind; [apply kept_readStateField | intros; apply IH].
  - apply kept_bind; [apply kept_writeStateField | intros; apply IH].
  - apply kept_bind; [apply kept_alloc|]. intros l.
    apply kept_bind; [apply kept_putState | intros; apply IH].
  - apply kept_bind; [|intros; apply IH].
    destruct (String.eqb m "state"); [apply kept_putState | by apply kept_modify].
  - apply kept_bind; [apply Hcall | intros; apply IH].
  - intros w. specialize (Hcall m args w).
    destruct (call m args w) as [[a|e|] w1]; simpl in *; [| |done].
    + eapply keeps_trans; [exact Hcall | apply IHok].
    + eapply keeps_trans; [exact Hcall | apply IHerr].
Qed.

Lemma kept_checkMutatorReturnType p : kept (checkMutatorReturnType p).
Proof. destruct p; (apply kept_ret || apply kept_throw). Qed.

Lemma kept_dispatcherTry call mutName fn args :
  (forall m args, kept (call m args)) -> kept (dispatcherTry call mutName fn args).
Proof.
  intros Hcall. unfold dispatcherTry.
  apply kept_bind; [by apply kept_runBody|]. intros result.
  apply kept_bind; [apply kept_gets|]. intros dev.
  apply kept_bind; [|intros; by apply kept_modify].
  destruct dev; [apply kept_checkMutatorReturnType | apply kept_ret].
Qed.

Lemma take_pred_snoc {A} (s : list A) x : take (length (s ++ [x]) - 1) (s ++ [x]) = s.
Proof.
  rewrite length_app. simpl. replace (length s + 1 - 1) with (length s) by lia.
  by rewrite take_app_length.
Qed.

(** A dispatcher called while another one runs: no draft, no commit. *)
Lemma dispatcher_nested_unfold call mutName fn args smn w :
  runningMutatorStack w <> [] ->
  dispatcher call mutName fn args smn w =
  tryFinally (dispatcherTry call mutName fn args) popStack
    (withStack (fun s => s ++ [mutName])
       (withBeforeHooks (fun hs => hs ++ [mutName]) w)).
Proof.
  intros Hs. unfold dispatcher.
  unfold bind at 1, modify at 1. unfold bind at 1, gets at 1.
  cbn [runningMutatorStack withBeforeHooks].
  rewrite bool_decide_false by done.
  unfold bind at 1, ret at 1. unfold bind at 1, modify at 1.
  unfold bind at 1, tryFinally.
  by destruct (dispatcherTry call mutName fn args _) as [[[]|e|] w2].
Qed.

Lemma kept_dispatcher call mutName fn args smn :
  (forall m args, kept (call m args)) -> kept (dispatcher call mutName fn args smn).
Proof.
  intros Hcall w Hin. pose proof Hin as [Hs [v Hv]].
  rewrite dispatcher_nested_unfold by done. unfold tryFinally.
  set (w1 := withStack _ (withBeforeHooks _ w)).
  assert (inDispatch w1) as Hin1.
  { split; [|by exists v]. subst w1. simpl. by destruct (runningMutatorStack w). }
  pose proof (kept_dispatcherTry call mutName fn args Hcall w1 Hin1) as Hk.
  destruct (dispatcherTry call mutName fn args w1) as [r w2]. simpl in Hk.
  destruct Hk as ([Hs2 [v2 Hv2]] & Hst & Hev & Hstate & Hdev).
  assert (runningMutatorStack (popStack w2) = runningMutatorStack w) as Hpop.
  { cbn [popStack runningMutatorStack withStack]. rewrite Hst. subst w1.
    cbn [runningMutatorStack withStack withBeforeHooks]. apply take_pred_snoc. }
  cbn [snd]. split.
  { split; [by rewrite Hpop | by exists v2]. }
  split; [done|]. by subst w1.
Qed.

Lemma kept_callDispatcher fuel : forall name args, kept (callDispatcher fuel name args).
Proof.
  induction fuel as [|fuel IH]; intros name args; simpl.
  { intros w. apply keeps_refl. }
  apply kept_bind; [apply kept_gets|]. intros [p|]; [apply kept_throw|].
  destruct (getOwn (methods mutators) name); [|apply kept_throw].
  by apply kept_dispatcher.
Qed.

(** *** A root dispatcher *)

(** The world in which the method body of a root dispatcher starts. *)
Definition rootEntry (mutName : string) (o : props prim) (w : World) : World :=
  withStack (fun s => s ++ [mutName])
    (withMutatorsState (StateValue (VRef (length (heap w))))
       (withHeap (fun h => h ++ [o])
          (withBeforeHooks (fun hs => hs ++ [mutName]) w))).

Lemma dispatch_root_unfold fuel name fn args smn w l :
  runningMutatorStack w = [] ->
  getOwn (mutatorsMembers w) name = None ->
  getOwn (methods mutators) name = Some fn ->
  _state w = VRef l ->
  dispatch (S fuel) name args smn w =
  (tryFinally (dispatcherTry (callDispatcher fuel) name fn args) popStack;;
   commitRoot name fn args smn)
    (rootEntry name (objectAt (heap w) l) w).
Proof.
  intros Hs Hown Hm Hst. unfold dispatch.
  unfold bind at 1, gets at 1. rewrite Hown, Hm. unfold dispatcher.
  unfold bind at 1, modify at 1. unfold bind at 1, gets at 1.
  cbn [runningMutatorStack withBeforeHooks]. rewrite Hs.
  rewrite bool_decide_true by done.
  unfold bind at 1. unfold bind at 1, gets at 1.
  cbn [_state withBeforeHooks]. rewrite Hst.
  unfold createProxy. unfold bind at 1. unfold bind at 1, gets at 1.
  unfold bind at 1, alloc at 1. unfold ret at 1. unfold assignStateValue, modify at 1.
  unfold bind at 1, modify at 1.
  reflexivity.
Qed.

Lemma rootEntry_inDispatch name o w : inDispatch (rootEntry name o w).
Proof.
  split; [|by eexists]. simpl. by destruct (runningMutatorStack w).
Qed.

(** With the flag off nothing looks at what the method returned: the
    root dispatcher commits. *)
Lemma unchecked_return_commits fuel name fn args smn w l p w2 :
  runningMutatorStack w = [] ->
  getOwn (mutatorsMembers w) name = None ->
  getOwn (methods mutators) name = Some fn ->
  _state w = VRef l ->
  runBody (callDispatcher fuel) (fnBody fn args)
          (rootEntry name (objectAt (heap w) l) w) = (Normal p, w2) ->
  (developmentMode w = false \/ p = PUndefined) ->
  exists w' ev,
    dispatch (S fuel) name args smn w = (Normal tt, w')
    /\ events w' = events w ++ [ev]
    /\ _state w' = ev_state ev.
Proof.
  intros Hs Hown Hm Hst Hbody Hok.
  rewrite (dispatch_root_unfold fuel name fn args smn w l) by done.
  pose proof (kept_runBody (callDispatcher fuel) (kept_callDispatcher fuel)
                (fnBody fn args) _ (rootEntry_inDispatch name (objectAt (heap w) l) w))
    as Hk.
  rewrite Hbody in Hk. cbn [snd] in Hk.
  destruct Hk as ([Hs2 [v2 Hv2]] & Hstack & Hev & Hstate & Hdev).
  cbn [rootEntry developmentMode events _state withStack withMutatorsState withHeap
         withBeforeHooks] in Hev, Hstate, Hdev.
  unfold bind at 1, tryFinally, dispatcherTry. unfold bind at 1. rewrite Hbody.
  unfold bind at 1, gets at 1. rewrite Hdev.
  assert ((if developmentMode w then checkMutatorReturnType p else ret p) w2
          = (Normal p, w2)) as Hcheck.
  { destruct Hok as [-> | ->]; [done|]. by destruct (developmentMode w). }
  unfold bind at 1. rewrite Hcheck. unfold modify at 1.
  unfold commitRoot. unfold bind at 1, getState.
  cbn [popStack mutatorsState withStack withAfterHooks]. rewrite Hv2.
  unfold bind at 1, gets at 1. unfold bind at 1, alloc at 1.
  unfold bind at 1, processMutator, bind at 1, setState, modify at 1.
  unfold bind at 1, gets at 1.
  cbn [popStack developmentMode withEvents withState withHeap withStack
         withAfterHooks].
  rewrite Hdev.
  destruct (developmentMode w); unfold assignStateErrorGetter, modify, ret;
    eexists; eexists; (split; [reflexivity|]);
    cbn [popStack events _state withEvents withState withHeap withStack
           withAfterHooks withMutatorsState ev_state]; by rewrite Hev.
Qed.

(** With the flag on the return value is checked. *)
Lemma checked_return_throws fuel name fn args smn w l p w2 :
  runningMutatorStack w = [] ->
  getOwn (mutatorsMembers w) name = None ->
  getOwn (methods mutators) name = Some fn ->
  _state w = VRef l ->
  runBody (callDispatcher fuel) (fnBody fn args)
          (rootEntry name (objectAt (heap w) l) w) = (Normal p, w2) ->
  developmentMode w = true ->
  p <> PUndefined ->
  exists w',
    dispatch (S fuel) name args smn w
      = (Throws (if decide (p = PNull) then TypeError else Error mutatorWrongReturnType), w')
    /\ events w' = events w
    /\ _state w' = _state w.
Proof.
  intros Hs Hown Hm Hst Hbody Hon Hp.
  rewrite (dispatch_root_unfold fuel name fn args smn w l) by done.
  pose proof (kept_runBody (callDispatcher fuel) (kept_callDispatcher fuel)
                (fnBody fn args) _ (rootEntry_inDispatch name (objectAt (heap w) l) w))
    as Hk.
  rewrite Hbody in Hk. cbn [snd] in Hk.
  destruct Hk as (_ & Hstack & Hev & Hstate & Hdev).
  cbn [rootEntry developmentMode events _state withStack withMutatorsState withHeap
         withBeforeHooks] in Hev, Hstate, Hdev.
  unfold bind at 1, tryFinally, dispatcherTry. unfold bind at 1. rewrite Hbody.
  unfold bind at 1, gets at 1. rewrite Hdev, Hon.
  unfold bind at 1.
  destruct p; try done; cbn [checkMutatorReturnType throw]; eexists;
    (split; [reflexivity|]); done.
Qed.

(** *** Objects a dispatcher leaves alone *)

Lemma spares_refl base w : spares base w w.
Proof. by intros ?. Qed.

Lemma spares_trans base w1 w2 w3 :
  spares base w1 w2 -> spares base w2 w3 -> spares base w1 w3.
Proof.
  intros H12 H23 H1. destruct (H12 H1) as (H2 & Hl2 & Hk2).
  destruct (H23 H2) as (H3 & Hl3 & Hk3).
  split; [done|]. split; [lia|]. intros l Hl. by rewrite Hk3, Hk2.
Qed.

Lemma sparing_ret {A} base (a : A) : sparing base (ret a).
Proof. intros w. apply spares_refl. Qed.

Lemma sparing_throw {A} base e : sparing base (throw (A:=A) e).
Proof. intros w. apply spares_refl. Qed.

Lemma sparing_gets {A} base (f : World -> A) : sparing base (gets f).
Proof. intros w. apply spares_refl. Qed.

Lemma sparing_bind {A B} base (m : D A) (f : A -> D B) :
  sparing base m -> (forall a, sparing base (f a)) -> sparing base (bind m f).
Proof.
  intros Hm Hf w. unfold bind. specialize (Hm w).
  destruct (m w) as [[a|e|] w1]; simpl in *; [|done..].
  eapply spares_trans; [exact Hm | apply Hf].
Qed.

(** A step that touches neither the heap nor [this.state]. *)
Lemma spares_aside base w w' :
  heap w' = heap w -> mutatorsState w' = mutatorsState w -> spares base w w'.
Proof. intros Hh Hm [Hlen Hd]. unfold draftFrom. by rewrite Hh, Hm. Qed.

Lemma sparing_modify base f :
  (forall w, heap (f w) = heap w /\ mutatorsState (f w) = mutatorsState w) ->
  sparing base (modify f).
Proof. intros H w. by apply spares_aside; apply H. Qed.

Lemma sparing_getState base : sparing base getState.
Proof. intros w. unfold getState. destruct (mutatorsState w); apply spares_refl. Qed.

Lemma spares_assign base w sp :
  (forall l, sp = StateValue (VRef l) -> base <= l) ->
  spares base w (withMutatorsState sp w).
Proof. intros Hsp [Hlen Hd]. by repeat split. Qed.

Lemma sparing_putState base v :
  (forall l, v = VRef l -> base <= l) -> sparing base (putState v).
Proof.
  intros Hv w. unfold putState. destruct (mutatorsState w) eqn:E;
    try apply spares_refl; apply spares_assign; intros l [= ->]; by apply Hv.
Qed.

Lemma spares_alloc base o w : spares base w (withHeap (fun h => h ++ [o]) w).
Proof.
  intros [Hlen Hd]. unfold draftFrom. cbn [heap withHeap mutatorsState].
  rewrite length_app. split; [split; [lia|done]|]. split; [lia|].
  intros l Hl. apply lookup_app_l. lia.
Qed.

Lemma sparing_readStateField base f : sparing base (readStateField f).
Proof.
  unfold readStateField. apply sparing_bind; [apply sparing_getState|].
  intros [[]| |]; (apply sparing_gets || apply sparing_throw || apply sparing_ret).
Qed.

Lemma sparing_writeStateField base f p : sparing base (writeStateField f p).
Proof.
  intros w. unfold writeStateField, bind, getState.
  destruct (mutatorsState w) as [|[q|l|g]|] eqn:E; try apply spares_refl.
  intros [Hlen Hd]. pose proof (Hd l E) as Hl. cbn [snd modify heap withHeap].
  split; [split; cbn [heap withHeap mutatorsState]; [by rewrite length_insert|done]|].
  cbn [heap withHeap]. rewrite length_insert. split; [done|].
  intros l' Hl'. apply list_lookup_insert_ne. lia.
Qed.

(** [this.state = {...}]: the new object is the draft from then on. *)
Lemma sparing_assignState base o (k : D prim) :
  sparing base k ->
  sparing base (let! l := alloc o in putState (VRef l);; k).
Proof.
  intros Hk w Hw. unfold bind at 1, alloc. cbv beta iota.
  pose proof (spares_alloc base o w Hw) as (H1 & Hl1 & Hk1).
  assert (spares base (withHeap (fun h => h ++ [o]) w)
            ((putState (VRef (length (heap w)));; k)
               (withHeap (fun h => h ++ [o]) w)).2) as H2.
  { apply sparing_bind; [|intros; exact Hk]. apply sparing_putState.
    intros l [= <-]. exact (proj1 Hw). }
  destruct (H2 H1) as (H3 & Hl3 & Hk3).
  split; [exact H3|]. split; [exact (Nat.le_trans _ _ _ Hl1 Hl3)|].
  intros l Hl. exact (eq_trans (Hk3 l Hl) (Hk1 l Hl)).
Qed.

Lemma sparing_runBody base call :
  (forall m args, sparing base (call m args)) -> forall b, sparing base (runBody call b).
Proof.
  intros Hcall b.
  induction b as [p|e|f k IH|f p k IH|o k IH|m p k IH|m args k IH
                 |m args kOk IHok kErr IHerr]; simpl.
  - apply sparing_ret.
  - apply sparing_throw.
  - apply sparing_bind; [apply sparing_readStateField | intros; apply IH].
  - apply sparing_bind; [apply sparing_writeStateField | intros; apply IH].
  - apply sparing_assignState, IH.
  - apply sparing_bind; [|intros; apply IH].
    destruct (String.eqb m "state"); [by apply sparing_putState | by apply sparing_modify].
  - apply sparing_bind; [apply Hcall | intros; apply IH].
  - intros w. specialize (Hcall m args w).
    destruct (call m args w) as [[a|e|] w1]; simpl in *; [| |done].
    + eapply spares_trans; [exact Hcall | apply IHok].
    + eapply spares_trans; [exact Hcall | apply IHerr].
Qed.

Lemma sparing_dispatcherTry base call mutName fn args :
  (forall m args, sparing base (call m args)) ->
  sparing base (dispatcherTry call mutName fn args).
Proof.
  intros Hcall. unfold dispatcherTry.
  apply sparing_bind; [by apply sparing_runBody|]. intros result.
  apply sparing_bind; [apply sparing_gets|]. intros dev.
  apply sparing_bind; [|intros; by apply sparing_modify].
  destruct dev; [|apply sparing_ret].
  destruct result; (apply sparing_ret || apply sparing_throw).
Qed.

Lemma sparing_tryFinally {A} base (m : D A) fin :
  sparing base m -> (forall w, spares base w (fin w)) -> sparing base (tryFinally m fin).
Proof.
  intros Hm Hfin w. unfold tryFinally. specialize (Hm w).
  destruct (m w) as [r w1]. cbn [snd] in *.
  eapply spares_trans; [exact Hm | apply Hfin].
Qed.

(** The draft a root dispatcher opens. *)
Lemma sparing_openDraft base :
  sparing base (let! st := gets _state in
                let! stateProxy := createProxy st in assignStateValue stateProxy).
Proof.
  intros w.
  assert (forall o, spares base w
            (withMutatorsState (StateValue (VRef (length (heap w))))
               (withHeap (fun h => h ++ [o]) w))) as Hopen.
  { intros o Hw. destruct (spares_alloc base o w Hw) as (H1 & Hl1 & Hk1).
    split; [|by split]. split; [exact (proj1 H1)|].
    intros l [= <-]. exact (proj1 Hw). }
  unfold createProxy, assignStateValue, bind, gets, alloc, ret, throw, modify.
  destruct (_state w) as [[]|l|f]; cbn [snd]; (apply spares_refl || apply Hopen).
Qed.

Lemma sparing_commitRoot base mutName fn args smn :
  sparing base (commitRoot mutName fn args smn).
Proof.
  unfold commitRoot. apply sparing_bind; [apply sparing_getState|]. intros stateProxy.
  apply sparing_bind; [apply sparing_gets|]. intros newState.
  apply sparing_bind; [intros w; apply spares_alloc|]. intros l.
  apply sparing_bind.
  { unfold processMutator. apply sparing_bind; [|intros; by apply sparing_modify].
    intros w. by apply spares_aside. }
  intros _. apply sparing_bind; [apply sparing_gets|]. intros dev.
  destruct dev; [|apply sparing_ret]. intros w. by apply spares_assign.
Qed.

Lemma sparing_dispatcher base call mutName fn args smn :
  (forall m args, sparing base (call m args)) ->
  sparing base (dispatcher call mutName fn args smn).
Proof.
  intros Hcall. unfold dispatcher.
  apply sparing_bind; [by apply sparing_modify|]. intros _.
  apply sparing_bind; [apply sparing_gets|]. intros rootMutator.
  apply sparing_bind.
  { destruct rootMutator; [apply sparing_openDraft | apply sparing_ret]. }
  intros _. apply sparing_bind; [by apply sparing_modify|]. intros _.
  apply sparing_bind.
  { apply sparing_tryFinally; [by apply sparing_dispatcherTry|].
    intros w. by apply spares_aside. }
  intros _. destruct rootMutator; [apply sparing_commitRoot | apply sparing_ret].
Qed.

Lemma sparing_callDispatcher base fuel :
  forall name args, sparing base (callDispatcher fuel name args).
Proof.
  induction fuel as [|fuel IH]; intros name args; simpl.
  { intros w. apply spares_refl. }
  apply sparing_bind; [apply sparing_gets|]. intros [p|]; [apply sparing_throw|].
  destruct (getOwn (methods mutators) name); [|apply sparing_throw].
  by apply sparing_dispatcher.
Qed.

Lemma rootEntry_draftFrom name o w :
  draftFrom (length (heap w)) (rootEntry name o w).
Proof.
  split; cbn [rootEntry heap mutatorsState withStack withMutatorsState withHeap
              withBeforeHooks].
  - rewrite length_app. lia.
  - by intros l [= <-].
Qed.

(** *** A root dispatcher, to its end *)

(** The body of a root dispatcher returned and, in development mode,
    passed the check: the after-hook is scheduled, the stack is popped
    and the draft is committed. *)
Lemma dispatch_root_commit fuel name fn args smn w l p w2 :
  runningMutatorStack w = [] ->
  getOwn (mutatorsMembers w) name = None ->
  getOwn (methods mutators) name = Some fn ->
  _state w = VRef l ->
  runBody (callDispatcher fuel) (fnBody fn args)
          (rootEntry name (objectAt (heap w) l) w) = (Normal p, w2) ->
  (developmentMode w = false \/ p = PUndefined) ->
  exists draft,
    mutatorsState w2 = StateValue draft
    /\ runningMutatorStack w2 = [name]
    /\ developmentMode w2 = developmentMode w
    /\ let w3 := popStack (withAfterHooks (fun hs => hs ++ [name]) w2) in
       let typeName := match smn with
                       | Some m => name +:+ " (" +:+ m +:+ ")"
                       | None => name
                       end in
       let committed :=
         withEvents (fun evs => evs ++ [mkEvent (createActionFromArguments typeName fn args)
                                                (VRef (length (heap w2)))])
           (withState (VRef (length (heap w2)))
              (withHeap (fun h => h ++ [newStateOf w3 draft]) w3)) in
       dispatch (S fuel) name args smn w
       = (Normal tt,
          if developmentMode w then withMutatorsState StateErrorGetter committed
          else committed).
Proof.
  intros Hs Hown Hm Hst Hbody Hok.
  rewrite (dispatch_root_unfold fuel name fn args smn w l) by done.
  pose proof (kept_runBody (callDispatcher fuel) (kept_callDispatcher fuel)
                (fnBody fn args) _ (rootEntry_inDispatch name (objectAt (heap w) l) w))
    as Hk.
  rewrite Hbody in Hk. cbn [snd] in Hk.
  destruct Hk as ([Hs2 [v2 Hv2]] & Hstack & Hev & Hstate & Hdev).
  cbn [rootEntry developmentMode events _state withStack withMutatorsState withHeap
         withBeforeHooks runningMutatorStack] in Hstack, Hev, Hstate, Hdev.
  rewrite Hs in Hstack. cbn [app] in Hstack.
  exists v2. split; [done|]. split; [done|]. split; [done|]. cbv zeta.
  unfold bind at 1, tryFinally, dispatcherTry. unfold bind at 1. rewrite Hbody.
  unfold bind at 1, gets at 1. rewrite Hdev.
  assert ((if developmentMode w then checkMutatorReturnType p else ret p) w2
          = (Normal p, w2)) as Hcheck.
  { destruct Hok as [-> | ->]; [done|]. by destruct (developmentMode w). }
  unfold bind at 1. rewrite Hcheck. unfold modify at 1.
  unfold commitRoot. unfold bind at 1, getState.
  cbn [popStack mutatorsState withStack withAfterHooks]. rewrite Hv2.
  unfold bind at 1, gets at 1. unfold bind at 1, alloc at 1.
  unfold bind at 1, processMutator, bind at 1, setState, modify at 1.
  unfold bind at 1, gets at 1.
  cbn [popStack developmentMode withEvents withState withHeap withStack
         withAfterHooks].
  rewrite Hdev.
  destruct (developmentMode w); unfold assignStateErrorGetter, modify, ret, deepFreeze;
    reflexivity.
Qed.

(** After a root dispatcher has committed, [this.state] of the mutators
    object is closed in development mode: reading it, or a field of it,
    throws the error of [assignStateErrorGetter]. In production mode it
    still is the draft of the call. Either way the stack of running
    mutators is empty again, one event was emitted, the after-hook of the
    call was scheduled last, and the new state is an object that did not
    exist before the call. *)
Theorem committed_dispatcher_closes_this_state fuel name fn args smn w l p w2 :
  runningMutatorStack w = [] ->
  getOwn (mutatorsMembers w) name = None ->
  getOwn (methods mutators) name = Some fn ->
  _state w = VRef l ->
  runBody (callDispatcher fuel) (fnBody fn args)
          (rootEntry name (objectAt (heap w) l) w) = (Normal p, w2) ->
  (developmentMode w = false \/ p = PUndefined) ->
  exists w' l',
    dispatch (S fuel) name args smn w = (Normal tt, w')
    /\ _state w' = VRef l' /\ length (heap w) < l' /\ is_Some (heap w' !! l')
    /\ length (events w') = S (length (events w))
    /\ runningMutatorStack w' = []
    /\ last (afterHooks w') = Some name
    /\ (developmentMode w = true ->
        getState w' = (Throws (Error illegalAccessToThisState), w')
        /\ forall f, readStateField f w' = (Throws (Error illegalAccessToThisState), w'))
    /\ (developmentMode w = false -> mutatorsState w' = mutatorsState w2).
Proof.
  intros Hs Hown Hm Hst Hbody Hok.
  destruct (dispatch_root_commit fuel name fn args smn w l p w2 Hs Hown Hm Hst Hbody Hok)
    as (draft & Hdraft & Hstack & Hdev & Hcall).
  cbv zeta in Hcall.
  pose proof (kept_runBody (callDispatcher fuel) (kept_callDispatcher fuel)
                (fnBody fn args) _ (rootEntry_inDispatch name (objectAt (heap w) l) w))
    as Hk.
  rewrite Hbody in Hk. cbn [snd] in Hk. destruct Hk as (_ & _ & Hev & _).
  cbn [rootEntry events withStack withMutatorsState withHeap withBeforeHooks] in Hev.
  assert (length (heap w) < length (heap w2)) as Hheap.
  { pose proof (sparing_runBody (length (heap w)) (callDispatcher fuel)
                  (sparing_callDispatcher _ fuel) (fnBody fn args) _
                  (rootEntry_draftFrom name (objectAt (heap w) l) w)) as (_ & Hlen & _).
    rewrite Hbody in Hlen.
    cbn [snd rootEntry heap withStack withMutatorsState withHeap withBeforeHooks] in Hlen.
    rewrite length_app in Hlen. cbn in Hlen. lia. }
  eexists _, (length (heap w2)). split; [exact Hcall|].
  destruct (developmentMode w) eqn:Hd;
    cbn [_state events runningMutatorStack afterHooks heap mutatorsState
         withMutatorsState withEvents withState withHeap popStack withStack
         withAfterHooks];
    (split; [reflexivity|]); (split; [exact Hheap|]);
    (split; [rewrite lookup_app_r, Nat.sub_diag by done; by eexists|]);
    (split; [rewrite Hev, length_app; cbn; lia|]);
    (split; [rewrite Hstack; reflexivity|]);
    (split; [apply last_snoc|]).
  - split; [|done]. intros _. split; [reflexivity|]. intros f. reflexivity.
  - split; [done|]. intros _. reflexivity.
Qed.

(** A root dispatcher whose method throws, by itself or through a call it
    makes or through the check of a nested call: the error reaches the
    caller, the state and the events are what they were, the stack is
    empty again, and no after-hook is scheduled for the call. The draft
    stays assigned to [this.state], also in development mode, where a
    committed call would have closed it. *)
Theorem throwing_dispatcher_commits_nothing fuel name fn args smn w l e w2 :
  runningMutatorStack w = [] ->
  getOwn (mutatorsMembers w) name = None ->
  getOwn (methods mutators) name = Some fn ->
  _state w = VRef l ->
  runBody (callDispatcher fuel) (fnBody fn args)
          (rootEntry name (objectAt (heap w) l) w) = (Throws e, w2) ->
  exists w',
    dispatch (S fuel) name args smn w = (Throws e, w')
    /\ _state w' = _state w
    /\ events w' = events w
    /\ runningMutatorStack w' = []
    /\ afterHooks w' = afterHooks w2
    /\ (exists draft, mutatorsState w' = StateValue draft
                      /\ getState w' = (Normal draft, w')).
Proof.
  intros Hs Hown Hm Hst Hbody.
  rewrite (dispatch_root_unfold fuel name fn args smn w l) by done.
  pose proof (kept_runBody (callDispatcher fuel) (kept_callDispatcher fuel)
                (fnBody fn args) _ (rootEntry_inDispatch name (objectAt (heap w) l) w))
    as Hk.
  rewrite Hbody in Hk. cbn [snd] in Hk.
  destruct Hk as ([Hs2 [v2 Hv2]] & Hstack & Hev & Hstate & Hdev).
  cbn [rootEntry developmentMode events _state withStack withMutatorsState withHeap
         withBeforeHooks runningMutatorStack] in Hstack, Hev, Hstate, Hdev.
  rewrite Hs in Hstack. cbn [app] in Hstack.
  unfold bind at 1, tryFinally, dispatcherTry. unfold bind at 1. rewrite Hbody.
  exists (popStack w2). split; [reflexivity|].
  cbn [popStack _state events runningMutatorStack afterHooks mutatorsState withStack].
  rewrite Hstack. do 4 (split; [done|]).
  exists v2. split; [done|]. unfold getState.
  cbn [popStack mutatorsState withStack]. by rewrite Hv2.
Qed.

(** On states whose properties hold primitive values: a root dispatcher,
    however it ends, writes to no state object that existed when it was
    called. The state it was called on, and every state committed
    before, keep their properties and the values in them; the writes of
    the method go to the draft, and the commit makes a new object. *)
Theorem dispatcher_spares_existing_objects fuel name fn args smn w l :
  runningMutatorStack w = [] ->
  getOwn (mutatorsMembers w) name = None ->
  getOwn (methods mutators) name = Some fn ->
  _state w = VRef l ->
  let w' := (dispatch (S fuel) name args smn w).2 in
  length (heap w) <= length (heap w')
  /\ forall l', l' < length (heap w) -> heap w' !! l' = heap w !! l'.
Proof.
  intros Hs Hown Hm Hst w'. subst w'.
  rewrite (dispatch_root_unfold fuel name fn args smn w l) by done.
  assert (sparing (length (heap w))
            (tryFinally (dispatcherTry (callDispatcher fuel) name fn args) popStack;;
             commitRoot name fn args smn)) as Hsp.
  { apply sparing_bind; [|intros; apply sparing_commitRoot].
    apply sparing_tryFinally.
    - apply sparing_dispatcherTry, sparing_callDispatcher.
    - intros w0. by apply spares_aside. }
  destruct (Hsp _ (rootEntry_draftFrom name (objectAt (heap w) l) w)) as (_ & Hlen & Hk).
  cbn [rootEntry heap withStack withMutatorsState withHeap withBeforeHooks] in Hlen, Hk.
  rewrite length_app in Hlen. split; [lia|].
  intros l' Hl'. rewrite Hk by done. apply lookup_app_l. lia.
Qed.

(** *** What is committed *)

(** [_.assignIn]: a property of the source wins, the others stay. *)
Lemma getOwn_assignIn (base source : props prim) k :
  NoDup (keys source) ->
  getOwn (assignIn base source) k
  = match getOwn source k with
    | Some v => Some v
    | None => getOwn base k
    end.
Proof.
  unfold assignIn. revert base.
  induction source as [|[k1 v1] source IH]; intros base Hnd; [done|].
  cbn [keys fmap list_fmap fst] in Hnd. apply NoDup_cons in Hnd as [Hk1 Hnd].
  cbn [foldl fst snd getOwn]. rewrite IH by done.
  destruct (String.eqb_spec k1 k) as [->|Hne].
  - by rewrite (getOwn_absent source k Hk1), getOwn_setOwn_eq.
  - by rewrite getOwn_setOwn_ne.
Qed.

(** A method that assigns a new object to [this.state]: in production
    mode the committed state has the properties of that object and no
    other; in development mode it also keeps every property of the
    previous state that the new object lacks. *)
Theorem assigned_state_is_merged_in_development fuel name fn args smn w l old o :
  runningMutatorStack w = [] ->
  getOwn (mutatorsMembers w) name = None ->
  getOwn (methods mutators) name = Some fn ->
  _state w = VRef l ->
  heap w !! l = Some old ->
  fnBody fn args = AssignState o (Return PUndefined) ->
  NoDup (keys o) ->
  exists w' l',
    dispatch (S fuel) name args smn w = (Normal tt, w')
    /\ _state w' = VRef l'
    /\ forall k,
         getOwn (objectAt (heap w') l') k
         = match getOwn o k with
           | Some v => Some v
           | None => if developmentMode w then getOwn old k else None
           end.
Proof.
  intros Hs Hown Hm Hst Hold Hbody Hnd.
  set (w2 := withMutatorsState (StateValue (VRef (S (length (heap w)))))
               (withHeap (fun h => h ++ [o]) (rootEntry name (objectAt (heap w) l) w))).
  assert (runBody (callDispatcher fuel) (fnBody fn args)
            (rootEntry name (objectAt (heap w) l) w) = (Normal PUndefined, w2)) as Hrun.
  { rewrite Hbody. cbn [runBody]. unfold bind at 1, alloc at 1.
    unfold bind at 1, putState.
    cbn [rootEntry mutatorsState withStack withMutatorsState withHeap withBeforeHooks
         heap]. unfold ret. subst w2. cbn [rootEntry heap withStack withMutatorsState
         withHeap withBeforeHooks]. rewrite length_app. cbn [length].
    by rewrite Nat.add_1_r. }
  destruct (dispatch_root_commit fuel name fn args smn w l PUndefined w2
              Hs Hown Hm Hst Hrun (or_intror eq_refl))
    as (draft & Hdraft & Hstack & Hdev & Hcall).
  cbv zeta in Hcall. subst w2.
  cbn [mutatorsState withMutatorsState] in Hdraft. injection Hdraft as <-.
  eexists _, _. split; [exact Hcall|].
  assert (forall k,
    getOwn (newStateOf
              (popStack (withAfterHooks (fun hs => hs ++ [name])
                 (withMutatorsState (StateValue (VRef (S (length (heap w)))))
                    (withHeap (fun h => h ++ [o])
                       (rootEntry name (objectAt (heap w) l) w)))))
              (VRef (S (length (heap w))))) k
    = match getOwn o k with
      | Some v => Some v
      | None => if developmentMode w then getOwn old k else None
      end) as Hnew.
  { intros k. unfold newStateOf.
    cbn [popStack developmentMode _state heap rootEntry withStack withAfterHooks
         withMutatorsState withHeap withBeforeHooks].
    rewrite Hst.
    assert (objectAt ((heap w ++ [objectAt (heap w) l]) ++ [o]) (S (length (heap w))) = o)
      as ->.
    { unfold objectAt at 1. rewrite lookup_app_r; rewrite length_app; cbn [length]; [|lia].
      by replace (S (length (heap w)) - (length (heap w) + 1)) with 0 by lia. }
    rewrite getOwn_assignIn by done. destruct (getOwn o k); [done|].
    destruct (developmentMode w); [|done].
    unfold objectAt. rewrite <- app_assoc, lookup_app_l by (by eapply lookup_lt_Some).
    exact (f_equal (fun x => getOwn (default [] x) k) Hold). }
  destruct (developmentMode w);
    cbn [_state heap withMutatorsState withEvents withState withHeap];
    (split; [reflexivity|]); intros k; unfold objectAt at 1;
    rewrite lookup_app_r, Nat.sub_diag by done; cbn [lookup list_lookup default];
    apply Hnew.
Qed.

(** *** The action of an event of this store *)

Lemma paramKey_index i j n m :
  "[" +:+ numToString i +:+ "] " +:+ n = "[" +:+ numToString j +:+ "] " +:+ m -> i = j.
Proof.
  rewrite !append_cons, !append_nil. intros [= H]. apply numToString_inj.
  eapply bracket_splits_once; [apply noBracket_string_of_uint..|exact H].
Qed.

Lemma recordParams_keys names i args action :
  (forall k, k ∈ keys action ->
             exists j n, j < i /\ k = "[" +:+ numToString j +:+ "] " +:+ n) ->
  keys (recordParams names i args action)
  = keys action ++ imap (fun j n => "[" +:+ numToString (i + j) +:+ "] " +:+ n) names.
Proof.
  revert i action. induction names as [|n names IH]; intros i action Hk.
  { cbn. by rewrite app_nil_r. }
  cbn [recordParams imap].
  assert ("[" +:+ numToString i +:+ "] " +:+ n ∉ keys action) as Hnew.
  { intros (j & m & Hj & E)%Hk. apply paramKey_index in E. lia. }
  rewrite IH.
  - rewrite keys_setOwn_notin by done. rewrite <- app_assoc. cbn [app].
    rewrite Nat.add_0_r. do 2 f_equal. apply imap_ext. intros j m _. cbn.
    by rewrite Nat.add_succ_r.
  - intros k. rewrite keys_setOwn_notin by done.
    intros [Hin | ->%list_elem_of_singleton]%elem_of_app.
    + destruct (Hk k Hin) as (j & m & Hj & ->). exists j, m. split; [lia|done].
    + exists i, n. split; [lia|done].
Qed.

Lemma recordParams_other names i args action k :
  (forall j n, k <> "[" +:+ numToString (i + j) +:+ "] " +:+ n) ->
  getOwn (recordParams names i args action) k = getOwn action k.
Proof.
  revert i action. induction names as [|n names IH]; intros i action Hk; [done|].
  cbn [recordParams]. rewrite IH.
  - apply getOwn_setOwn_ne. intros <-. apply (Hk 0 n). by rewrite Nat.add_0_r.
  - intros j m. rewrite Nat.add_succ_comm. apply Hk.
Qed.

Lemma recordParams_get names i args action j n :
  names !! j = Some n ->
  getOwn (recordParams names i args action)
         ("[" +:+ numToString (i + j) +:+ "] " +:+ n)
  = Some (default PUndefined (args !! (i + j))).
Proof.
  revert i action j. induction names as [|n0 names IH]; intros i action j; [done|].
  destruct j as [|j]; cbn [recordParams lookup list_lookup].
  - intros [= <-]. rewrite Nat.add_0_r, recordParams_other.
    + apply getOwn_setOwn_eq.
    + intros j m E. apply paramKey_index in E. lia.
  - intros H. rewrite <- Nat.add_succ_comm. by apply IH.
Qed.

(** The action of this store has one property per declared parameter,
    in their order, and [type] last: an argument that was not supplied is
    recorded as [undefined], an argument beyond the parameters is not
    recorded at all, and since the text between the parentheses always
    splits into at least one name, a method without parameters records
    ["[0] "]. *)
Theorem action_records_the_parameters fnName fn args :
  let names := argNamesOf (fnSource fn) in
  let action := createActionFromArguments fnName fn args in
  names <> []
  /\ keys action
     = imap (fun i n => "[" +:+ numToString i +:+ "] " +:+ n) names ++ ["type"]
  /\ getOwn action "type" = Some (PStr fnName)
  /\ forall i n, names !! i = Some n ->
       getOwn action ("[" +:+ numToString i +:+ "] " +:+ n)
       = Some (default PUndefined (args !! i)).
Proof.
  intros names action. subst action. unfold createActionFromArguments. fold names.
  assert (keys (recordParams names 0 args [])
          = imap (fun i n => "[" +:+ numToString i +:+ "] " +:+ n) names) as Hkeys.
  { rewrite recordParams_keys; [reflexivity|]. by intros k ?%elem_of_nil. }
  split.
  { subst names. unfold argNamesOf. intros E%fmap_nil_inv. by apply split_nonempty in E. }
  split; [|split].
  - rewrite keys_setOwn_notin; [by rewrite Hkeys|]. rewrite Hkeys.
    intros (j & m & E & _)%elem_of_lookup_imap_1.
    by rewrite append_cons in E.
  - apply getOwn_setOwn_eq.
  - intros i n Hi. rewrite getOwn_setOwn_ne by (by rewrite append_cons).
    apply (recordParams_get names 0 args [] i n Hi).
Qed.

(** *** Methods that write fields only *)

Lemma drafts_refl d old w : drafts d old w w.
Proof. by intros ?. Qed.

Lemma drafts_trans d old w1 w2 w3 :
  drafts d old w1 w2 -> drafts d old w2 w3 -> drafts d old w1 w3.
Proof.
  intros H12 H23 H1. destruct (H12 H1) as [H2 Hs2]. destruct (H23 H2) as [H3 Hs3].
  split; [done|congruence].
Qed.

Lemma draftingM_bind {A B} d old (m : D A) (f : A -> D B) :
  draftingM d old m -> (forall a, draftingM d old (f a)) -> draftingM d old (bind m f).
Proof.
  intros Hm Hf w. unfold bind. specialize (Hm w).
  destruct (m w) as [[a|e|] w1]; simpl in *; [|done..].
  eapply drafts_trans; [exact Hm | apply Hf].
Qed.

Lemma drafts_aside d old w w' :
  heap w' = heap w -> mutatorsState w' = mutatorsState w ->
  runningMutatorStack w' = runningMutatorStack w -> drafts d old w w'.
Proof. intros Hh Hm Hs. unfold drafts, drafting. by rewrite Hh, Hm, Hs. Qed.

Lemma draftingM_readStateField d old f : draftingM d old (readStateField f).
Proof.
  intros w. unfold readStateField, bind, getState.
  destruct (mutatorsState w) as [|[[]| |]|]; apply drafts_refl.
Qed.

Lemma draftingM_writeStateField d old f p : draftingM d old (writeStateField f p).
Proof.
  intros w (Hs & Hm & cur & Hcur & Hnd & Hpre).
  unfold writeStateField, bind, getState. rewrite Hm. cbn [snd modify].
  split; [|done]. split; [done|]. split; [done|].
  exists (setOwn cur f p). cbn [heap withHeap]. unfold objectAt. rewrite Hcur. cbn [default].
  split; [apply list_lookup_insert_eq; by eapply lookup_lt_Some|].
  split; [by apply NoDup_keys_setOwn|].
  destruct (decide (f ∈ keys cur)) as [Hin|Hnin].
  - by rewrite keys_setOwn_in.
  - rewrite keys_setOwn_notin by done. by apply prefix_app_r.
Qed.

Lemma draftingM_runBody d old call :
  (forall m args, draftingM d old (call m args)) ->
  forall b, fieldOnly b -> draftingM d old (runBody call b).
Proof.
  intros Hcall b.
  induction b as [p|e|f k IH|f p k IH|o k IH|m p k IH|m args k IH
                 |m args kOk IHok kErr IHerr]; cbn [fieldOnly runBody]; intros Hb.
  - intros w. apply drafts_refl.
  - intros w. apply drafts_refl.
  - apply draftingM_bind; [apply draftingM_readStateField | intros; by apply IH].
  - apply draftingM_bind; [apply draftingM_writeStateField | intros; by apply IH].
  - done.
  - destruct Hb as [Hm Hk]. apply draftingM_bind; [|intros; by apply IH].
    rewrite (proj2 (String.eqb_neq m "state")) by done. intros w. by apply drafts_aside.
  - apply draftingM_bind; [apply Hcall | intros; by apply IH].
  - destruct Hb as [Hok Herr]. intros w. specialize (Hcall m args w).
    destruct (call m args w) as [[a|e|] w1]; simpl in *; [| |done].
    + eapply drafts_trans; [exact Hcall | by apply IHok].
    + eapply drafts_trans; [exact Hcall | by apply IHerr].
Qed.

Lemma draftingM_dispatcher d old call mutName fn args smn :
  (forall m args, draftingM d old (call m args)) ->
  fieldOnly (fnBody fn args) ->
  draftingM d old (dispatcher call mutName fn args smn).
Proof.
  intros Hcall Hfn w Hw. pose proof Hw as (Hs & Hm & Hcur).
  rewrite dispatcher_nested_unfold by done. unfold tryFinally.
  set (w1 := withStack _ (withBeforeHooks _ w)).
  assert (drafting d old w1) as Hw1.
  { split; [|done]. subst w1. cbn. by destruct (runningMutatorStack w). }
  assert (draftingM d old (dispatcherTry call mutName fn args)) as Htry.
  { unfold dispatcherTry. apply draftingM_bind; [by apply draftingM_runBody|].
    intros result. apply draftingM_bind; [intros w0; apply drafts_refl|]. intros dev.
    apply draftingM_bind; [|intros _ w0; by apply drafts_aside].
    destruct dev; [|intros w0; apply drafts_refl].
    destruct result; intros w0; apply drafts_refl. }
  specialize (Htry w1 Hw1).
  destruct (dispatcherTry call mutName fn args w1) as [r w2]. cbn [snd] in *.
  destruct Htry as [(Hs2 & Hm2 & Hcur2) Hst2].
  assert (runningMutatorStack (popStack w2) = runningMutatorStack w) as Hpop.
  { cbn [popStack runningMutatorStack withStack]. rewrite Hst2. subst w1.
    cbn [runningMutatorStack withStack withBeforeHooks]. apply take_pred_snoc. }
  split; [|done]. split; [by rewrite Hpop|]. by split.
Qed.

Lemma draftingM_callDispatcher d old fuel :
  (forall name fn args,
      getOwn (methods mutators) name = Some fn -> fieldOnly (fnBody fn args)) ->
  forall name args, draftingM d old (callDispatcher fuel name args).
Proof.
  intros Hall. induction fuel as [|fuel IH]; intros name args; cbn [callDispatcher].
  { intros w. apply drafts_refl. }
  apply draftingM_bind; [intros w; apply drafts_refl|].
  intros [p|]; [intros w; apply drafts_refl|].
  destruct (getOwn (methods mutators) name) as [fn|] eqn:Hfn; [|intros w; apply drafts_refl].
  apply draftingM_dispatcher; [exact IH|by eapply Hall].
Qed.

(** [_.assignIn] of an object over one whose keys it starts with. *)
Lemma assignIn_head k v (b source : props prim) :
  k ∉ keys source -> assignIn ((k, v) :: b) source = (k, v) :: assignIn b source.
Proof.
  unfold assignIn. revert b. induction source as [|[k1 v1] source IH]; intros b; [done|].
  cbn [keys fmap list_fmap fst]. intros [Hne Hnin]%not_elem_of_cons.
  cbn [foldl fst snd setOwn]. rewrite (proj2 (String.eqb_neq k k1)) by done.
  by apply IH.
Qed.

Lemma assignIn_same_keys (base c : props prim) :
  keys base = keys c -> NoDup (keys c) -> assignIn base c = c.
Proof.
  revert base. induction c as [|[k v] c IH]; intros [|[k0 v0] base]; try done.
  cbn [keys fmap list_fmap fst]. intros [= -> Hk] [Hnin Hnd]%NoDup_cons.
  change (assignIn ((k, v0) :: base) ((k, v) :: c))
    with (assignIn (setOwn ((k, v0) :: base) k v) c).
  cbn [setOwn]. rewrite String.eqb_refl, assignIn_head by done. f_equal. by apply IH.
Qed.

Lemma setOwn_fresh (o : props prim) k v : k ∉ keys o -> setOwn o k v = o ++ [(k, v)].
Proof.
  induction o as [|[k' v'] o IH]; [done|]. cbn [keys fmap list_fmap fst].
  intros [Hne Hnin]%not_elem_of_cons. cbn [setOwn].
  rewrite (proj2 (String.eqb_neq k' k)) by done. cbn. f_equal. by apply IH.
Qed.

Lemma assignIn_fresh (c1 c2 : props prim) :
  NoDup (keys (c1 ++ c2)) -> assignIn c1 c2 = c1 ++ c2.
Proof.
  revert c1. induction c2 as [|[k v] c2 IH]; intros c1 Hnd; [by rewrite app_nil_r|].
  change (assignIn c1 ((k, v) :: c2)) with (assignIn (setOwn c1 k v) c2).
  assert (k ∉ keys c1) as Hk.
  { unfold keys in Hnd. rewrite fmap_app in Hnd.
    apply NoDup_app in Hnd as (_ & Hdisj & _).
    intros Hin. apply (Hdisj k Hin). cbn. constructor. }
  rewrite setOwn_fresh by done. rewrite IH; rewrite <- app_assoc; done.
Qed.

Lemma assignIn_app (base c1 c2 : props prim) :
  assignIn base (c1 ++ c2) = assignIn (assignIn base c1) c2.
Proof. unfold assignIn. apply foldl_app. Qed.

Lemma assignIn_prefix (base c : props prim) :
  NoDup (keys c) -> keys base `prefix_of` keys c -> assignIn base c = c.
Proof.
  intros Hnd [rest Hrest].
  assert (exists c1 c2, c = c1 ++ c2 /\ keys c1 = keys base) as (c1 & c2 & -> & Hk).
  { exists (take (length base) c), (drop (length base) c).
    split; [by rewrite take_drop|]. unfold keys in *. rewrite fmap_take, Hrest.
    rewrite <- (length_fmap fst base). by rewrite take_app_length. }
  assert (NoDup (keys c1)) as Hnd1.
  { unfold keys in Hnd |- *. rewrite fmap_app in Hnd. by apply NoDup_app in Hnd as (? & _). }
  rewrite assignIn_app, (assignIn_same_keys base c1 (eq_sym Hk) Hnd1).
  by apply assignIn_fresh.
Qed.

Lemma getOwn_is_Some {V} (o : props V) k : is_Some (getOwn o k) <-> k ∈ keys o.
Proof.
  induction o as [|[k' v] o IH]; cbn [getOwn keys fmap list_fmap fst].
  - split; [by intros []|by intros ?%elem_of_nil].
  - rewrite elem_of_cons. destruct (String.eqb_spec k' k) as [->|Hne].
    + split; [by left|by eexists].
    + rewrite IH. unfold keys. split; [by right|]. by intros [->|].
Qed.

(** A root dispatcher of mutators that write fields only: the committed
    state is a new object that has, property by property, what the draft
    had when the method returned, and every property of the previous
    state is a property of it; in development mode as in production
    mode. *)
Theorem field_writes_are_committed_as_drafted fuel name fn args smn w l old p w2 :
  (forall name fn args,
      getOwn (methods mutators) name = Some fn -> fieldOnly (fnBody fn args)) ->
  runningMutatorStack w = [] ->
  getOwn (mutatorsMembers w) name = None ->
  getOwn (methods mutators) name = Some fn ->
  _state w = VRef l ->
  heap w !! l = Some old ->
  NoDup (keys old) ->
  runBody (callDispatcher fuel) (fnBody fn args)
          (rootEntry name (objectAt (heap w) l) w) = (Normal p, w2) ->
  (developmentMode w = false \/ p = PUndefined) ->
  exists w' l' draft committed,
    dispatch (S fuel) name args smn w = (Normal tt, w')
    /\ _state w' = VRef l'
    /\ length (heap w) < l'
    /\ heap w2 !! length (heap w) = Some draft
    /\ heap w' !! l' = Some committed
    /\ (forall k, getOwn committed k = getOwn draft k)
    /\ (forall k, is_Some (getOwn old k) -> is_Some (getOwn committed k)).
Proof.
  intros Hall Hs Hown Hm Hst Hold Hnd Hbody Hok.
  destruct (dispatch_root_commit fuel name fn args smn w l p w2 Hs Hown Hm Hst Hbody Hok)
    as (draft & Hdraft & Hstack & Hdev & Hcall).
  cbv zeta in Hcall.
  assert (drafting (length (heap w)) old (rootEntry name (objectAt (heap w) l) w)) as H0.
  { split; [cbn; by destruct (runningMutatorStack w)|]. split; [done|].
    exists old. cbn [rootEntry heap withStack withMutatorsState withHeap withBeforeHooks].
    unfold objectAt. rewrite Hold. cbn [default].
    split; [by rewrite lookup_app_r, Nat.sub_diag by done|]. by split. }
  pose proof (draftingM_runBody (length (heap w)) old (callDispatcher fuel)
                (draftingM_callDispatcher _ _ fuel Hall) (fnBody fn args)
                (Hall name fn args Hm) _ H0) as Hd.
  rewrite Hbody in Hd. cbn [snd] in Hd.
  destruct Hd as [(_ & Hm2 & cur & Hcur & Hndc & Hpre) _].
  rewrite Hm2 in Hdraft. injection Hdraft as <-.
  pose proof (sparing_runBody (length (heap w)) (callDispatcher fuel)
                (sparing_callDispatcher _ fuel) (fnBody fn args) _
                (rootEntry_draftFrom name (objectAt (heap w) l) w)) as (_ & _ & Hkeep).
  rewrite Hbody in Hkeep. cbn [snd] in Hkeep.
  assert (heap w2 !! l = Some old) as Hold2.
  { rewrite Hkeep by (by eapply lookup_lt_Some).
    cbn [rootEntry heap withStack withMutatorsState withHeap withBeforeHooks].
    rewrite lookup_app_l by (by eapply lookup_lt_Some). exact Hold. }
  pose proof (kept_runBody (callDispatcher fuel) (kept_callDispatcher fuel)
                (fnBody fn args) _ (rootEntry_inDispatch name (objectAt (heap w) l) w))
    as Hk.
  rewrite Hbody in Hk. cbn [snd] in Hk. destruct Hk as (_ & _ & _ & Hstate & _).
  cbn [rootEntry _state withStack withMutatorsState withHeap withBeforeHooks] in Hstate.
  assert (newStateOf (popStack (withAfterHooks (fun hs => hs ++ [name]) w2))
                     (VRef (length (heap w))) = cur) as Hnew.
  { unfold newStateOf.
    cbn [popStack developmentMode _state heap withStack withAfterHooks].
    rewrite Hstate, Hst. unfold objectAt.
    rewrite Hcur, (f_equal (default []) Hold2). cbn [default].
    destruct (developmentMode w2); apply assignIn_prefix; try done.
    apply prefix_nil. }
  rewrite Hnew in Hcall.
  assert (length (heap w) < length (heap w2)) as Hlen by (by eapply lookup_lt_Some).
  assert (forall k, is_Some (getOwn old k) -> is_Some (getOwn cur k)) as Hkeys.
  { intros k. rewrite !getOwn_is_Some. intros Hk.
    destruct Hpre as [rest ->]. apply elem_of_app. by left. }
  eexists _, (length (heap w2)), cur, cur. split; [exact Hcall|].
  destruct (developmentMode w);
    cbn [_state heap withMutatorsState withEvents withState withHeap popStack
         withStack withAfterHooks];
    (split; [reflexivity|]); (split; [exact Hlen|]); (split; [exact Hcur|]);
    (split; [by rewrite lookup_app_r, Nat.sub_diag by done|]);
    (split; [reflexivity|exact Hkeys]).
Qed.

End WithMessages.

(** *** The post-call checks and the development flag *)

Section Checks.

Variables (membersMessage returnMessage accessMessage : string).
Variable ms : Mutators.

(** C4, as the code has it. In [Store.ts] both post-call checks run
    whatever the development flag: a returned value throws, and so does
    a member left on [this]. In the older store the only check is the
    one on the returned value, and it runs in development mode only:
    with the flag off (or when nothing was returned, members or not) the
    root dispatcher commits; with the flag on a returned value throws
    and nothing is committed. *)
Theorem checks_follow_the_flag_only_in_dispatchers fuel name fn args :
  getOwn (methods ms) name = Some fn ->
  (forall (w : StoreTs.World) l p w2,
      mutatorCallStackCount (store w) = 0 ->
      getOwn (proxyObj w) name = None ->
      StoreTs._state (store w) = VRef l ->
      StoreTs.runBody ms (callMethod membersMessage returnMessage ms fuel)
        (fnBody fn args) RTempThisObj
        (StoreTs.rootEntry (objectAt (StoreTs.heap w) l) w) = (Normal p, w2) ->
      (p <> PUndefined ->
       exists w', mutate membersMessage returnMessage ms (S fuel) name args w
                  = (Throws (Error returnMessage), w'))
      /\ (forall m, p = PUndefined -> m ∈ keys (tempThisObj w2) -> m <> "state" ->
          exists msg w',
            mutate membersMessage returnMessage ms (S fuel) name args w
              = (Throws (Error msg), w') /\ occursIn m msg))
  /\ (forall (w : World) l p w2 smn,
      runningMutatorStack w = [] ->
      getOwn (mutatorsMembers w) name = None ->
      _state w = VRef l ->
      runBody accessMessage (callDispatcher accessMessage returnMessage ms fuel)
        (fnBody fn args) (rootEntry name (objectAt (heap w) l) w) = (Normal p, w2) ->
      (developmentMode w = false \/ p = PUndefined ->
       exists w' ev,
         dispatch accessMessage returnMessage ms (S fuel) name args smn w
           = (Normal tt, w')
         /\ events w' = events w ++ [ev])
      /\ (developmentMode w = true -> p <> PUndefined ->
          exists e w',
            dispatch accessMessage returnMessage ms (S fuel) name args smn w
              = (Throws e, w')
            /\ events w' = events w)).
Proof.
  intros Hm. split.
  - intros w l p w2 Hc Hown Hst Hbody. split.
    + intros Hp.
      destruct (call_reports_returned_value membersMessage returnMessage ms fuel name
                  fn args w l p w2 Hc Hown Hm Hst Hbody Hp) as (w' & H & _).
      by exists w'.
    + intros m -> Hin Hne.
      destruct (call_reports_member membersMessage returnMessage ms m fuel name
                  fn args w l w2 Hne Hc Hown Hm Hst Hbody Hin) as (msg & w' & H & Ho & _).
      by exists msg, w'.
  - intros w l p w2 smn Hs Hown Hst Hbody. split.
    + intros Hok.
      destruct (unchecked_return_commits accessMessage returnMessage ms fuel name fn
                  args smn w l p w2 Hs Hown Hm Hst Hbody Hok) as (w' & ev & H & He & _).
      by exists w', ev.
    + intros Hon Hp.
      destruct (checked_return_throws accessMessage returnMessage ms fuel name fn
                  args smn w l p w2 Hs Hown Hm Hst Hbody Hon Hp) as (w' & H & He & _).
      by eexists _, w'.
Qed.

End Checks.

(** With the flag off, [Store.ts] still rejects a method that returns a
    value. *)
Lemma checks_are_not_skipped_in_store_ts :
  StoreTs.developmentMode (testWorld false []) = false
  /\ (mutate "members" "returned" TestMutator 1 "answer" [] (testWorld false [])).1
     = Throws (Error "returned").
Proof. split; reflexivity. Qed.

Definition olderWorld (dev : bool) : World :=
  (constructor [] (emptyWorld dev)).2.

Lemma checks_follow_the_flag_only_in_dispatchers_witness :
  (exists w', mutate "members" "returned" TestMutator 1 "answer" [] (testWorld false [])
              = (Throws (Error "returned"), w'))
  /\ (exists w' ev,
         dispatch "access" "returned" TestMutator 1 "answer" [] None (olderWorld false)
           = (Normal tt, w')
         /\ events w' = events (olderWorld false) ++ [ev])
  /\ (exists e w',
         dispatch "access" "returned" TestMutator 1 "answer" [] None (olderWorld true)
           = (Throws e, w')
         /\ events w' = events (olderWorld true)).
Proof.
  pose proof (checks_follow_the_flag_only_in_dispatchers "members" "returned" "access"
                TestMutator 0 "answer"
                (mkMutator "function () { return 42; }" (fun _ => Return (PNum 42)))
                [] eq_refl) as [Hstore Hold].
  split; [|split].
  - apply (proj1 (Hstore (testWorld false []) 0 (PNum 42) _ eq_refl eq_refl eq_refl
                    eq_refl)). discriminate.
  - apply (proj1 (Hold (olderWorld false) 0 (PNum 42) _ None eq_refl eq_refl eq_refl
                    eq_refl)). by left.
  - apply (proj2 (Hold (olderWorld true) 0 (PNum 42) _ None eq_refl eq_refl eq_refl
                    eq_refl)); [reflexivity | discriminate].
Defined.

(** *** The extras on a store of [{a: 0, b: 0}] *)

Definition olderStore (dev : bool) : World :=
  (constructor [("a", PNum 0); ("b", PNum 0)] (emptyWorld dev)).2.

(** [replace(a) { this.state = {a: a}; }] *)
Definition Replacing : Mutators :=
  mkMutators []
    [ ("replace", mkMutator "function (a) { this.state = {a: a}; }"
         (fun args => AssignState [("a", default PUndefined (args !! 0))]
                        (Return PUndefined))) ].

Lemma committed_dispatcher_closes_this_state_witness :
  exists w',
    dispatch "access" "returned" TestMutator 1 "setBoth" [PNum 1; PNum 2] None
             (olderStore true) = (Normal tt, w')
    /\ runningMutatorStack w' = []
    /\ getState "access" w' = (Throws (Error "access"), w').
Proof.
  destruct (committed_dispatcher_closes_this_state "access" "returned" TestMutator 0
              "setBoth"
              (mkMutator "function (a, b) { this.state.a = a; this.state.b = b; }"
                 (fun args => SetState "a" (default PUndefined (args !! 0))
                                (SetState "b" (default PUndefined (args !! 1))
                                   (Return PUndefined))))
              [PNum 1; PNum 2] None (olderStore true) 0 PUndefined _
              eq_refl eq_refl eq_refl eq_refl eq_refl (or_intror eq_refl))
    as (w' & l' & Hcall & _ & _ & _ & _ & Hstack & _ & Hdev & _).
  exists w'. split; [exact Hcall|]. split; [exact Hstack|]. exact (proj1 (Hdev eq_refl)).
Defined.

Lemma throwing_dispatcher_commits_nothing_witness :
  exists w',
    dispatch "access" "returned" TestMutator 1 "mut1" [] None (olderStore true)
      = (Throws (Error ""), w')
    /\ _state w' = _state (olderStore true)
    /\ events w' = events (olderStore true)
    /\ runningMutatorStack w' = [].
Proof.
  destruct (throwing_dispatcher_commits_nothing "access" "returned" TestMutator 0 "mut1"
              (mkMutator "function () { this.state.a = 1; if (this.state.a > 0) { throw new Error(''); } this.state.a = 2; }"
                 (fun _ => SetState "a" (PNum 1) (GetState "a" (fun v =>
                             if isPositive v then Throw (Error "")
                             else SetState "a" (PNum 2) (Return PUndefined)))))
              [] None (olderStore true) 0 (Error "") _
              eq_refl eq_refl eq_refl eq_refl eq_refl)
    as (w' & Hcall & Hst & Hev & Hstack & _).
  by exists w'.
Defined.

Lemma dispatcher_spares_existing_objects_witness :
  heap (dispatch "access" "returned" TestMutator 1 "setBoth" [PNum 1; PNum 2] None
                 (olderStore false)).2 !! 0
  = heap (olderStore false) !! 0.
Proof.
  refine (proj2 (dispatcher_spares_existing_objects "access" "returned" TestMutator 0
                   "setBoth"
                   (mkMutator "function (a, b) { this.state.a = a; this.state.b = b; }"
                      (fun args => SetState "a" (default PUndefined (args !! 0))
                                     (SetState "b" (default PUndefined (args !! 1))
                                        (Return PUndefined))))
                   [PNum 1; PNum 2] None (olderStore false) 0
                   eq_refl eq_refl eq_refl eq_refl) 0 _).
  vm_compute. lia.
Defined.

Lemma assigned_state_is_merged_in_development_witness :
  exists w' l',
    dispatch "access" "returned" Replacing 1 "replace" [PNum 5] None (olderStore true)
      = (Normal tt, w')
    /\ _state w' = VRef l'
    /\ getOwn (objectAt (heap w') l') "a" = Some (PNum 5)
    /\ getOwn (objectAt (heap w') l') "b" = Some (PNum 0).
Proof.
  destruct (assigned_state_is_merged_in_development "access" "returned" Replacing 0
              "replace"
              (mkMutator "function (a) { this.state = {a: a}; }"
                 (fun args => AssignState [("a", default PUndefined (args !! 0))]
                                (Return PUndefined)))
              [PNum 5] None (olderStore true) 0
              [("a", PNum 0); ("b", PNum 0)] [("a", PNum 5)]
              eq_refl eq_refl eq_refl eq_refl eq_refl eq_refl
              ltac:(apply NoDup_singleton))
    as (w' & l' & Hcall & Hst & Hk).
  exists w', l'. split; [exact Hcall|]. split; [exact Hst|].
  split; [exact (Hk "a")|exact (Hk "b")].
Defined.

(** The same call in production mode: [b] is gone. *)
Example assigned_state_replaces_in_production :
  exists w' l',
    dispatch "access" "returned" Replacing 1 "replace" [PNum 5] None (olderStore false)
      = (Normal tt, w')
    /\ _state w' = VRef l'
    /\ objectAt (heap w') l' = [("a", PNum 5)].
Proof. by eexists _, _; vm_compute. Qed.

Lemma TestMutator_fieldOnly name fn args :
  getOwn (methods TestMutator) name = Some fn -> fieldOnly (fnBody fn args).
Proof.
  unfold TestMutator. cbn [methods getOwn].
  repeat (destruct (String.eqb _ name);
          [intros [= <-]; cbn; repeat split; try done; intros;
           try (destruct (isPositive _)); cbn; by repeat split|]).
  done.
Qed.

Lemma olderStore_keys : NoDup (keys [("a", PNum 0); ("b", PNum 0)]).
Proof.
  apply NoDup_cons. split; [|apply NoDup_singleton].
  by intros [= ]%list_elem_of_singleton.
Qed.

Lemma field_writes_are_committed_as_drafted_witness :
  exists w' l' committed,
    dispatch "access" "returned" TestMutator 1 "setBoth" [PNum 1; PNum 2] None
             (olderStore true) = (Normal tt, w')
    /\ _state w' = VRef l'
    /\ heap w' !! l' = Some committed
    /\ getOwn committed "a" = Some (PNum 1)
    /\ getOwn committed "b" = Some (PNum 2).
Proof.
  destruct (field_writes_are_committed_as_drafted "access" "returned" TestMutator 0
              "setBoth"
              (mkMutator "function (a, b) { this.state.a = a; this.state.b = b; }"
                 (fun args => SetState "a" (default PUndefined (args !! 0))
                                (SetState "b" (default PUndefined (args !! 1))
                                   (Return PUndefined))))
              [PNum 1; PNum 2] None (olderStore true) 0
              [("a", PNum 0); ("b", PNum 0)] PUndefined _
              TestMutator_fieldOnly eq_refl eq_refl eq_refl eq_refl eq_refl
              olderStore_keys eq_refl (or_intror eq_refl))
    as (w' & l' & draft & committed & Hcall & Hst & _ & Hdraft & Hnew & Hsame & _).
  exists w', l', committed. split; [exact Hcall|]. split; [exact Hst|].
  split; [exact Hnew|]. rewrite !Hsame.
  vm_compute in Hdraft. injection Hdraft as <-. by split.
Defined.

(** *** [select] and [selectNonNil] *)

(** What a selector yields, as the comparison of [select] sees it: a
    primitive, an object (by identity), or an array (by identity, with
    its elements). *)
#[local] Unset Elimination Schemes.
Inductive selected : Type :=
| SelPrim (p : prim)
| SelObject (id : loc)
| SelArray (id : loc) (elems : list selected).
#[local] Set Elimination Schemes.

(** [a === b] *)
Definition strictEquals (a b : selected) : bool :=
  match a, b with
  | SelPrim p, SelPrim q => bool_decide (p = q)
  | SelObject i, SelObject j => Nat.eqb i j
  | SelArray i _, SelArray j _ => Nat.eqb i j
  | _, _ => false
  end.

Definition isArray (a : selected) : bool :=
  match a with
  | SelArray _ _ => true
  | _ => false
  end.

Definition isNil (a : selected) : bool :=
  match a with
  | SelPrim PUndefined | SelPrim PNull => true
  | _ => false
  end.

Fixpoint allStrictEquals (xs ys : list selected) : bool :=
  match xs, ys with
  | [], [] => true
  | x :: xs', y :: ys' => strictEquals x y && allStrictEquals xs' ys'
  | _, _ => false
  end.

(** Modelled from the spec: [isShallowEquals] of [./utils], which is not
    part of the snapshot, on two arrays: "shallow element-wise
    comparison". *)
Definition isShallowEquals (a b : selected) : bool :=
  match a, b with
  | SelArray _ xs, SelArray _ ys => allStrictEquals xs ys
  | _, _ => strictEquals a b
  end.

(** The comparator [select] hands to [distinctUntilChanged]. *)
Definition sameSelected (old value : selected) : bool :=
  if isArray old && isArray value then isShallowEquals old value
  else strictEquals old value.

(** [distinctUntilChanged(compare)] of the stream library, on the values
    a subscriber has been sent so far: the first one passes, a later
    one passes unless it compares equal to the last one that passed. *)
Fixpoint distinctAfter {A} (compare : A -> A -> bool) (key : A) (xs : list A) : list A :=
  match xs with
  | [] => []
  | x :: xs' =>
      if compare key x then distinctAfter compare key xs'
      else x :: distinctAfter compare x xs'
  end.

Definition distinctUntilChanged {A} (compare : A -> A -> bool) (xs : list A) : list A :=
  match xs with
  | [] => []
  | x :: xs' => x :: distinctAfter compare x xs'
  end.

(** [select(selector)] on the states of the events a subscriber is sent. *)
Definition select (selector : option (selected -> selected)) (states : list selected)
  : list selected :=
  distinctUntilChanged sameSelected
    ((fun state => match selector with
                   | Some f => f state
                   | None => state
                   end) <$> states).

(** [selectNonNil(selector)] *)
Definition selectNonNil (selector : selected -> selected) (states : list selected)
  : list selected :=
  filter (fun val => isNil val = false) (select (Some selector) states).

Lemma strictEquals_trans a b c :
  strictEquals a b = true -> strictEquals b c = true -> strictEquals a c = true.
Proof.
  destruct a as [p|i|i xs], b as [q|j|j ys], c as [r|k|k zs]; simpl; try done.
  - intros ->%bool_decide_eq_true. done.
  - intros ->%Nat.eqb_eq. done.
  - intros ->%Nat.eqb_eq. done.
Qed.

Lemma allStrictEquals_trans xs ys zs :
  allStrictEquals xs ys = true -> allStrictEquals ys zs = true ->
  allStrictEquals xs zs = true.
Proof.
  revert ys zs. induction xs as [|x xs IH]; intros [|y ys] [|z zs]; simpl; try done.
  intros [H1 H2]%andb_true_iff [H3 H4]%andb_true_iff.
  apply andb_true_iff. split; [by eapply strictEquals_trans | by eapply IH].
Qed.

Lemma sameSelected_trans a b c :
  sameSelected a b = true -> sameSelected b c = true -> sameSelected a c = true.
Proof.
  unfold sameSelected.
  destruct a as [p|i|i xs], b as [q|j|j ys], c as [r|k|k zs]; simpl; try done.
  - intros ->%bool_decide_eq_true. done.
  - intros ->%Nat.eqb_eq. done.
  - apply allStrictEquals_trans.
Qed.








(** *** [selectNonNil] across a nil value *)

Lemma strictEquals_sym a b : strictEquals a b = strictEquals b a.
Proof.
  destruct a as [p|i|i xs], b as [q|j|j ys]; cbn; try done;
    [|apply Nat.eqb_sym..].
  apply bool_decide_ext. split; congruence.
Qed.

Lemma allStrictEquals_sym xs ys : allStrictEquals xs ys = allStrictEquals ys xs.
Proof.
  revert ys. induction xs as [|x xs IH]; intros [|y ys]; cbn; try done.
  by rewrite strictEquals_sym, IH.
Qed.

Lemma sameSelected_sym a b : sameSelected a b = sameSelected b a.
Proof.
  unfold sameSelected. destruct a as [p|i|i xs], b as [q|j|j ys]; cbn;
    first [apply allStrictEquals_sym | apply (strictEquals_sym (SelPrim _) (SelPrim _))
          | apply (strictEquals_sym (SelObject _) (SelObject _)) | done].
Qed.

Lemma sameSelected_nil a b : sameSelected a b = true -> isNil a = isNil b.
Proof.
  unfold sameSelected. destruct a as [p|i|i xs], b as [q|j|j ys]; cbn; try done.
  by intros ->%bool_decide_eq_true.
Qed.

(** A value that differs from the one before it passes, whatever was
    emitted last. *)
Lemma distinctAfter_differs {A} (compare : A -> A -> bool) key xs p x :
  (forall a b, compare a b = compare b a) ->
  (forall a b c, compare a b = true -> compare b c = true -> compare a c = true) ->
  compare p x = false ->
  distinctAfter compare key (xs ++ [p; x]) = distinctAfter compare key (xs ++ [p]) ++ [x].
Proof.
  intros Hsym Htrans Hpx. revert key. induction xs as [|y xs IH]; intros key.
  - cbn. destruct (compare key p) eqn:Hkp.
    + destruct (compare key x) eqn:Hkx; [|done].
      rewrite Hsym in Hkp. by rewrite (Htrans _ _ _ Hkp Hkx) in Hpx.
    + by rewrite Hpx.
  - cbn. destruct (compare key y); [apply IH|]. by rewrite IH.
Qed.

Lemma distinctUntilChanged_differs {A} (compare : A -> A -> bool) xs p x :
  (forall a b, compare a b = compare b a) ->
  (forall a b c, compare a b = true -> compare b c = true -> compare a c = true) ->
  compare p x = false ->
  distinctUntilChanged compare (xs ++ [p; x])
  = distinctUntilChanged compare (xs ++ [p]) ++ [x].
Proof.
  intros Hsym Htrans Hpx. destruct xs as [|y xs]; cbn; [by rewrite Hpx|].
  f_equal. by apply distinctAfter_differs.
Qed.

(** [selectNonNil] removes the nil values after [select] has compared:
    a nil value between two others is emitted by [select], so the value
    after it is emitted as well, and [selectNonNil] emits it even when it
    is the value it emitted last. *)
Theorem selectNonNil_repeats_across_nil selector states s1 s2 s3 :
  isNil (selector s1) = false ->
  isNil (selector s2) = true ->
  isNil (selector s3) = false ->
  select (Some selector) (states ++ [s1; s2; s3])
  = select (Some selector) (states ++ [s1]) ++ [selector s2; selector s3]
  /\ selectNonNil selector (states ++ [s1; s2; s3])
     = selectNonNil selector (states ++ [s1]) ++ [selector s3].
Proof.
  intros H1 H2 H3.
  assert (forall a b, isNil a <> isNil b -> sameSelected a b = false) as Hdiff.
  { intros a b Hab. destruct (sameSelected a b) eqn:E; [|done].
    by apply sameSelected_nil in E. }
  assert (select (Some selector) (states ++ [s1; s2; s3])
          = select (Some selector) (states ++ [s1]) ++ [selector s2; selector s3]) as Hsel.
  { unfold select. rewrite !fmap_app. cbn [fmap list_fmap].
    change [selector s1; selector s2; selector s3]
      with ([selector s1] ++ [selector s2; selector s3]).
    rewrite app_assoc.
    rewrite distinctUntilChanged_differs;
      [|apply sameSelected_sym|apply sameSelected_trans|apply Hdiff; congruence].
    rewrite <- app_assoc. cbn [app].
    rewrite distinctUntilChanged_differs;
      [|apply sameSelected_sym|apply sameSelected_trans|apply Hdiff; congruence].
    by rewrite <- app_assoc. }
  split; [exact Hsel|]. unfold selectNonNil. rewrite Hsel, filter_app. f_equal.
  rewrite filter_cons_False by (by rewrite H2).
  by rewrite filter_cons_True, filter_nil by done.
Qed.

Lemma selectNonNil_repeats_across_nil_witness :
  selectNonNil (fun s => s) [SelPrim (PNum 1); SelPrim PNull; SelPrim (PNum 1)]
  = selectNonNil (fun s => s) [SelPrim (PNum 1)] ++ [SelPrim (PNum 1)].
Proof.
  exact (proj2 (selectNonNil_repeats_across_nil (fun s => s) [] (SelPrim (PNum 1))
                  (SelPrim PNull) (SelPrim (PNum 1)) eq_refl eq_refl eq_refl)).
Defined.

End Dispatchers.

(** ** projects/w11k/tydux/src/lib/Facade.ts *)

Module FacadeTs.

(** A sub-state: [undefined], or an object with its identity. *)
Inductive substate : Type :=
| SUndefined
| SObject (id : nat) (fields : props prim).

Definition fieldsOf (s : substate) : props prim :=
  match s with
  | SUndefined => []
  | SObject _ fs => fs
  end.

(** A redux action: its [type] (any value), the [payload] of a command,
    the [initialState] of a seeding action. *)
Record Action : Type := mkAction {
  type : prim;
  payload : list prim;
  initialState : substate;
}.

(** The initial state handed to the constructor: a value, a function
    that produces one, or a promise, which at that moment is pending,
    fulfilled or rejected. *)
Inductive promiseState : Type :=
| Pending
| Fulfilled (value : substate)
| Rejected.

Inductive InitialStateValue : Type :=
| InitValue (s : substate)
| InitProducer (produces : substate)
| InitPromise (p : promiseState).

(** The callbacks the facade puts on the micro-task queue, each with the
    index of its facade: the continuation of the initial-state promise
    (or its skipping, when the promise rejects), the [finally] of that
    chain, and the deferred delivery of a state to the subject. *)
Inductive job : Type :=
| JSeed (i : nat) (value : substate)
| JSeedSkipped (i : nat)
| JFinally (i : nat)
| JDeliver (i : nat) (currentState : substate).

Section WithStore.

(** The root state of the redux store. *)
Variable Root : Type.

(** Modelled from the spec: [createProxy] of [./utils] wraps a state
    object so that reads are transparent; which object it returns is
    left open. *)
Variable createProxy : substate -> substate.

(** Modelled from the spec: a [MountPoint] of [./store], which is not part
    of the snapshot, addresses a sub-tree of the root state:
    [extractState] is a pure projection, [setState] returns a root state
    with the sub-tree replaced, [getState()] is [extractState] of the
    current root state. *)
Record MountPoint : Type := mkMountPoint {
  sliceName : string;
  extractState : Root -> substate;
  setState : Root -> substate -> Root;
}.

(** The fields of a facade. [mutatorReducer] is the reducer that
    [createReducerFromCommandsInvoker] of [./commands] builds from the
    commands of the facade. The two subjects are the values handed to
    their [next], oldest first. [subscribed] is whether the callback of
    [mountPoint.subscribe] is still registered, [seeds] whether the
    constructor added the reducer of the seeding action, [destroyHook]
    whether the [take(1)] subscription to [mountPoint.destroySubject] is
    still waiting. *)
Record Facade : Type := mkFacade {
  facadeId : string;
  mountPoint : MountPoint;
  mutatorReducer : substate -> Action -> substate;
  destroyedState : bool;
  bufferedStateChanges : Z;
  _state : substate;
  reduxStoreStateSubject : list substate;
  stateSubjectCompleted : bool;
  destroyedSubject : list bool;
  subscribed : bool;
  seeds : bool;
  destroyHook : bool;
}.

Definition withDestroyedState (b : bool) (f : Facade) : Facade :=
  mkFacade (facadeId f) (mountPoint f) (mutatorReducer f) b
           (bufferedStateChanges f) (_state f) (reduxStoreStateSubject f)
           (stateSubjectCompleted f) (destroyedSubject f) (subscribed f) (seeds f) (destroyHook f).

Definition withBuffered (g : Z -> Z) (f : Facade) : Facade :=
  mkFacade (facadeId f) (mountPoint f) (mutatorReducer f) (destroyedState f)
           (g (bufferedStateChanges f)) (_state f) (reduxStoreStateSubject f)
           (stateSubjectCompleted f) (destroyedSubject f) (subscribed f) (seeds f) (destroyHook f).

(** [this.setState(state)]: [deepFreeze] returns the object it froze. *)
Definition setFacadeState (state : substate) (f : Facade) : Facade :=
  mkFacade (facadeId f) (mountPoint f) (mutatorReducer f) (destroyedState f)
           (bufferedStateChanges f) state (reduxStoreStateSubject f)
           (stateSubjectCompleted f) (destroyedSubject f) (subscribed f) (seeds f) (destroyHook f).

(** [this.reduxStoreStateSubject.next(state)]; a completed subject takes
    no more values. *)
Definition nextState (state : substate) (f : Facade) : Facade :=
  if stateSubjectCompleted f then f
  else mkFacade (facadeId f) (mountPoint f) (mutatorReducer f) (destroyedState f)
                (bufferedStateChanges f) (_state f)
                (reduxStoreStateSubject f ++ [state])
                (stateSubjectCompleted f) (destroyedSubject f) (subscribed f)
                (seeds f) (destroyHook f).

Definition completeStateSubject (f : Facade) : Facade :=
  mkFacade (facadeId f) (mountPoint f) (mutatorReducer f) (destroyedState f)
           (bufferedStateChanges f) (_state f) (reduxStoreStateSubject f)
           true (destroyedSubject f) (subscribed f) (seeds f) (destroyHook f).

Definition nextDestroyed (f : Facade) : Facade :=
  mkFacade (facadeId f) (mountPoint f) (mutatorReducer f) (destroyedState f)
           (bufferedStateChanges f) (_state f) (reduxStoreStateSubject f)
           (stateSubjectCompleted f) (destroyedSubject f ++ [true]) (subscribed f)
           (seeds f) (destroyHook f).

Definition withSubscribed (b : bool) (f : Facade) : Facade :=
  mkFacade (facadeId f) (mountPoint f) (mutatorReducer f) (destroyedState f)
           (bufferedStateChanges f) (_state f) (reduxStoreStateSubject f)
           (stateSubjectCompleted f) (destroyedSubject f) b (seeds f) (destroyHook f).

Definition withDestroyHook (b : bool) (f : Facade) : Facade :=
  mkFacade (facadeId f) (mountPoint f) (mutatorReducer f) (destroyedState f)
           (bufferedStateChanges f) (_state f) (reduxStoreStateSubject f)
           (stateSubjectCompleted f) (destroyedSubject f) (subscribed f) (seeds f) b.

Definition withSeeds (b : bool) (f : Facade) : Facade :=
  mkFacade (facadeId f) (mountPoint f) (mutatorReducer f) (destroyedState f)
           (bufferedStateChanges f) (_state f) (reduxStoreStateSubject f)
           (stateSubjectCompleted f) (destroyedSubject f) (subscribed f) b (destroyHook f).

(** [createActionName] *)
Definition createActionName (id : string) (mutatorMethodName : string) : string :=
  "[" +:+ id +:+ "] " +:+ mutatorMethodName.

(** The prefix [isActionForThisFacade] looks for. *)
Definition actionPrefix (id : string) : string := "[" +:+ id +:+ "] ".

(** [isActionForThisFacade] *)
Definition isActionForThisFacade (id : string) (action : Action) : bool :=
  match type action with
  | PStr t => bool_decide (indexOf (actionPrefix id) t = 0%Z)
  | _ => false
  end.

(** The reducer of [createReducerFromCommandsInvoker]. *)
Definition commandsReducer (f : Facade) (state : Root) (action : Action) : Root :=
  let preLocalState := createProxy (extractState (mountPoint f) state) in
  if destroyedState f || negb (isActionForThisFacade (facadeId f) action)
  then state
  else
    let postLocalState := mutatorReducer f preLocalState action in
    setState (mountPoint f) state postLocalState.

(** The reducer the constructor adds for the seeding action. *)
Definition initialStateReducer (f : Facade) (state : Root) (action : Action)
  : Facade * Root :=
  let initialFacadeStateAction := createActionName (facadeId f) "@@SET_STATE" in
  if bool_decide (type action = PStr initialFacadeStateAction)
  then
    let stateValue := initialState action in
    let f := setFacadeState stateValue f in
    let f := nextState (_state f) f in
    (f, setState (mountPoint f) state stateValue)
  else (f, state).

(** The reducers of one facade, in the order the constructor added them. *)
Definition facadeReducers (f : Facade) (state : Root) (action : Action)
  : Facade * Root :=
  let state := commandsReducer f state action in
  if seeds f then initialStateReducer f state action else (f, state).

(** Modelled from the spec: the reducer chain of the store; "chain order
    is insertion order; each reducer's output feeds as input to the
    next". *)
Fixpoint reduceChain (fs : list Facade) (state : Root) (action : Action)
  : list Facade * Root :=
  match fs with
  | [] => ([], state)
  | f :: fs' =>
      let '(f', state1) := facadeReducers f state action in
      let '(fs'', state2) := reduceChain fs' state1 action in
      (f' :: fs'', state2)
  end.

(** The store and everything around it. [dispatched] lists the actions
    handed to [dispatch], [producerCalls] counts the calls of
    initial-state functions, [nextId] is the identity of the next object
    to be created. *)
Record World : Type := mkWorld {
  root : Root;
  facades : list Facade;
  microtasks : list job;
  nextId : nat;
  registry : gset string;
  slicePaths : gset string;
  dispatched : list Action;
  producerCalls : nat;
}.

Definition withRoot (r : Root) (w : World) : World :=
  mkWorld r (facades w) (microtasks w) (nextId w) (registry w) (slicePaths w)
          (dispatched w) (producerCalls w).

Definition withFacades (g : list Facade -> list Facade) (w : World) : World :=
  mkWorld (root w) (g (facades w)) (microtasks w) (nextId w) (registry w)
          (slicePaths w) (dispatched w) (producerCalls w).

Definition withMicrotasks (g : list job -> list job) (w : World) : World :=
  mkWorld (root w) (facades w) (g (microtasks w)) (nextId w) (registry w)
          (slicePaths w) (dispatched w) (producerCalls w).

Definition withNextId (n : nat) (w : World) : World :=
  mkWorld (root w) (facades w) (microtasks w) n (registry w) (slicePaths w)
          (dispatched w) (producerCalls w).

Definition withRegistry (g : gset string -> gset string) (w : World) : World :=
  mkWorld (root w) (facades w) (microtasks w) (nextId w) (g (registry w))
          (slicePaths w) (dispatched w) (producerCalls w).

Definition withSlicePaths (g : gset string -> gset string) (w : World) : World :=
  mkWorld (root w) (facades w) (microtasks w) (nextId w) (registry w)
          (g (slicePaths w)) (dispatched w) (producerCalls w).

Definition withDispatched (g : list Action -> list Action) (w : World) : World :=
  mkWorld (root w) (facades w) (microtasks w) (nextId w) (registry w)
          (slicePaths w) (g (dispatched w)) (producerCalls w).

Definition withProducerCalls (n : nat) (w : World) : World :=
  mkWorld (root w) (facades w) (microtasks w) (nextId w) (registry w)
          (slicePaths w) (dispatched w) n.

(** Facade [i] of the world, changed by [g]. *)
Definition onFacade (i : nat) (g : Facade -> Facade) (w : World) : World :=
  withFacades (alter g i) w.

(** The callback the constructor hands to [mountPoint.subscribe]:
    [Object.assign({}, ...)] makes a new object of the current sub-state,
    delivered to the subject one micro-task later. *)
Definition onMountPointChange (i : nat) (w : World) : World :=
  match facades w !! i with
  | None => w
  | Some f =>
      let currentState :=
        SObject (nextId w) (fieldsOf (extractState (mountPoint f) (root w))) in
      let w := withNextId (S (nextId w)) w in
      let w := onFacade i (withBuffered Z.succ) w in
      let w := onFacade i (setFacadeState currentState) w in
      withMicrotasks (fun q => q ++ [JDeliver i currentState]) w
  end.

Definition notifySubscriber (w : World) (i : nat) : World :=
  match facades w !! i with
  | Some f => if subscribed f then onMountPointChange i w else w
  | None => w
  end.

(** Modelled from the spec: [dispatch] of the store: "synchronous,
    triggers the registered reducer chain and subscriber notifications
    before returning". *)
Definition dispatch (action : Action) (w : World) : World :=
  let w := withDispatched (fun l => l ++ [action]) w in
  let '(fs, r) := reduceChain (facades w) (root w) action in
  let w := withRoot r (withFacades (fun _ => fs) w) in
  foldl notifySubscriber w (seq 0 (length (facades w))).

Definition seedingAction (id : string) (value : substate) : Action :=
  mkAction (PStr (createActionName id "@@SET_STATE")) [] value.

(** A method of the commands proxy: [this.commands.name(...args)]. *)
Definition command (i : nat) (mutatorMethodName : string) (args : list prim)
  (w : World) : World :=
  match facades w !! i with
  | Some f =>
      dispatch (mkAction (PStr (createActionName (facadeId f) mutatorMethodName))
                         args SUndefined) w
  | None => w
  end.

(** One turn of the micro-task queue. *)
Definition runJob (w : World) : World :=
  match microtasks w with
  | [] => w
  | j :: q =>
      let w := withMicrotasks (fun _ => q) w in
      match j with
      | JSeed i value =>
          match facades w !! i with
          | Some f =>
              let w := dispatch (seedingAction (facadeId f) value) w in
              withMicrotasks (fun q => q ++ [JFinally i]) w
          | None => w
          end
      | JSeedSkipped i => withMicrotasks (fun q => q ++ [JFinally i]) w
      | JFinally i => onFacade i (withBuffered Z.pred) w
      | JDeliver i currentState =>
          onFacade i (nextState currentState)
            (onFacade i (withBuffered Z.pred) w)
      end
  end.

(** A pending initial-state promise of facade [i] settles. *)
Definition settle (i : nat) (p : promiseState) (w : World) : World :=
  match p with
  | Pending => w
  | Fulfilled value => withMicrotasks (fun q => q ++ [JSeed i value]) w
  | Rejected => withMicrotasks (fun q => q ++ [JSeedSkipped i]) w
  end.

(** The constructor, given the mount point and the reducer of the
    commands; the new facade is the last of the world. Modelled from the
    spec: [registerFacadeCommands] "records the owner id"; a duplicate id
    is reported by throwing, in which case no facade is built. *)
Definition construct (mp : MountPoint)
  (reducer : substate -> Action -> substate) (initial : InitialStateValue)
  (w : World) : option World :=
  if bool_decide (sliceName mp ∈ registry w) then None
  else
    let i := length (facades w) in
    let w := withRegistry (fun r => {[sliceName mp]} ∪ r) w in
    let st := extractState mp (root w) in
    let f := mkFacade (sliceName mp) mp reducer false 0 st [st] false [] false false
                      true in
    let w := withFacades (fun fs => fs ++ [f]) w in
    let w :=
      match initial with
      | InitValue SUndefined => w
      | InitValue s =>
          dispatch (seedingAction (sliceName mp) s) (onFacade i (withSeeds true) w)
      | InitProducer s =>
          let w := onFacade i (withSeeds true) w in
          let w := withProducerCalls (S (producerCalls w)) w in
          dispatch (seedingAction (sliceName mp) s) w
      | InitPromise p =>
          let w := onFacade i (withSeeds true) w in
          let w := onFacade i (withBuffered Z.succ) w in
          settle i p w
      end in
    Some (onFacade i (withSubscribed true) w).

(** [destroy()] *)
Definition destroy (i : nat) (w : World) : World :=
  match facades w !! i with
  | None => w
  | Some f =>
      let w := onFacade i (withSubscribed false) w in
      let w := withSlicePaths (fun s => s ∖ {[sliceName (mountPoint f)]}) w in
      let w := onFacade i (withDestroyedState true) w in
      let w := onFacade i completeStateSubject w in
      let w := onFacade i nextDestroyed w in
      withRegistry (fun r => r ∖ {[facadeId f]}) w
  end.

(** [mountPoint.destroySubject] fires: the subscription the constructor
    made with [take(1)] calls [destroy()], once. *)
Definition onMountPointDestroyed (i : nat) (w : World) : World :=
  match facades w !! i with
  | Some f =>
      if destroyHook f then destroy i (onFacade i (withDestroyHook false) w) else w
  | None => w
  end.

Definition isDestroyed (f : Facade) : bool := destroyedState f.

Definition hasBufferedStateChanges (f : Facade) : bool :=
  bool_decide (0 < bufferedStateChanges f)%Z.

(** The facade the constructor has built when it reaches the initial
    state. *)
Definition built (mp : MountPoint) (reducer : substate -> Action -> substate)
  (r : Root) : Facade :=
  let st := extractState mp r in
  mkFacade (sliceName mp) mp reducer false 0 st [st] false [] false false true.

(** What an observer sees of facade [i]: [hasBufferedStateChanges()],
    [state], and the last value of the subject (a [ReplaySubject(1)]). *)
Definition flagOf (i : nat) (w : World) : option bool :=
  hasBufferedStateChanges <$> facades w !! i.

Definition stateOf (i : nat) (w : World) : option substate :=
  _state <$> facades w !! i.

Definition replayed (i : nat) (w : World) : option substate :=
  facades w !! i ≫= fun f => last (reduxStoreStateSubject f).

(** What one call of [destroy()] makes of the facade. *)
Definition destroyedOnce (f : Facade) : Facade :=
  nextDestroyed (completeStateSubject (withDestroyedState true (withSubscribed false f))).

(** The states queued for delivery to the subject of facade [i]. *)
Fixpoint deliveriesOf (i : nat) (q : list job) : list substate :=
  match q with
  | [] => []
  | JDeliver j c :: q' =>
      if bool_decide (j = i) then c :: deliveriesOf i q' else deliveriesOf i q'
  | _ :: q' => deliveriesOf i q'
  end.

(** [a === b] on states: an object is identical to itself only. *)
Definition sameObject (a b : substate) : bool :=
  match a, b with
  | SUndefined, SUndefined => true
  | SObject i _, SObject j _ => bool_decide (i = j)
  | _, _ => false
  end.

(** What the reducer of the seeding action of [f] hands to the subject
    when [action] goes through it: [action.initialState], if the facade
    has that reducer and the action is its seeding action. *)
Definition seededBy (f : Facade) (action : Action) : list substate :=
  if seeds f
     && bool_decide (type action = PStr (createActionName (facadeId f) "@@SET_STATE"))
  then [initialState action]
  else [].

(** What a notification leaves alone: the reducers have run, the root
    state stays; identities are handed out upwards. *)
Record undisturbed (i : nat) (w w' : World) : Prop := mkUndisturbed {
  und_facade : facades w' !! i = facades w !! i;
  und_deliveries : deliveriesOf i (microtasks w') = deliveriesOf i (microtasks w);
  und_root : root w' = root w;
  und_nextId : nextId w <= nextId w';
}.

(** The facade whose counter a queued job lowers when its chain has
    run: a continuation is followed by its [finally]. *)
Definition jobOwner (j : job) : nat :=
  match j with
  | JSeed i _ | JSeedSkipped i | JFinally i | JDeliver i _ => i
  end.

(** How many queued jobs belong to facade [i]. *)
Fixpoint owed (i : nat) (q : list job) : Z :=
  match q with
  | [] => 0
  | j :: q' => (if bool_decide (jobOwner j = i) then 1 else 0) + owed i q'
  end.

(** [bufferedStateChanges] of facade [i] beyond its queued jobs. *)
Definition debt (i : nat) (w : World) : option Z :=
  (fun f => bufferedStateChanges f - owed i (microtasks w))%Z <$> facades w !! i.

(** What happens to a store between two looks at it: an action is
    dispatched, by a command of a facade or by anyone else; the micro-task
    queue runs its next job; a facade is destroyed, by hand or by its mount
    point. *)
Inductive event : Type :=
| EDispatch (action : Action)
| ECommand (i : nat) (mutatorMethodName : string) (args : list prim)
| ETurn
| EDestroy (i : nat)
| EMountPointDestroyed (i : nat).

Definition happen (w : World) (e : event) : World :=
  match e with
  | EDispatch action => dispatch action w
  | ECommand i m args => command i m args w
  | ETurn => runJob w
  | EDestroy i => destroy i w
  | EMountPointDestroyed i => onMountPointDestroyed i w
  end.

Definition run (w : World) (es : list event) : World := foldl happen w es.

(** A destroyed facade whose state subject has had the values [s]. *)
Definition sealed (s : list substate) (f : Facade) : Prop :=
  destroyedState f = true /\ stateSubjectCompleted f = true
  /\ subscribed f = false /\ reduxStoreStateSubject f = s.

Definition sealedAt (i : nat) (s : list substate) (w : World) : Prop :=
  exists f, facades w !! i = Some f /\ sealed s f.

(** *** Ownership of actions *)

Lemma indexOf_zero_prefix p s : indexOf p s = 0%Z <-> String.prefix p s = true.
Proof.
  unfold indexOf. destruct s as [|c s].
  - destruct p; simpl; split; done.
  - cbn [index]. destruct (String.prefix p (String c s)) eqn:E.
    + split; done.
    + destruct (index 0 p s); split; intros; (lia || done).
Qed.

Lemma prefix_append p m : String.prefix p (p +:+ m) = true.
Proof.
  induction p as [|c p IH]; [by destruct m|].
  rewrite StoreTs.append_cons. simpl. by destruct (ascii_dec c c).
Qed.

Lemma prefix_comparable a b s :
  String.prefix a s = true -> String.prefix b s = true ->
  String.prefix a b = true \/ String.prefix b a = true.
Proof.
  revert b s. induction a as [|c a IH]; intros b s; [left; by destruct b|].
  destruct b as [|c' b]; [by right|].
  destruct s as [|c'' s]; simpl; [done|].
  destruct (ascii_dec c c'') as [->|]; [|done].
  destruct (ascii_dec c' c'') as [->|]; [|done].
  destruct (ascii_dec c'' c''); [|done]. apply IH.
Qed.

Lemma createActionName_prefix id m :
  createActionName id m = actionPrefix id +:+ m.
Proof. unfold createActionName, actionPrefix. by rewrite !StoreTs.append_assoc. Qed.

Lemma owns_iff id action :
  isActionForThisFacade id action = true <->
  exists t, type action = PStr t /\ String.prefix (actionPrefix id) t = true.
Proof.
  unfold isActionForThisFacade. destruct (type action) as [| | | |t].
  1-4: split; [done | by intros (t & ? & _)].
  rewrite bool_decide_eq_true, indexOf_zero_prefix. split.
  - intros H. by exists t.
  - by intros (t' & [= <-] & H).
Qed.

Lemma commandsReducer_pass_through f state action :
  destroyedState f = true \/ isActionForThisFacade (facadeId f) action = false ->
  commandsReducer f state action = state.
Proof.
  intros H. unfold commandsReducer.
  destruct H as [-> | ->]; [done|]. by rewrite orb_true_r.
Qed.

(** An action of [idA] is nothing to a facade whose prefix is not
    comparable with that of [idA]. *)
Lemma foreign_action idA idB m :
  String.prefix (actionPrefix idA) (actionPrefix idB) = false ->
  String.prefix (actionPrefix idB) (actionPrefix idA) = false ->
  String.prefix (actionPrefix idB) (createActionName idA m) = false.
Proof.
  intros Hab Hba. destruct (String.prefix _ (createActionName idA m)) eqn:E; [|done].
  rewrite createActionName_prefix in E.
  destruct (prefix_comparable _ _ _ (prefix_append (actionPrefix idA) m) E); congruence.
Qed.

Lemma facadeReducers_foreign B state idA m args init :
  String.prefix (actionPrefix idA) (actionPrefix (facadeId B)) = false ->
  String.prefix (actionPrefix (facadeId B)) (actionPrefix idA) = false ->
  facadeReducers B state (mkAction (PStr (createActionName idA m)) args init)
  = (B, state).
Proof.
  intros Hab Hba. pose proof (foreign_action idA (facadeId B) m Hab Hba) as Hf.
  unfold facadeReducers. rewrite commandsReducer_pass_through.
  - destruct (seeds B); [|done]. unfold initialStateReducer. cbn [type].
    rewrite bool_decide_false; [done|]. intros E.
    apply (f_equal (fun p => match p with PStr t => t | _ => "" end)) in E.
    cbn beta iota in E.
    rewrite E, createActionName_prefix, prefix_append in Hf. done.
  - right. destruct (isActionForThisFacade _ _) eqn:E; [|done].
    apply owns_iff in E as (t & [= <-] & E). congruence.
Qed.


Lemma owns_own_action id m args init :
  isActionForThisFacade id (mkAction (PStr (createActionName id m)) args init) = true.
Proof.
  apply owns_iff. eexists. split; [reflexivity|].
  rewrite createActionName_prefix. apply prefix_append.
Qed.

(** The seeding action in the reducers of its facade: whatever the
    reducer of the commands makes of it, the sub-state becomes the
    value. *)
Lemma facadeReducers_unowned f r a :
  isActionForThisFacade (facadeId f) a = false -> facadeReducers f r a = (f, r).
Proof.
  intros Hown. unfold facadeReducers.
  rewrite commandsReducer_pass_through by (by right).
  destruct (seeds f); [|done]. unfold initialStateReducer.
  rewrite bool_decide_false; [done|]. intros E.
  destruct a as [t args init]. cbn [type] in E. subst t.
  by rewrite owns_own_action in Hown.
Qed.



(** *** Seeding the initial state *)

Lemma facadeReducers_seed f r v :
  seeds f = true ->
  stateSubjectCompleted f = false ->
  exists r1,
    facadeReducers f r (seedingAction (facadeId f) v)
    = (mkFacade (facadeId f) (mountPoint f) (mutatorReducer f) (destroyedState f)
                (bufferedStateChanges f) v (reduxStoreStateSubject f ++ [v])
                false (destroyedSubject f) (subscribed f) true (destroyHook f),
       setState (mountPoint f) r1 v).
Proof.
  intros Hs Hc. unfold facadeReducers. rewrite Hs.
  unfold initialStateReducer, seedingAction.
  cbn [type initialState]. rewrite bool_decide_true by done.
  unfold nextState. cbn [setFacadeState stateSubjectCompleted _state mountPoint].
  rewrite Hc. simpl. rewrite Hs. by eexists.
Qed.

(** The seeding action dispatched by the constructor: the callback of
    [subscribe] is not registered yet. *)
Lemma dispatch_seed_unsubscribed f r q n reg sp ds pc v :
  seeds f = true -> stateSubjectCompleted f = false -> subscribed f = false ->
  exists r1,
    dispatch (seedingAction (facadeId f) v) (mkWorld r [f] q n reg sp ds pc)
    = mkWorld (setState (mountPoint f) r1 v)
        [mkFacade (facadeId f) (mountPoint f) (mutatorReducer f) (destroyedState f)
                  (bufferedStateChanges f) v (reduxStoreStateSubject f ++ [v])
                  false (destroyedSubject f) false true (destroyHook f)]
        q n reg sp (ds ++ [seedingAction (facadeId f) v]) pc.
Proof.
  intros Hs Hc Hsub. destruct (facadeReducers_seed f r v Hs Hc) as [r1 Hr].
  exists r1. unfold dispatch.
  cbn [facades root withDispatched reduceChain]. rewrite Hr, Hsub.
  cbn [length seq foldl withRoot withFacades facades]. unfold notifySubscriber.
  cbn [facades lookup list_lookup subscribed]. reflexivity.
Qed.

(** The seeding action dispatched by the continuation of the promise:
    the callback of [subscribe] copies the new sub-state, counts it as
    buffered and defers its delivery. *)
Lemma dispatch_seed_subscribed f r q n reg sp ds pc v :
  seeds f = true -> stateSubjectCompleted f = false -> subscribed f = true ->
  (forall r s', extractState (mountPoint f) (setState (mountPoint f) r s') = s') ->
  exists r1,
    dispatch (seedingAction (facadeId f) v) (mkWorld r [f] q n reg sp ds pc)
    = mkWorld (setState (mountPoint f) r1 v)
        [mkFacade (facadeId f) (mountPoint f) (mutatorReducer f) (destroyedState f)
                  (Z.succ (bufferedStateChanges f)) (SObject n (fieldsOf v))
                  (reduxStoreStateSubject f ++ [v])
                  false (destroyedSubject f) true true (destroyHook f)]
        (q ++ [JDeliver 0 (SObject n (fieldsOf v))]) (S n) reg sp
        (ds ++ [seedingAction (facadeId f) v]) pc.
Proof.
  intros Hs Hc Hsub Hlens. destruct (facadeReducers_seed f r v Hs Hc) as [r1 Hr].
  exists r1. unfold dispatch.
  cbn [facades root withDispatched reduceChain]. rewrite Hr, Hsub.
  cbn [length seq foldl withRoot withFacades facades]. unfold notifySubscriber.
  cbn [facades lookup list_lookup subscribed]. unfold onMountPointChange.
  simpl. rewrite Hlens. reflexivity.
Qed.

Lemma construct_unfold mp reducer initial r n reg sp ds pc :
  sliceName mp ∉ reg ->
  construct mp reducer initial (mkWorld r [] [] n reg sp ds pc)
  = let w := mkWorld r [built mp reducer r] [] n ({[sliceName mp]} ∪ reg) sp ds pc in
    Some (onFacade 0 (withSubscribed true)
      match initial with
      | InitValue SUndefined => w
      | InitValue s =>
          dispatch (seedingAction (sliceName mp) s) (onFacade 0 (withSeeds true) w)
      | InitProducer s =>
          let w := onFacade 0 (withSeeds true) w in
          let w := withProducerCalls (S (producerCalls w)) w in
          dispatch (seedingAction (sliceName mp) s) w
      | InitPromise p =>
          let w := onFacade 0 (withSeeds true) w in
          let w := onFacade 0 (withBuffered Z.succ) w in
          settle 0 p w
      end).
Proof.
  intros Hreg. unfold construct. cbn [registry facades].
  rewrite bool_decide_false by done. reflexivity.
Qed.

(** The constructor with a value or a function: the seeding action has
    been dispatched, and has arrived, when it returns. *)
Lemma construct_sync mp reducer s r n reg sp ds (calls : nat) :
  sliceName mp ∉ reg ->
  exists r1,
    Some (onFacade 0 (withSubscribed true)
            (dispatch (seedingAction (sliceName mp) s)
               (mkWorld r [withSeeds true (built mp reducer r)] [] n
                        ({[sliceName mp]} ∪ reg) sp ds calls)))
    = Some (mkWorld (setState mp r1 s)
              [mkFacade (sliceName mp) mp reducer false 0 s
                        [extractState mp r; s] false [] true true true]
              [] n ({[sliceName mp]} ∪ reg) sp
              (ds ++ [seedingAction (sliceName mp) s]) calls).
Proof.
  intros Hreg.
  destruct (dispatch_seed_unsubscribed (withSeeds true (built mp reducer r)) r []
              n ({[sliceName mp]} ∪ reg) sp ds calls s eq_refl eq_refl eq_refl)
    as [r1 Hd].
  exists r1. cbn [withSeeds built facadeId] in Hd. cbn [withSeeds built].
  rewrite Hd. reflexivity.
Qed.

(** C6. In a store with no other facade and an empty micro-task queue,
    for a mount point that reads back what it stores: with a value or a
    zero-argument function as initial state the constructor dispatches
    the seeding action itself (the function is called once) and returns
    with the state seeded, nothing buffered and nothing queued; with a
    promise the constructor dispatches nothing, the state is what the
    mount point held, and [hasBufferedStateChanges()] is true from then
    on: while the promise is pending, when it is fulfilled, after its
    continuation has dispatched the seeding action, and until the
    delivery and the [finally] of the chain have run, after which the
    state shows the value and the flag is false. A rejected promise
    never dispatches, and the flag falls when its [finally] has run. *)
Theorem seeding_is_synchronous_unless_promised
  (mp : MountPoint) (reducer : substate -> Action -> substate) (w : World) :
  facades w = [] ->
  microtasks w = [] ->
  sliceName mp ∉ registry w ->
  (forall r s, extractState mp (setState mp r s) = s) ->
  let seed := seedingAction (sliceName mp) in
  let pre := extractState mp (root w) in
  (forall s, s <> SUndefined ->
     exists w',
       construct mp reducer (InitValue s) w = Some w'
       /\ dispatched w' = dispatched w ++ [seed s]
       /\ producerCalls w' = producerCalls w
       /\ stateOf 0 w' = Some s /\ replayed 0 w' = Some s
       /\ flagOf 0 w' = Some false /\ microtasks w' = [])
  /\ (forall s,
     exists w',
       construct mp reducer (InitProducer s) w = Some w'
       /\ dispatched w' = dispatched w ++ [seed s]
       /\ producerCalls w' = S (producerCalls w)
       /\ stateOf 0 w' = Some s /\ replayed 0 w' = Some s
       /\ flagOf 0 w' = Some false /\ microtasks w' = [])
  /\ (exists w0,
       construct mp reducer (InitPromise Pending) w = Some w0
       /\ (forall p, construct mp reducer (InitPromise p) w = Some (settle 0 p w0))
       /\ dispatched w0 = dispatched w /\ producerCalls w0 = producerCalls w
       /\ stateOf 0 w0 = Some pre /\ flagOf 0 w0 = Some true
       /\ microtasks w0 = []
       /\ (forall v,
            let w1 := settle 0 (Fulfilled v) w0 in
            let w2 := runJob w1 in
            let w3 := runJob w2 in
            let w4 := runJob w3 in
            dispatched w1 = dispatched w /\ flagOf 0 w1 = Some true
            /\ stateOf 0 w1 = Some pre
            /\ dispatched w2 = dispatched w ++ [seed v] /\ flagOf 0 w2 = Some true
            /\ flagOf 0 w3 = Some true
            /\ flagOf 0 w4 = Some false /\ microtasks w4 = []
            /\ dispatched w4 = dispatched w ++ [seed v]
            /\ (fieldsOf <$> stateOf 0 w4) = Some (fieldsOf v)
            /\ (fieldsOf <$> replayed 0 w4) = Some (fieldsOf v))
       /\ (let w1 := settle 0 Rejected w0 in
           let w2 := runJob w1 in
           let w3 := runJob w2 in
           flagOf 0 w1 = Some true /\ flagOf 0 w2 = Some true
           /\ flagOf 0 w3 = Some false /\ microtasks w3 = []
           /\ dispatched w3 = dispatched w /\ stateOf 0 w3 = Some pre)).
Proof.
  destruct w as [r fs q n reg sp ds pc]. cbn [facades microtasks registry root].
  intros -> -> Hreg Hlens. cbv zeta. set (pre := extractState mp r).
  split; [|split].
  - intros s Hs. rewrite construct_unfold by done.
    destruct (construct_sync mp reducer s r n reg sp ds pc Hreg) as [r1 Hr].
    destruct s as [|id fields]; [done|].
    eexists. split; [exact Hr|]. done.
  - intros s. rewrite construct_unfold by done.
    destruct (construct_sync mp reducer s r n reg sp ds (S pc) Hreg) as [r1 Hr].
    eexists. split; [exact Hr|]. done.
  - exists (mkWorld r [mkFacade (sliceName mp) mp reducer false 1 pre [pre] false []
                                 true true true]
                      [] n ({[sliceName mp]} ∪ reg) sp ds pc).
    split; [by rewrite construct_unfold by done|].
    split; [intros p; rewrite construct_unfold by done; by destruct p|].
    do 5 (split; [reflexivity|]). split.
    + intros v.
      destruct (dispatch_seed_subscribed
                  (mkFacade (sliceName mp) mp reducer false 1 pre [pre] false []
                            true true true) r []
                  n ({[sliceName mp]} ∪ reg) sp ds pc v
                  eq_refl eq_refl eq_refl Hlens) as [r1 Hd].
      cbn [facadeId mountPoint mutatorReducer destroyedState bufferedStateChanges
           reduxStoreStateSubject destroyedSubject destroyHook app] in Hd.
      unfold settle, withMicrotasks.
      cbn [root facades microtasks nextId registry slicePaths dispatched
           producerCalls app].
      assert (runJob
                (mkWorld r [mkFacade (sliceName mp) mp reducer false 1 pre [pre] false []
                                     true true true]
                         [JSeed 0 v] n ({[sliceName mp]} ∪ reg) sp ds pc)
              = mkWorld (setState mp r1 v)
                  [mkFacade (sliceName mp) mp reducer false 2 (SObject n (fieldsOf v))
                            [pre; v] false [] true true true]
                  [JDeliver 0 (SObject n (fieldsOf v)); JFinally 0] (S n)
                  ({[sliceName mp]} ∪ reg) sp (ds ++ [seedingAction (sliceName mp) v]) pc)
        as ->.
      { match type of Hd with
        | dispatch ?a ?w0 = _ =>
            transitivity (withMicrotasks (fun q => q ++ [JFinally 0]) (dispatch a w0))
        end; [reflexivity|].
        rewrite Hd. reflexivity. }
      by cbn.
    + by cbn.
Qed.

(** *** Destruction *)

Lemma destroy_lookup i w f :
  facades w !! i = Some f ->
  facades (destroy i w) !! i = Some (destroyedOnce f).
Proof.
  intros Hf. unfold destroy. rewrite Hf. unfold onFacade, withFacades, withSlicePaths, withRegistry.
  cbn [facades]. rewrite !list_lookup_alter_eq, Hf. reflexivity.
Qed.

Lemma destroy_rest i w f :
  facades w !! i = Some f ->
  root (destroy i w) = root w
  /\ microtasks (destroy i w) = microtasks w
  /\ dispatched (destroy i w) = dispatched w
  /\ nextId (destroy i w) = nextId w
  /\ registry (destroy i w) = registry w ∖ {[facadeId f]}
  /\ slicePaths (destroy i w) = slicePaths w ∖ {[sliceName (mountPoint f)]}.
Proof. intros Hf. unfold destroy. rewrite Hf. done. Qed.

Lemma removed_is_absent (x : string) (s : gset string) : x ∉ s ∖ {[x]}.
Proof. intros [_ Hx]%elem_of_difference. apply Hx. by apply elem_of_singleton. Qed.

Lemma removed_twice (x : string) (s : gset string) : s ∖ {[x]} ∖ {[x]} = s ∖ {[x]}.
Proof. by rewrite difference_difference_l_L, union_idemp_L. Qed.

(** C8, as the code has it. [destroy()] has no guard: every call
    unsubscribes from the mount point, frees its path, marks the facade
    destroyed, completes the state subject, hands [true] to the destroyed
    subject and deregisters the facade. After the first call the reducer
    of the facade passes every action through. A second call leaves the
    flags, the path set, the registry, the root state and the queue as
    the first left them, and hands a second [true] to the destroyed
    subject: the notification fires once per call. The subscription to
    the destroy notification of the mount point is taken once, so that
    path calls [destroy()] at most once. *)
Theorem destroy_repeats_its_notification (i : nat) (w : World) (f : Facade) :
  facades w !! i = Some f ->
  let w1 := destroy i w in
  let w2 := destroy i w1 in
  (exists f1,
     facades w1 !! i = Some f1
     /\ subscribed f1 = false /\ isDestroyed f1 = true
     /\ stateSubjectCompleted f1 = true
     /\ destroyedSubject f1 = destroyedSubject f ++ [true]
     /\ (sliceName (mountPoint f) ∉ slicePaths w1)
     /\ (facadeId f ∉ registry w1)
     /\ (forall state action, commandsReducer f1 state action = state)
     /\ (forall state, reduxStoreStateSubject (nextState state f1) = reduxStoreStateSubject f1)
     /\ facades w2 !! i = Some (nextDestroyed f1))
  /\ root w2 = root w1 /\ microtasks w2 = microtasks w1
  /\ dispatched w2 = dispatched w1
  /\ registry w2 = registry w1 /\ slicePaths w2 = slicePaths w1
  /\ (destroyedSubject <$> facades w2 !! i) = Some (destroyedSubject f ++ [true; true])
  /\ (destroyHook f = true ->
      onMountPointDestroyed i (onMountPointDestroyed i w)
      = onMountPointDestroyed i w).
Proof.
  intros Hf w1 w2.
  pose proof (destroy_lookup i w f Hf) as H1.
  pose proof (destroy_rest i w f Hf) as (Hr1 & Hq1 & Hd1 & Hn1 & Hreg1 & Hsp1).
  pose proof (destroy_lookup i w1 _ H1) as H2.
  pose proof (destroy_rest i w1 _ H1) as (Hr2 & Hq2 & Hd2 & Hn2 & Hreg2 & Hsp2).
  fold w1 in H1, Hr1, Hq1, Hd1, Hn1, Hreg1, Hsp1.
  fold w2 in H2, Hr2, Hq2, Hd2, Hn2, Hreg2, Hsp2.
  split.
  { exists (destroyedOnce f). split; [exact H1|].
    do 4 (split; [reflexivity|]).
    split; [rewrite Hsp1; apply removed_is_absent|].
    split; [rewrite Hreg1; apply removed_is_absent|].
    split; [intros state action; reflexivity|].
    split; [intros state; reflexivity|].
    rewrite H2. reflexivity. }
  do 3 (split; [assumption|]).
  split; [rewrite Hreg2, Hreg1; apply removed_twice|].
  split; [rewrite Hsp2, Hsp1; apply removed_twice|].
  split; [rewrite H2; cbn; by rewrite <- app_assoc|].
  intros Hhook.
  assert (onMountPointDestroyed i w
          = destroy i (onFacade i (withDestroyHook false) w)) as ->.
  { unfold onMountPointDestroyed. by rewrite Hf, Hhook. }
  unfold onMountPointDestroyed.
  assert (facades (onFacade i (withDestroyHook false) w) !! i
          = Some (withDestroyHook false f)) as Hf'.
  { unfold onFacade, withFacades. cbn [facades]. by rewrite list_lookup_alter_eq, Hf. }
  rewrite (destroy_lookup _ _ _ Hf'). reflexivity.
Qed.

(** *** Notification *)

Lemma deliveriesOf_app i q1 q2 :
  deliveriesOf i (q1 ++ q2) = deliveriesOf i q1 ++ deliveriesOf i q2.
Proof.
  induction q1 as [|j q1 IH]; [done|].
  destruct j as [k v|k|k|k c]; cbn [app deliveriesOf]; try exact IH.
  destruct (bool_decide (k = i)); [by rewrite IH | exact IH].
Qed.

Lemma undisturbed_refl i w : undisturbed i w w.
Proof. by split. Qed.

Lemma undisturbed_trans i w1 w2 w3 :
  undisturbed i w1 w2 -> undisturbed i w2 w3 -> undisturbed i w1 w3.
Proof.
  intros [Hf1 Hd1 Hr1 Hn1] [Hf2 Hd2 Hr2 Hn2].
  split; [congruence|congruence|congruence|lia].
Qed.

Lemma notify_other i j w : i <> j -> undisturbed i w (notifySubscriber w j).
Proof.
  intros Hij. unfold notifySubscriber.
  destruct (facades w !! j) as [g|] eqn:Hg; [|apply undisturbed_refl].
  destruct (subscribed g); [|apply undisturbed_refl].
  unfold onMountPointChange. rewrite Hg.
  unfold onFacade, withFacades, withMicrotasks, withNextId.
  split; cbn [facades microtasks root nextId].
  - by rewrite !list_lookup_alter_ne by done.
  - rewrite deliveriesOf_app. cbn [deliveriesOf].
    rewrite bool_decide_false by done. apply app_nil_r.
  - reflexivity.
  - lia.
Qed.

Lemma notify_others i l w :
  i ∉ l -> undisturbed i w (foldl notifySubscriber w l).
Proof.
  revert w. induction l as [|j l IH]; intros w Hl; [apply undisturbed_refl|].
  apply not_elem_of_cons in Hl as [Hij Hl]. cbn [foldl].
  eapply undisturbed_trans; [apply notify_other, Hij | apply IH, Hl].
Qed.

Lemma notify_self i w f :
  facades w !! i = Some f ->
  subscribed f = true ->
  let c := SObject (nextId w) (fieldsOf (extractState (mountPoint f) (root w))) in
  let w' := notifySubscriber w i in
  deliveriesOf i (microtasks w') = deliveriesOf i (microtasks w) ++ [c]
  /\ facades w' !! i = Some (setFacadeState c (withBuffered Z.succ f))
  /\ root w' = root w
  /\ nextId w' = S (nextId w).
Proof.
  intros Hf Hsub c w'. subst w'. unfold notifySubscriber. rewrite Hf, Hsub.
  unfold onMountPointChange. rewrite Hf.
  unfold onFacade, withFacades, withMicrotasks, withNextId.
  cbn [facades microtasks root nextId].
  split; [|split; [|done]].
  - rewrite deliveriesOf_app. cbn [deliveriesOf].
    by rewrite bool_decide_true by done.
  - by rewrite !list_lookup_alter_eq, Hf.
Qed.

(** The reducers of a facade touch its state and its subject only. *)
Lemma facadeReducers_keeps f r a :
  subscribed (facadeReducers f r a).1 = subscribed f
  /\ mountPoint (facadeReducers f r a).1 = mountPoint f.
Proof.
  unfold facadeReducers. destruct (seeds f); [|done].
  unfold initialStateReducer. case_bool_decide; [|done].
  unfold nextState. cbn [fst]. by destruct (stateSubjectCompleted _).
Qed.

Lemma reduceChain_lookup fs r a i f :
  fs !! i = Some f ->
  exists g, (reduceChain fs r a).1 !! i = Some g
            /\ subscribed g = subscribed f /\ mountPoint g = mountPoint f.
Proof.
  revert r i. induction fs as [|h fs IH]; intros r i Hi; [done|].
  cbn [reduceChain].
  pose proof (facadeReducers_keeps h r a) as Hk.
  destruct (facadeReducers h r a) as [h' r1].
  specialize (IH r1). destruct (reduceChain fs r1 a) as [fs' r2].
  destruct i as [|i]; cbn [fst lookup list_lookup] in *.
  - injection Hi as <-. by exists h'.
  - apply IH, Hi.
Qed.

Lemma reduceChain_length fs r a : length (reduceChain fs r a).1 = length fs.
Proof.
  revert r. induction fs as [|h fs IH]; intros r; [done|].
  cbn [reduceChain]. destruct (facadeReducers h r a) as [h' r1].
  specialize (IH r1). destruct (reduceChain fs r1 a) as [fs' r2].
  cbn [fst length] in *. by rewrite IH.
Qed.

(** One [dispatch]: the subscriber of facade [i] queues one new object,
    a copy of its sub-state after the reducers. *)
Lemma dispatch_delivers i w f a :
  facades w !! i = Some f ->
  subscribed f = true ->
  let w' := dispatch a w in
  exists n g,
    nextId w <= n < nextId w'
    /\ deliveriesOf i (microtasks w')
       = deliveriesOf i (microtasks w)
         ++ [SObject n (fieldsOf (extractState (mountPoint f) (root w')))]
    /\ facades w' !! i = Some g
    /\ subscribed g = true /\ mountPoint g = mountPoint f.
Proof.
  intros Hf Hsub w'. subst w'. unfold dispatch.
  cbn [facades root withDispatched].
  destruct (reduceChain_lookup _ (root w) a _ _ Hf) as (g & Hg & Hgs & Hgm).
  pose proof (reduceChain_length (facades w) (root w) a) as Hlen.
  destruct (reduceChain (facades w) (root w) a) as [fs r].
  cbn [fst] in Hg, Hlen.
  unfold withRoot, withFacades, withDispatched. cbn [facades root microtasks nextId registry
    slicePaths dispatched producerCalls].
  assert (i < length fs) as Hi by (eapply lookup_lt_Some, Hg).
  replace (length fs) with (i + S (length fs - S i)) by lia.
  rewrite seq_app, foldl_app. cbn [seq foldl Nat.add].
  set (w0 := mkWorld r fs (microtasks w) (nextId w) (registry w) (slicePaths w)
                     (dispatched w ++ [a]) (producerCalls w)).
  assert (undisturbed i w0 (foldl notifySubscriber w0 (seq 0 i))) as [Hf1 Hd1 Hr1 Hn1].
  { apply notify_others. rewrite elem_of_seq. lia. }
  set (w1 := foldl notifySubscriber w0 (seq 0 i)) in *.
  assert (facades w1 !! i = Some g) as Hg1 by (rewrite Hf1; exact Hg).
  rewrite <- Hgs in Hsub.
  destruct (notify_self i w1 g Hg1 Hsub) as (Hd2 & Hf2 & Hr2 & Hn2).
  set (w2 := notifySubscriber w1 i) in *.
  assert (undisturbed i w2 (foldl notifySubscriber w2 (seq (S i) (length fs - S i))))
    as [Hf3 Hd3 Hr3 Hn3].
  { apply notify_others. rewrite elem_of_seq. lia. }
  set (w3 := foldl notifySubscriber w2 (seq (S i) (length fs - S i))) in *.
  exists (nextId w1), (setFacadeState
    (SObject (nextId w1) (fieldsOf (extractState (mountPoint g) (root w1))))
    (withBuffered Z.succ g)).
  split; [change (nextId w0) with (nextId w) in Hn1; lia|].
  split; [|split; [by rewrite Hf3, Hf2|split; [exact Hsub|exact Hgm]]].
  rewrite Hd3, Hd2, Hd1, Hr3, Hr2, Hgm. reflexivity.
Qed.

(** The reducers of a facade whose subject is not completed: what they
    add to the subject, and what they keep. *)
Lemma facadeReducers_subject f r a :
  stateSubjectCompleted f = false ->
  let g := (facadeReducers f r a).1 in
  reduxStoreStateSubject g = reduxStoreStateSubject f ++ seededBy f a
  /\ stateSubjectCompleted g = false
  /\ subscribed g = subscribed f
  /\ mountPoint g = mountPoint f
  /\ seeds g = seeds f
  /\ facadeId g = facadeId f.
Proof.
  intros Hc. unfold facadeReducers, seededBy.
  destruct (seeds f) eqn:Hs; cbn [andb fst]; [|by rewrite app_nil_r, Hs].
  unfold initialStateReducer. case_bool_decide; cbn [fst].
  - unfold nextState. cbn [setFacadeState stateSubjectCompleted]. by rewrite Hc.
  - by rewrite app_nil_r, Hs.
Qed.

Lemma reduceChain_through fs r a i f :
  fs !! i = Some f ->
  exists r0, (reduceChain fs r a).1 !! i = Some (facadeReducers f r0 a).1.
Proof.
  revert r i. induction fs as [|h fs IH]; intros r i Hi; [done|].
  cbn [reduceChain].
  destruct (facadeReducers h r a) as [h' r1] eqn:Hh.
  specialize (IH r1). destruct (reduceChain fs r1 a) as [fs' r2].
  destruct i as [|i]; cbn [fst lookup list_lookup] in *.
  - injection Hi as <-. exists r. by rewrite Hh.
  - apply IH, Hi.
Qed.

(** One [dispatch], seen from a subscribed facade: its reducers run, then
    its subscriber makes one new object of the sub-state, takes it as the
    state of the facade and queues it for the subject. *)
Lemma dispatch_notifies i w f a :
  facades w !! i = Some f ->
  subscribed f = true ->
  stateSubjectCompleted f = false ->
  let w' := dispatch a w in
  exists n g,
    nextId w <= n < nextId w'
    /\ deliveriesOf i (microtasks w')
       = deliveriesOf i (microtasks w)
         ++ [SObject n (fieldsOf (extractState (mountPoint f) (root w')))]
    /\ facades w' !! i
       = Some (setFacadeState
                 (SObject n (fieldsOf (extractState (mountPoint f) (root w'))))
                 (withBuffered Z.succ g))
    /\ reduxStoreStateSubject g = reduxStoreStateSubject f ++ seededBy f a
    /\ stateSubjectCompleted g = false
    /\ subscribed g = true
    /\ mountPoint g = mountPoint f
    /\ seeds g = seeds f
    /\ facadeId g = facadeId f.
Proof.
  intros Hf Hsub Hc w'. subst w'. unfold dispatch.
  cbn [facades root withDispatched].
  destruct (reduceChain_through _ (root w) a _ _ Hf) as (r0 & Hg).
  destruct (facadeReducers_subject f r0 a Hc) as (Hgj & Hgc & Hgs & Hgm & Hgd & Hgi).
  set (g := (facadeReducers f r0 a).1) in *.
  pose proof (reduceChain_length (facades w) (root w) a) as Hlen.
  destruct (reduceChain (facades w) (root w) a) as [fs r].
  cbn [fst] in Hg, Hlen.
  unfold withRoot, withFacades, withDispatched. cbn [facades root microtasks nextId registry
    slicePaths dispatched producerCalls].
  assert (i < length fs) as Hi by (eapply lookup_lt_Some, Hg).
  replace (length fs) with (i + S (length fs - S i)) by lia.
  rewrite seq_app, foldl_app. cbn [seq foldl Nat.add].
  set (w0 := mkWorld r fs (microtasks w) (nextId w) (registry w) (slicePaths w)
                     (dispatched w ++ [a]) (producerCalls w)).
  assert (undisturbed i w0 (foldl notifySubscriber w0 (seq 0 i))) as [Hf1 Hd1 Hr1 Hn1].
  { apply notify_others. rewrite elem_of_seq. lia. }
  set (w1 := foldl notifySubscriber w0 (seq 0 i)) in *.
  assert (facades w1 !! i = Some g) as Hg1 by (rewrite Hf1; exact Hg).
  rewrite <- Hgs in Hsub.
  destruct (notify_self i w1 g Hg1 Hsub) as (Hd2 & Hf2 & Hr2 & Hn2).
  set (w2 := notifySubscriber w1 i) in *.
  assert (undisturbed i w2 (foldl notifySubscriber w2 (seq (S i) (length fs - S i))))
    as [Hf3 Hd3 Hr3 Hn3].
  { apply notify_others. rewrite elem_of_seq. lia. }
  set (w3 := foldl notifySubscriber w2 (seq (S i) (length fs - S i))) in *.
  exists (nextId w1), g.
  split; [change (nextId w0) with (nextId w) in Hn1; lia|].
  rewrite Hd3, Hd2, Hd1, Hf3, Hf2, Hr3, Hr2, Hgm.
  by repeat split.
Qed.

(** Notifications queue deliveries and nothing else. *)
Lemma notify_queues_deliveries l :
  forall w,
    Forall (fun j => exists k c, j = JDeliver k c) (microtasks w) ->
    Forall (fun j => exists k c, j = JDeliver k c)
           (microtasks (foldl notifySubscriber w l)).
Proof.
  induction l as [|j l IH]; intros w Hq; [done|]. cbn [foldl]. apply IH.
  unfold notifySubscriber. destruct (facades w !! j) as [g|] eqn:Hg; [|done].
  destruct (subscribed g); [|done]. unfold onMountPointChange. rewrite Hg.
  unfold onFacade, withFacades, withMicrotasks, withNextId. cbn [microtasks].
  apply Forall_app. split; [done|]. repeat constructor. by eexists _, _.
Qed.

Lemma dispatch_queues_deliveries a w :
  Forall (fun j => exists k c, j = JDeliver k c) (microtasks w) ->
  Forall (fun j => exists k c, j = JDeliver k c) (microtasks (dispatch a w)).
Proof.
  intros Hq. unfold dispatch. cbn [facades root withDispatched].
  destruct (reduceChain (facades w) (root w) a) as [fs r].
  by apply notify_queues_deliveries.
Qed.

(** The queued deliveries run, one per turn of the queue: each is handed
    to the subject of its facade, and nothing else changes. *)
Lemma deliver_all q :
  forall w,
    microtasks w = q ->
    Forall (fun j => exists k c, j = JDeliver k c) q ->
    let w' := Nat.iter (length q) runJob w in
    microtasks w' = [] /\ root w' = root w /\ nextId w' = nextId w
    /\ dispatched w' = dispatched w
    /\ forall i f,
         facades w !! i = Some f ->
         facades w' !! i
         = Some (foldl (fun f c => nextState c (withBuffered Z.pred f)) f
                       (deliveriesOf i q)).
Proof.
  induction q as [|j q IH]; intros w Hq HP; [by cbn|].
  apply Forall_cons in HP as [(k & c & ->) HP].
  cbn [length]. rewrite Nat.iter_succ_r.
  assert (runJob w
          = onFacade k (nextState c)
              (onFacade k (withBuffered Z.pred) (withMicrotasks (fun _ => q) w))) as Hrun.
  { unfold runJob. by rewrite Hq. }
  destruct (IH (runJob w)) as (H1 & H2 & H3 & H4 & H5); [by rewrite Hrun|done|].
  cbv zeta. rewrite H1, H2, H3, H4. rewrite Hrun at 1 2 3.
  do 4 (split; [done|]). intros i f Hf. cbn [deliveriesOf].
  case_bool_decide as Hk.
  - subst k. cbn [foldl]. apply H5. rewrite Hrun.
    unfold onFacade, withFacades, withMicrotasks. cbn [facades].
    by rewrite !list_lookup_alter_eq, Hf.
  - apply H5. rewrite Hrun.
    unfold onFacade, withFacades, withMicrotasks. cbn [facades].
    by rewrite !list_lookup_alter_ne.
Qed.

(** One action is dispatched to a store whose queue is empty, and the
    queue runs until it is empty again. *)
Lemma dispatch_then_deliver i w f a :
  facades w !! i = Some f ->
  subscribed f = true ->
  stateSubjectCompleted f = false ->
  microtasks w = [] ->
  let w1 := dispatch a w in
  let w1' := Nat.iter (length (microtasks w1)) runJob w1 in
  exists n f1,
    nextId w <= n < nextId w1'
    /\ deliveriesOf i (microtasks w1)
       = [SObject n (fieldsOf (extractState (mountPoint f) (root w1)))]
    /\ stateOf i w1
       = Some (SObject n (fieldsOf (extractState (mountPoint f) (root w1))))
    /\ facades w1' !! i = Some f1
    /\ reduxStoreStateSubject f1
       = reduxStoreStateSubject f ++ seededBy f a
         ++ [SObject n (fieldsOf (extractState (mountPoint f) (root w1)))]
    /\ _state f1 = SObject n (fieldsOf (extractState (mountPoint f) (root w1)))
    /\ stateSubjectCompleted f1 = false
    /\ subscribed f1 = true
    /\ mountPoint f1 = mountPoint f
    /\ seeds f1 = seeds f
    /\ facadeId f1 = facadeId f
    /\ microtasks w1' = []
    /\ root w1' = root w1.
Proof.
  intros Hf Hsub Hc Hq w1 w1'.
  destruct (dispatch_notifies i w f a Hf Hsub Hc)
    as (n & g & Hn & Hd & Hg & Hgj & Hgc & Hgs & Hgm & Hgd & Hgi).
  fold w1 in Hn, Hd, Hg. rewrite Hq in Hd. cbn [deliveriesOf app] in Hd.
  assert (Forall (fun j => exists k c, j = JDeliver k c) (microtasks w1)) as HP.
  { apply dispatch_queues_deliveries. by rewrite Hq. }
  destruct (deliver_all (microtasks w1) w1 eq_refl HP) as (H1 & H2 & H3 & _ & H5).
  fold w1' in H1, H2, H3, H5.
  specialize (H5 i _ Hg). rewrite Hd in H5. cbn [foldl] in H5.
  eexists n, _. split; [rewrite H3; exact Hn|]. split; [exact Hd|].
  split; [unfold stateOf; by rewrite Hg|]. split; [exact H5|].
  unfold nextState.
  cbn [withBuffered setFacadeState stateSubjectCompleted reduxStoreStateSubject _state
       subscribed mountPoint seeds facadeId].
  rewrite Hgc.
  cbn [withBuffered setFacadeState stateSubjectCompleted reduxStoreStateSubject _state
       subscribed mountPoint seeds facadeId].
  rewrite Hgj, <- app_assoc. by repeat split.
Qed.

(** C9, as the code has it. Each time an action is dispatched, the
    subscriber of a subscribed facade makes one object with a new
    identity and the properties of the sub-state the facade then has,
    takes it as the state of the facade at once and queues it; when the
    queue has run, the subject has received it. Before that, and within
    the dispatch, the subject has received the seed, if the action is the
    seeding action of the facade. The objects made for two dispatches are
    not identical, whether or not the sub-state changed. *)
Theorem every_notification_delivers_a_new_object
  (i : nat) (w : World) (f : Facade) (a1 a2 : Action) :
  facades w !! i = Some f ->
  subscribed f = true ->
  stateSubjectCompleted f = false ->
  microtasks w = [] ->
  let w1 := dispatch a1 w in
  let w1' := Nat.iter (length (microtasks w1)) runJob w1 in
  let w2 := dispatch a2 w1' in
  let w2' := Nat.iter (length (microtasks w2)) runJob w2 in
  let copy n s :=
    SObject n match s with SUndefined => [] | SObject _ fields => fields end in
  exists n1 n2 f1 f2,
    let c1 := copy n1 (extractState (mountPoint f) (root w1)) in
    let c2 := copy n2 (extractState (mountPoint f) (root w2)) in
    nextId w <= n1 /\ n1 < n2
    /\ sameObject c1 c2 = false
    /\ deliveriesOf i (microtasks w1) = [c1]
    /\ stateOf i w1 = Some c1
    /\ facades w1' !! i = Some f1
    /\ reduxStoreStateSubject f1 = reduxStoreStateSubject f ++ seededBy f a1 ++ [c1]
    /\ deliveriesOf i (microtasks w2) = [c2]
    /\ stateOf i w2 = Some c2
    /\ facades w2' !! i = Some f2
    /\ reduxStoreStateSubject f2 = reduxStoreStateSubject f1 ++ seededBy f a2 ++ [c2]
    /\ microtasks w2' = []
    /\ root w2' = root w2.
Proof.
  intros Hf Hsub Hc Hq w1 w1' w2 w2' copy.
  destruct (dispatch_then_deliver i w f a1 Hf Hsub Hc Hq)
    as (n1 & f1 & Hn1 & Hd1 & Hs1 & Hf1 & Hj1 & _ & Hc1 & Hsub1 & Hm1 & Hseeds1 & Hid1
        & Hq1 & Hr1).
  fold w1 in Hn1, Hd1, Hs1, Hf1, Hj1, Hq1, Hr1. fold w1' in Hn1, Hf1, Hq1, Hr1.
  destruct (dispatch_then_deliver i w1' f1 a2 Hf1 Hsub1 Hc1 Hq1)
    as (n2 & f2 & Hn2 & Hd2 & Hs2 & Hf2 & Hj2 & _ & _ & _ & _ & _ & _ & Hq2 & Hr2).
  fold w2 in Hn2, Hd2, Hs2, Hf2, Hj2, Hq2, Hr2. fold w2' in Hn2, Hf2, Hq2, Hr2.
  rewrite Hm1 in Hd2, Hs2, Hj2.
  assert (seededBy f1 a2 = seededBy f a2) as Hseed
      by (unfold seededBy; by rewrite Hseeds1, Hid1).
  rewrite Hseed in Hj2.
  exists n1, n2, f1, f2. cbv zeta.
  split; [lia|]. split; [lia|].
  split; [cbn; apply bool_decide_eq_false; lia|].
  by repeat split.
Qed.

(** *** The counter of buffered state changes *)

Lemma owed_app i q1 q2 : owed i (q1 ++ q2) = (owed i q1 + owed i q2)%Z.
Proof. induction q1 as [|j q1 IH]; cbn [app owed]; lia. Qed.

Lemma owed_nonneg i q : (0 <= owed i q)%Z.
Proof. induction q as [|j q IH]; cbn [owed]; [done|]. case_bool_decide; lia. Qed.

Lemma owed_pos i q : (0 < owed i q)%Z <-> exists j, j ∈ q /\ jobOwner j = i.
Proof.
  induction q as [|j q IH]; cbn [owed].
  - split; [lia|]. intros (j & Hj & _). by apply elem_of_nil in Hj.
  - pose proof (owed_nonneg i q). case_bool_decide as Hj.
    + split; [|lia]. intros _. exists j. split; [constructor|done].
    + rewrite Z.add_0_l, IH. split.
      * intros (j' & Hin & Ho). exists j'. split; [by constructor|done].
      * intros (j' & Hin & Ho). apply elem_of_cons in Hin as [->|Hin]; [done|].
        by exists j'.
Qed.

Lemma facadeReducers_counter f r a :
  bufferedStateChanges (facadeReducers f r a).1 = bufferedStateChanges f.
Proof.
  unfold facadeReducers. destruct (seeds f); [|done].
  unfold initialStateReducer. case_bool_decide; [|done].
  unfold nextState. cbn [fst]. by destruct (stateSubjectCompleted _).
Qed.

Lemma reduceChain_counters fs r a :
  bufferedStateChanges <$> (reduceChain fs r a).1 = bufferedStateChanges <$> fs.
Proof.
  revert r. induction fs as [|h fs IH]; intros r; [done|].
  cbn [reduceChain]. pose proof (facadeReducers_counter h r a) as Hh.
  destruct (facadeReducers h r a) as [h' r1].
  specialize (IH r1). destruct (reduceChain fs r1 a) as [fs' r2].
  cbn [fst fmap list_fmap] in *. by rewrite Hh, IH.
Qed.

Lemma debt_notify j i w : debt i (notifySubscriber w j) = debt i w.
Proof.
  unfold notifySubscriber. destruct (facades w !! j) as [g|] eqn:Hg; [|done].
  destruct (subscribed g); [|done]. unfold onMountPointChange. rewrite Hg.
  unfold debt, onFacade, withFacades, withMicrotasks, withNextId.
  cbn [facades microtasks]. rewrite owed_app. cbn [owed jobOwner].
  destruct (decide (j = i)) as [->|Hne].
  - rewrite !list_lookup_alter_eq, Hg, bool_decide_true by done. cbn. f_equal; lia.
  - rewrite !list_lookup_alter_ne, bool_decide_false by done.
    destruct (facades w !! i); cbn; [f_equal; lia | done].
Qed.

Lemma debt_notify_all l i : forall w, debt i (foldl notifySubscriber w l) = debt i w.
Proof.
  induction l as [|j l IH]; intros w; cbn [foldl]; [done|].
  by rewrite IH, debt_notify.
Qed.

Lemma debt_dispatch a i w : debt i (dispatch a w) = debt i w.
Proof.
  unfold dispatch. cbn [facades root withDispatched].
  pose proof (reduceChain_counters (facades w) (root w) a) as Hc.
  destruct (reduceChain (facades w) (root w) a) as [fs r]. cbn [fst] in Hc.
  rewrite debt_notify_all. unfold debt, withRoot, withFacades, withDispatched.
  cbn [facades microtasks].
  apply (f_equal (fun l => l !! i)) in Hc. rewrite !list_lookup_fmap in Hc.
  destruct (fs !! i), (facades w !! i); cbn in *; congruence.
Qed.

Lemma debt_onFacade g j i w :
  (forall f, bufferedStateChanges (g f) = bufferedStateChanges f) ->
  debt i (onFacade j g w) = debt i w.
Proof.
  intros Hg. unfold debt, onFacade, withFacades. cbn [facades microtasks].
  destruct (decide (j = i)) as [->|Hne].
  - rewrite list_lookup_alter_eq. destruct (facades w !! i); cbn; [|done].
    by rewrite Hg.
  - by rewrite list_lookup_alter_ne.
Qed.

Lemma debt_queue i w q :
  owed i q = owed i (microtasks w) ->
  debt i (withMicrotasks (fun _ => q) w) = debt i w.
Proof.
  intros Hq. unfold debt, withMicrotasks. cbn [facades microtasks]. by rewrite Hq.
Qed.

Lemma debt_runJob i w : debt i (runJob w) = debt i w.
Proof.
  unfold runJob. destruct (microtasks w) as [|j q] eqn:Hq; [done|].
  destruct j as [k v|k|k|k c].
  - cbn [facades withMicrotasks].
    destruct (facades w !! k) as [f|] eqn:Hk.
    + unfold debt at 1. cbn [withMicrotasks facades microtasks].
      pose proof (debt_dispatch (seedingAction (facadeId f) v) i
                    (withMicrotasks (fun _ => q) w)) as Hd.
      unfold debt at 1 in Hd.
      destruct (facades (dispatch _ _) !! i) as [f'|] eqn:Hf'; cbn in *.
      * unfold debt in *. cbn [withMicrotasks facades microtasks] in Hd.
        rewrite Hq. cbn [owed jobOwner]. rewrite owed_app. cbn [owed jobOwner].
        destruct (facades w !! i); cbn in *; [|done]. injection Hd as Hd.
        f_equal; case_bool_decide; lia.
      * unfold debt in *. cbn [withMicrotasks facades microtasks] in Hd.
        by destruct (facades w !! i).
    + unfold debt. cbn [withMicrotasks facades microtasks]. rewrite Hq.
      cbn [owed jobOwner]. case_bool_decide as Hki; [|by rewrite Z.add_0_l].
      subst k. by rewrite Hk.
  - unfold debt, withMicrotasks. cbn [facades microtasks]. rewrite Hq, owed_app.
    cbn [owed jobOwner]. destruct (facades w !! i); cbn; [|done].
    f_equal; case_bool_decide; lia.
  - unfold debt, onFacade, withFacades, withMicrotasks. cbn [facades microtasks].
    rewrite Hq. cbn [owed jobOwner]. destruct (decide (k = i)) as [->|Hne].
    + rewrite list_lookup_alter_eq, bool_decide_true by done.
      destruct (facades w !! i); cbn; [|done]. f_equal; lia.
    + rewrite list_lookup_alter_ne, bool_decide_false by done.
      destruct (facades w !! i); cbn; [|done]. f_equal; lia.
  - unfold debt, onFacade, withFacades, withMicrotasks. cbn [facades microtasks].
    rewrite Hq. cbn [owed jobOwner]. destruct (decide (k = i)) as [->|Hne].
    + rewrite !list_lookup_alter_eq, bool_decide_true by done.
      destruct (facades w !! i) as [f|]; cbn; [|done]. f_equal.
      unfold nextState. cbn [withBuffered stateSubjectCompleted].
      destruct (stateSubjectCompleted f); cbn; lia.
    + rewrite !list_lookup_alter_ne, bool_decide_false by done.
      destruct (facades w !! i); cbn; [|done]. f_equal; lia.
Qed.

Lemma debt_destroy j i w : debt i (destroy j w) = debt i w.
Proof.
  unfold destroy. destruct (facades w !! j) as [f|]; [|done].
  unfold debt at 1. cbn [withRegistry withSlicePaths facades microtasks].
  change (debt i (onFacade j nextDestroyed (onFacade j completeStateSubject
            (onFacade j (withDestroyedState true)
               (withSlicePaths (fun s => s ∖ {[sliceName (mountPoint f)]})
                  (onFacade j (withSubscribed false) w))))) = debt i w).
  rewrite !debt_onFacade by done. unfold debt, withSlicePaths. cbn [facades microtasks].
  fold (debt i (onFacade j (withSubscribed false) w)). by rewrite debt_onFacade.
Qed.

Lemma debt_happen e i w : debt i (happen w e) = debt i w.
Proof.
  destruct e as [a|k m args| |k|k]; cbn [happen].
  - apply debt_dispatch.
  - unfold command. destruct (facades w !! k); [apply debt_dispatch|done].
  - apply debt_runJob.
  - apply debt_destroy.
  - unfold onMountPointDestroyed. destruct (facades w !! k) as [f|]; [|done].
    destruct (destroyHook f); [|done]. by rewrite debt_destroy, debt_onFacade.
Qed.

Lemma debt_run es i : forall w, debt i (run w es) = debt i w.
Proof.
  unfold run. induction es as [|e es IH]; intros w; cbn [foldl]; [done|].
  by rewrite IH, debt_happen.
Qed.

(** While a facade owes nothing but its queued jobs, its flag says
    whether one of them is still queued; a facade whose initial-state
    promise is pending owes one more, and its flag is true. *)
Theorem buffered_flag_follows_the_queue
  (w : World) (es : list event) (i : nat) (f : Facade) (pending : Z) :
  facades w !! i = Some f ->
  (0 <= pending)%Z ->
  bufferedStateChanges f = (owed i (microtasks w) + pending)%Z ->
  exists f',
    facades (run w es) !! i = Some f'
    /\ bufferedStateChanges f' = (owed i (microtasks (run w es)) + pending)%Z
    /\ (0 < pending -> hasBufferedStateChanges f' = true)%Z
    /\ (pending = 0%Z ->
        (hasBufferedStateChanges f' = true <->
         exists j, j ∈ microtasks (run w es) /\ jobOwner j = i)
        /\ (microtasks (run w es) = [] -> hasBufferedStateChanges f' = false)).
Proof.
  intros Hf Hp Hc. pose proof (debt_run es i w) as Hd. unfold debt in Hd.
  rewrite Hf in Hd. destruct (facades (run w es) !! i) as [f'|]; [|done].
  cbn in Hd. injection Hd as Hd. exists f'. split; [done|].
  assert (bufferedStateChanges f' = (owed i (microtasks (run w es)) + pending)%Z)
    as Hc' by lia.
  split; [exact Hc'|]. unfold hasBufferedStateChanges.
  pose proof (owed_nonneg i (microtasks (run w es))) as Hn. split.
  - intros Hpos. apply bool_decide_eq_true. lia.
  - intros ->. rewrite Z.add_0_r in Hc'. rewrite Hc'. split.
    + by rewrite bool_decide_eq_true, owed_pos.
    + intros ->. by apply bool_decide_eq_false.
Qed.

(** *** After [destroy()] *)

Lemma facadeReducers_sealed s f r a :
  sealed s f -> sealed s (facadeReducers f r a).1.
Proof.
  intros (Hd & Hc & Hs & Hv). unfold facadeReducers. destruct (seeds f); [|done].
  unfold initialStateReducer. case_bool_decide; [|done].
  unfold nextState.
  cbn [fst setFacadeState stateSubjectCompleted destroyedState subscribed
       reduxStoreStateSubject].
  by rewrite Hc.
Qed.

Lemma reduceChain_at fs r a i g :
  (reduceChain fs r a).1 !! i = Some g ->
  exists f r0, fs !! i = Some f /\ g = (facadeReducers f r0 a).1.
Proof.
  revert r i. induction fs as [|h fs IH]; intros r i; [done|].
  cbn [reduceChain].
  destruct (facadeReducers h r a) as [h' r1] eqn:Hh.
  specialize (IH r1). destruct (reduceChain fs r1 a) as [fs' r2].
  destruct i as [|i]; cbn [fst lookup list_lookup] in *.
  - intros [= <-]. exists h, r. by rewrite Hh.
  - apply IH.
Qed.

Lemma reduceChain_same_length fs r a i :
  is_Some ((reduceChain fs r a).1 !! i) <-> is_Some (fs !! i).
Proof. by rewrite !lookup_lt_is_Some, reduceChain_length. Qed.

Lemma sealedAt_onFacade g j i s w :
  (forall f, sealed s f -> sealed s (g f)) ->
  sealedAt i s w -> sealedAt i s (onFacade j g w).
Proof.
  intros Hg (f & Hf & Hs). unfold sealedAt, onFacade, withFacades. cbn [facades].
  destruct (decide (j = i)) as [->|Hne].
  - rewrite list_lookup_alter_eq, Hf. exists (g f). split; [done|by apply Hg].
  - rewrite list_lookup_alter_ne by done. by exists f.
Qed.

Lemma sealedAt_notify j i s w : sealedAt i s w -> sealedAt i s (notifySubscriber w j).
Proof.
  intros (f & Hf & Hs). unfold notifySubscriber.
  destruct (facades w !! j) as [g|] eqn:Hg; [|by exists f].
  destruct (subscribed g) eqn:Hsub; [|by exists f].
  assert (j <> i) as Hne.
  { intros ->. rewrite Hf in Hg. injection Hg as <-.
    destruct Hs as (_ & _ & Hs & _). congruence. }
  unfold onMountPointChange. rewrite Hg.
  unfold sealedAt, onFacade, withFacades, withMicrotasks, withNextId. cbn [facades].
  rewrite !list_lookup_alter_ne by done. by exists f.
Qed.

Lemma sealedAt_notify_all l i s : forall w,
  sealedAt i s w -> sealedAt i s (foldl notifySubscriber w l).
Proof.
  induction l as [|j l IH]; intros w H; cbn [foldl]; [done|].
  by apply IH, sealedAt_notify.
Qed.

Lemma sealedAt_dispatch a i s w : sealedAt i s w -> sealedAt i s (dispatch a w).
Proof.
  intros (f & Hf & Hs). unfold dispatch. cbn [facades root withDispatched].
  pose proof (reduceChain_at (facades w) (root w) a i) as Hat.
  pose proof (reduceChain_same_length (facades w) (root w) a i) as Hlen.
  destruct (reduceChain (facades w) (root w) a) as [fs r]. cbn [fst] in Hat, Hlen.
  apply sealedAt_notify_all. unfold sealedAt, withRoot, withFacades. cbn [facades].
  destruct (proj2 Hlen) as [g Hg]; [by rewrite Hf|].
  destruct (Hat g Hg) as (f0 & r0 & Hf0 & ->). rewrite Hf in Hf0. injection Hf0 as <-.
  eexists. split; [exact Hg|]. by apply facadeReducers_sealed.
Qed.

Lemma sealedAt_queue i s w g : sealedAt i s w -> sealedAt i s (withMicrotasks g w).
Proof. done. Qed.

Lemma sealed_nextState s c f : sealed s f -> sealed s (nextState c f).
Proof. intros H. unfold nextState. by rewrite (proj1 (proj2 H)). Qed.

Lemma sealedAt_destroy j i s w : sealedAt i s w -> sealedAt i s (destroy j w).
Proof.
  intros H. unfold destroy. destruct (facades w !! j) as [f|]; [|done].
  change (sealedAt i s (onFacade j nextDestroyed (onFacade j completeStateSubject
            (onFacade j (withDestroyedState true)
               (withSlicePaths (fun p => p ∖ {[sliceName (mountPoint f)]})
                  (onFacade j (withSubscribed false) w)))))).
  do 3 (apply sealedAt_onFacade;
        [by intros f0 (? & ? & ? & ?); repeat split|]).
  change (sealedAt i s (onFacade j (withSubscribed false) w)).
  apply sealedAt_onFacade; [by intros f0 (? & ? & ? & ?); repeat split|done].
Qed.

Lemma sealedAt_happen e i s w : sealedAt i s w -> sealedAt i s (happen w e).
Proof.
  intros H. destruct e as [a|k m args| |k|k]; cbn [happen].
  - by apply sealedAt_dispatch.
  - unfold command. destruct (facades w !! k); [by apply sealedAt_dispatch|done].
  - unfold runJob. destruct (microtasks w) as [|j q]; [done|].
    destruct j as [k v|k|k|k c]; cbn [facades withMicrotasks]; try done.
    + destruct (facades w !! k); [|done].
      apply sealedAt_queue, sealedAt_dispatch. exact H.
    + apply sealedAt_onFacade; [by intros f0 (? & ? & ? & ?); repeat split|done].
    + apply sealedAt_onFacade; [intros; by apply sealed_nextState|].
      apply sealedAt_onFacade; [by intros f0 (? & ? & ? & ?); repeat split|done].
  - by apply sealedAt_destroy.
  - unfold onMountPointDestroyed. destruct (facades w !! k) as [f|]; [|done].
    destruct (destroyHook f); [|done]. apply sealedAt_destroy.
    apply sealedAt_onFacade; [by intros f0 (? & ? & ? & ?); repeat split|done].
Qed.

(** Once [destroy()] has run, the state subject of the facade has had
    its last value: whatever is dispatched, delivered or destroyed
    afterwards, the facade stays destroyed and unsubscribed and its
    subject holds the values it held. *)
Theorem destroyed_facade_emits_no_more
  (w : World) (es : list event) (i : nat) (f : Facade) :
  facades w !! i = Some f ->
  exists f',
    facades (run (destroy i w) es) !! i = Some f'
    /\ isDestroyed f' = true
    /\ subscribed f' = false
    /\ reduxStoreStateSubject f' = reduxStoreStateSubject f
    /\ forall state, reduxStoreStateSubject (nextState state f')
                     = reduxStoreStateSubject f.
Proof.
  intros Hf.
  assert (sealedAt i (reduxStoreStateSubject f) (destroy i w)) as H0.
  { exists (destroyedOnce f). split; [by apply destroy_lookup|done]. }
  assert (forall w0, sealedAt i (reduxStoreStateSubject f) w0 ->
                     sealedAt i (reduxStoreStateSubject f) (run w0 es)) as Hrun.
  { unfold run. induction es as [|e es IH]; intros w0 H; cbn [foldl]; [done|].
    by apply IH, sealedAt_happen. }
  destruct (Hrun _ H0) as (f' & Hf' & Hd & Hc & Hs & Hv).
  exists f'. split; [done|]. split; [done|]. split; [done|]. split; [done|].
  intros state. unfold nextState. by rewrite Hc.
Qed.

(** *** Commands *)

Lemma append_cancel_l (a x y : string) : a +:+ x = a +:+ y -> x = y.
Proof.
  induction a as [|c a IH]; [done|].
  rewrite !StoreTs.append_cons. intros [= H]. by apply IH.
Qed.

Lemma createActionName_method id m1 m2 :
  createActionName id m1 = createActionName id m2 -> m1 = m2.
Proof. rewrite !createActionName_prefix. apply append_cancel_l. Qed.

(** A command in the reducers of its facade. *)
Lemma facadeReducers_command f r m args :
  destroyedState f = false ->
  (seeds f = true -> m <> "@@SET_STATE") ->
  let action := mkAction (PStr (createActionName (facadeId f) m)) args SUndefined in
  facadeReducers f r action
  = (f, setState (mountPoint f) r
          (mutatorReducer f (createProxy (extractState (mountPoint f) r)) action)).
Proof.
  intros Hd Hm action. subst action. unfold facadeReducers, commandsReducer.
  rewrite Hd, owns_own_action. cbn [orb negb].
  destruct (seeds f); [|reflexivity]. unfold initialStateReducer.
  rewrite bool_decide_false; [reflexivity|]. cbn [type]. intros [= E].
  change (facadeId f +:+ "] " +:+ m = facadeId f +:+ "] " +:+ "@@SET_STATE") in E.
  do 2 apply append_cancel_l in E. by apply Hm.
Qed.

(** A command of the only facade of a store, subscribed and alive, on a
    mount point that reads back what it stores: the sub-state of the root
    state becomes what the reducer of the commands makes of the proxied
    sub-state; [state] is a copy of it as soon as the command returns,
    and the subject has it after the next turn of the queue. A command
    called "@@SET_STATE" is left out: on a facade with an initial state
    its action is the seeding action. *)
Theorem command_reaches_the_state
  (w : World) (f : Facade) (m : string) (args : list prim) :
  facades w = [f] ->
  microtasks w = [] ->
  subscribed f = true ->
  destroyedState f = false ->
  stateSubjectCompleted f = false ->
  (seeds f = true -> m <> "@@SET_STATE") ->
  (forall r s, extractState (mountPoint f) (setState (mountPoint f) r s) = s) ->
  let action := mkAction (PStr (createActionName (facadeId f) m)) args SUndefined in
  let next :=
    mutatorReducer f (createProxy (extractState (mountPoint f) (root w))) action in
  let copy := SObject (nextId w) (fieldsOf next) in
  let w1 := command 0 m args w in
  let w2 := runJob w1 in
  dispatched w1 = dispatched w ++ [action]
  /\ root w1 = setState (mountPoint f) (root w) next
  /\ extractState (mountPoint f) (root w1) = next
  /\ stateOf 0 w1 = Some copy
  /\ replayed 0 w1 = last (reduxStoreStateSubject f)
  /\ microtasks w1 = [JDeliver 0 copy]
  /\ flagOf 0 w1 = Some (bool_decide (0 < bufferedStateChanges f + 1)%Z)
  /\ root w2 = root w1
  /\ stateOf 0 w2 = Some copy
  /\ replayed 0 w2 = Some copy
  /\ microtasks w2 = []
  /\ flagOf 0 w2 = Some (hasBufferedStateChanges f).
Proof.
  destruct w as [r fs q n reg sp ds pc]. cbn [facades microtasks root nextId dispatched].
  intros -> -> Hsub Hd Hc Hm Hlens. cbv zeta.
  set (action := mkAction (PStr (createActionName (facadeId f) m)) args SUndefined).
  set (next := mutatorReducer f (createProxy (extractState (mountPoint f) r)) action).
  assert (command 0 m args (mkWorld r [f] [] n reg sp ds pc)
          = mkWorld (setState (mountPoint f) r next)
              [setFacadeState (SObject n (fieldsOf next)) (withBuffered Z.succ f)]
              [JDeliver 0 (SObject n (fieldsOf next))] (S n) reg sp (ds ++ [action]) pc)
    as ->.
  { pose proof (facadeReducers_command f r m args Hd Hm) as Hr. cbv zeta in Hr.
    fold action in Hr. fold next in Hr.
    unfold command, dispatch, withDispatched.
    cbn [facades lookup list_lookup root reduceChain dispatched]. fold action.
    rewrite Hr. unfold withRoot, withFacades.
    cbn [length seq foldl facades]. unfold notifySubscriber.
    cbn [facades lookup list_lookup]. rewrite Hsub. unfold onMountPointChange.
    cbn [facades lookup list_lookup root nextId]. by rewrite Hlens. }
  cbn [dispatched root]. rewrite Hlens.
  do 3 (split; [reflexivity|]).
  split; [reflexivity|]. split; [reflexivity|]. split; [reflexivity|].
  split. { reflexivity. }
  unfold runJob, onFacade, withFacades, withMicrotasks, nextState, flagOf, stateOf,
    replayed, hasBufferedStateChanges.
  cbn. rewrite Hc. cbn. rewrite last_snoc.
  repeat (split; [reflexivity|]). by rewrite Z.pred_succ.
Qed.

Lemma facadeReducers_destroyed_command f r m args :
  destroyedState f = true ->
  (seeds f = true -> m <> "@@SET_STATE") ->
  facadeReducers f r (mkAction (PStr (createActionName (facadeId f) m)) args SUndefined)
  = (f, r).
Proof.
  intros Hd Hm. unfold facadeReducers.
  rewrite commandsReducer_pass_through by (by left).
  destruct (seeds f); [|reflexivity]. unfold initialStateReducer.
  rewrite bool_decide_false; [reflexivity|]. cbn [type]. intros [= E].
  change (facadeId f +:+ "] " +:+ m = facadeId f +:+ "] " +:+ "@@SET_STATE") in E.
  do 2 apply append_cancel_l in E. by apply Hm.
Qed.

Lemma facadeReducers_destroyed_seed f r v :
  destroyedState f = true ->
  stateSubjectCompleted f = true ->
  seeds f = true ->
  facadeReducers f r (seedingAction (facadeId f) v)
  = (setFacadeState v f, setState (mountPoint f) r v).
Proof.
  intros Hd Hc Hs. unfold facadeReducers.
  rewrite commandsReducer_pass_through by (by left).
  rewrite Hs. unfold initialStateReducer, seedingAction. cbn [type initialState].
  rewrite bool_decide_true by done. unfold nextState.
  cbn [setFacadeState stateSubjectCompleted]. by rewrite Hc.
Qed.

(** [destroy()] stops the commands of a facade, not its seeding: in a
    store with this one facade, built on a pending promise and destroyed
    before the promise is fulfilled, a command changes neither the root
    state nor [state]; when the promise is fulfilled, its continuation
    still dispatches the seeding action, and the reducer of that action,
    which does not look at the destroyed flag, writes the value to the
    root state and to [state]. The subject, completed, stays silent. *)
Theorem destroyed_facade_still_seeds
  (mp : MountPoint) (reducer : substate -> Action -> substate) (w : World)
  (v : substate) (m : string) (args : list prim) :
  facades w = [] ->
  microtasks w = [] ->
  sliceName mp ∉ registry w ->
  m <> "@@SET_STATE" ->
  let pre := extractState mp (root w) in
  exists w0,
    construct mp reducer (InitPromise Pending) w = Some w0
    /\ (let w1 := command 0 m args (destroy 0 w0) in
        root w1 = root w /\ stateOf 0 w1 = Some pre /\ replayed 0 w1 = Some pre
        /\ microtasks w1 = [])
    /\ (let w1 := runJob (settle 0 (Fulfilled v) (destroy 0 w0)) in
        dispatched w1 = dispatched w ++ [seedingAction (sliceName mp) v]
        /\ root w1 = setState mp (root w) v
        /\ stateOf 0 w1 = Some v
        /\ replayed 0 w1 = Some pre
        /\ (isDestroyed <$> facades w1 !! 0) = Some true
        /\ microtasks w1 = [JFinally 0]).
Proof.
  destruct w as [r fs q n reg sp ds pc]. cbn [facades microtasks registry root dispatched].
  intros -> -> Hreg Hm. cbv zeta. set (pre := extractState mp r).
  set (f := mkFacade (sliceName mp) mp reducer true 1 pre [pre] true [true]
                     false true true).
  exists (mkWorld r [mkFacade (sliceName mp) mp reducer false 1 pre [pre] false []
                              true true true]
                  [] n ({[sliceName mp]} ∪ reg) sp ds pc).
  split; [by rewrite construct_unfold by done|].
  assert (destroy 0
            (mkWorld r [mkFacade (sliceName mp) mp reducer false 1 pre [pre] false []
                                 true true true]
                     [] n ({[sliceName mp]} ∪ reg) sp ds pc)
          = mkWorld r [f] [] n (({[sliceName mp]} ∪ reg) ∖ {[sliceName mp]})
                    (sp ∖ {[sliceName mp]}) ds pc) as -> by reflexivity.
  split.
  - unfold command, dispatch, withDispatched.
    cbn [facades lookup list_lookup root reduceChain dispatched].
    change (sliceName mp) with (facadeId f) at 1.
    rewrite (facadeReducers_destroyed_command f r m args eq_refl (fun _ => Hm)).
    by cbn.
  - unfold settle, runJob, withMicrotasks.
    cbn [microtasks facades lookup list_lookup root nextId registry slicePaths
         dispatched producerCalls app].
    unfold dispatch, withDispatched.
    cbn [microtasks facades lookup list_lookup root nextId registry slicePaths
         dispatched producerCalls reduceChain].
    pose proof (facadeReducers_destroyed_seed f r v eq_refl eq_refl eq_refl) as Hr.
    rewrite Hr. by cbn.
Qed.

(** *** Action names *)

Lemma prefix_rest p s : String.prefix p s = true -> exists r, s = p +:+ r.
Proof.
  revert s. induction p as [|c p IH]; intros s; [by exists s|].
  destruct s as [|c' s]; simpl; [done|].
  destruct (ascii_dec c c') as [->|]; [|done].
  intros (r & ->)%IH. by exists r.
Qed.

(** On ids without "]", the type of an action tells the id and the
    method: two names are equal only for the same id and method, and a
    facade owns the named action of another id never, its own always. *)
Theorem action_names_tell_their_owner (idA idB mA mB : string) :
  StoreTs.noBracket idA ->
  StoreTs.noBracket idB ->
  (createActionName idA mA = createActionName idB mB -> idA = idB /\ mA = mB)
  /\ (forall args init,
        isActionForThisFacade idB (mkAction (PStr (createActionName idA mA)) args init)
        = bool_decide (idA = idB)).
Proof.
  intros HA HB.
  assert (forall r, createActionName idA mA = actionPrefix idB +:+ r -> idA = idB) as Hid.
  { intros r E. unfold createActionName, actionPrefix in E.
    rewrite !StoreTs.append_cons, !StoreTs.append_nil, !StoreTs.append_assoc in E.
    injection E as E. by apply StoreTs.bracket_splits_once in E. }
  split.
  - intros E. pose proof E as E'. rewrite (createActionName_prefix idB) in E'.
    apply Hid in E'. subst idB. split; [done|]. by apply createActionName_method in E.
  - intros args init. case_bool_decide as Hab.
    + subst idB. apply owns_own_action.
    + destruct (isActionForThisFacade idB _) eqn:E; [|done].
      apply owns_iff in E as (t & [= <-] & (r & E)%prefix_rest). by apply Hid in E.
Qed.

(** *** Actions that no facade owns *)

Lemma reduceChain_unowned fs r a :
  Forall (fun f => isActionForThisFacade (facadeId f) a = false) fs ->
  reduceChain fs r a = (fs, r).
Proof.
  induction 1 as [|f fs Hf Hfs IH]; [done|]. cbn [reduceChain].
  by rewrite facadeReducers_unowned, IH.
Qed.

Lemma root_notify_all l : forall w, root (foldl notifySubscriber w l) = root w.
Proof.
  induction l as [|j l IH]; intros w; cbn [foldl]; [done|]. rewrite IH.
  unfold notifySubscriber. destruct (facades w !! j) as [g|] eqn:Hg; [|done].
  destruct (subscribed g); [|done]. unfold onMountPointChange. by rewrite Hg.
Qed.

Lemma dispatched_notify_all l :
  forall w, dispatched (foldl notifySubscriber w l) = dispatched w.
Proof.
  induction l as [|j l IH]; intros w; cbn [foldl]; [done|]. rewrite IH.
  unfold notifySubscriber. destruct (facades w !! j) as [g|] eqn:Hg; [|done].
  destruct (subscribed g); [|done]. unfold onMountPointChange. by rewrite Hg.
Qed.

(** An action that no facade of the store owns goes through the whole
    reducer chain without a change to the root state; the subscribers
    are notified all the same: a subscribed facade is handed a new copy
    of its sub-state. *)
Theorem unowned_action_changes_no_state (w : World) (a : Action) :
  Forall (fun f => isActionForThisFacade (facadeId f) a = false) (facades w) ->
  root (dispatch a w) = root w
  /\ dispatched (dispatch a w) = dispatched w ++ [a]
  /\ forall i f,
       facades w !! i = Some f -> subscribed f = true ->
       exists n,
         nextId w <= n
         /\ deliveriesOf i (microtasks (dispatch a w))
            = deliveriesOf i (microtasks w)
              ++ [SObject n (fieldsOf (extractState (mountPoint f) (root w)))].
Proof.
  intros Hown.
  assert (root (dispatch a w) = root w) as Hroot.
  { unfold dispatch. cbn [facades root withDispatched].
    rewrite reduceChain_unowned by done. by rewrite root_notify_all. }
  split; [exact Hroot|]. split.
  - unfold dispatch. cbn [facades root withDispatched].
    rewrite reduceChain_unowned by done. by rewrite dispatched_notify_all.
  - intros i f Hf Hsub.
    destruct (dispatch_delivers i w f a Hf Hsub) as (n & g & Hn & Hd & _).
    exists n. split; [lia|]. by rewrite Hd, Hroot.
Qed.

(** *** A facade without initial state *)

(** [new Facade(mountPoint, commands, undefined)] in any store: nothing
    is dispatched and nothing queued, the root state stays, and the new
    facade, subscribed and with nothing buffered, shows what its mount
    point held. No reducer for a seeding action is added. *)
Theorem facade_without_initial_state
  (mp : MountPoint) (reducer : substate -> Action -> substate) (w : World) :
  sliceName mp ∉ registry w ->
  exists w',
    construct mp reducer (InitValue SUndefined) w = Some w'
    /\ root w' = root w
    /\ dispatched w' = dispatched w
    /\ microtasks w' = microtasks w
    /\ producerCalls w' = producerCalls w
    /\ facades w'
       = facades w
         ++ [mkFacade (sliceName mp) mp reducer false 0 (extractState mp (root w))
                      [extractState mp (root w)] false [] true false true]
    /\ (sliceName mp ∈ registry w').
Proof.
  intros Hreg. unfold construct. rewrite bool_decide_false by done.
  eexists. split; [reflexivity|].
  unfold onFacade, withFacades, withRegistry.
  cbn [root dispatched microtasks producerCalls facades registry].
  do 4 (split; [reflexivity|]). split.
  - rewrite <- (Nat.add_0_r (length (facades w))), alter_app_r. reflexivity.
  - apply elem_of_union_l. by apply elem_of_singleton.
Qed.

End WithStore.

Arguments mkMountPoint {Root}.
Arguments sliceName {Root}.
Arguments extractState {Root}.
Arguments setState {Root}.
Arguments facadeId {Root}.
Arguments mountPoint {Root}.
Arguments _state {Root}.
Arguments destroyedSubject {Root}.
Arguments reduxStoreStateSubject {Root}.
Arguments mkWorld {Root}.
Arguments root {Root}.
Arguments facades {Root}.
Arguments microtasks {Root}.
Arguments dispatched {Root}.
Arguments reduceChain {Root}.
Arguments dispatch {Root}.
Arguments command {Root}.
Arguments runJob {Root}.
Arguments settle {Root}.
Arguments construct {Root}.
Arguments destroy {Root}.
Arguments stateOf {Root}.
Arguments flagOf {Root}.
Arguments replayed {Root}.

(** *** A store whose root state is an object with one property per slice *)

Definition Tree : Type := props substate.

(** Modelled from the spec: the mount point of the slice [name], for
    [createDeepMountPoint] of [./store]: [extractState] reads the
    property, "undefined if path not yet present"; [setState] "returns a
    new root state value with the sub-tree at this path replaced". *)
Definition sliceMountPoint (name : string) : MountPoint Tree :=
  mkMountPoint name
    (fun r => default SUndefined (getOwn r name))
    (fun r s => setOwn r name s).

(** Modelled from the spec: a [createProxy] that hands the object on;
    reads through the proxy of [./utils] are reads of the object. *)
Definition transparentProxy (s : substate) : substate := s.

(** The commands of a facade: the methods by name, each taking the
    sub-state and the arguments to the next sub-state. *)
Definition Commands : Type := props (substate -> list prim -> substate).

(** Modelled from the spec: the reducer [createReducerFromCommandsInvoker]
    of [./commands] builds, for which the spec has "the facade's own
    registered reducer applies the sub-state update": the method named
    by what follows "[id] " in the type of the action runs on the
    sub-state with the payload; a name that is no method changes
    nothing. *)
Definition reducerOfCommands (id : string) (commands : Commands)
  (state : substate) (action : Action) : substate :=
  match type action with
  | PStr t =>
      let name := substring t (Z.of_nat (String.length (actionPrefix id)))
                              (Z.of_nat (String.length t)) in
      match getOwn commands name with
      | Some method => method state (payload action)
      | None => state
      end
  | _ => state
  end.

(** [new Facade(name, commands, initialState)] *)
Definition newFacade (name : string) (commands : Commands)
  (initial : InitialStateValue) (w : World Tree) : option (World Tree) :=
  construct transparentProxy (sliceMountPoint name) (reducerOfCommands name commands)
            initial w.

Definition emptyStore : World Tree := mkWorld [] [] [] 0 ∅ ∅ [] 0.

(** [this.state.n = this.state.n + 1] *)
Definition increment (state : substate) (_ : list prim) : substate :=
  match state with
  | SObject id fields =>
      match getOwn fields "n" with
      | Some (PNum n) => SObject id (setOwn fields "n" (PNum (n + 1)))
      | _ => state
      end
  | SUndefined => state
  end.

Lemma slice_reads_back name (r : Tree) s :
  extractState (sliceMountPoint name) (setState (sliceMountPoint name) r s) = s.
Proof. cbn. by rewrite StoreTs.getOwn_setOwn_eq. Qed.




Definition facadeOf (name : string) (commands : Commands) (state : substate)
  : Facade Tree :=
  mkFacade Tree name (sliceMountPoint name) (reducerOfCommands name commands)
           false 0 state [state] false [] true false true.

(** A third facade that owns the action of another by its prefix and is
    mounted on the slice of a bystander: the facades "x] y" and "b" have
    prefixes that are not comparable and disjoint slices, and still the
    command [m] of the first changes the sub-state of the second, through
    the facade "x" between them. *)
Example third_facade_reaches_in :
  let A := facadeOf "x] y" [("m", increment)] (SObject 0 [("n", PNum 0)]) in
  let B := facadeOf "b" [("m", increment)] (SObject 1 [("n", PNum 0)]) in
  let C := mkFacade Tree "x" (mkMountPoint "x" (extractState (sliceMountPoint "b"))
                                            (setState (sliceMountPoint "b")))
                    (reducerOfCommands "x" [("y] m", increment)])
                    false 0 (SObject 1 [("n", PNum 0)]) [SObject 1 [("n", PNum 0)]]
                    false [] true false true in
  let state := [("x] y", SObject 0 [("n", PNum 0)]); ("b", SObject 1 [("n", PNum 0)])] in
  let action := mkAction (PStr (createActionName "x] y" "m")) [] SUndefined in
  String.prefix (actionPrefix "x] y") (actionPrefix "b") = false
  /\ String.prefix (actionPrefix "b") (actionPrefix "x] y") = false
  /\ isActionForThisFacade "x" action = true
  /\ extractState (mountPoint B) (reduceChain transparentProxy [A; C; B] state action).2
     = SObject 1 [("n", PNum 1)].
Proof. by vm_compute. Qed.


Lemma seeding_is_synchronous_unless_promised_witness :
  exists w',
    newFacade "counter" [("m", increment)] (InitProducer (SObject 0 [("a", PNum 5)]))
              emptyStore = Some w'
    /\ dispatched w'
       = [seedingAction "counter" (SObject 0 [("a", PNum 5)])]
    /\ producerCalls Tree w' = 1
    /\ stateOf 0 w' = Some (SObject 0 [("a", PNum 5)])
    /\ replayed 0 w' = Some (SObject 0 [("a", PNum 5)])
    /\ flagOf 0 w' = Some false /\ microtasks w' = [].
Proof.
  exact (proj1 (proj2 (seeding_is_synchronous_unless_promised Tree transparentProxy
                         (sliceMountPoint "counter")
                         (reducerOfCommands "counter" [("m", increment)]) emptyStore
                         eq_refl eq_refl (not_elem_of_empty _)
                         (slice_reads_back "counter")))
               (SObject 0 [("a", PNum 5)])).
Defined.

(** The scenario of the spec: [Promise.resolve({a: 5})] as initial
    state. The flag is true after construction; the continuation, the
    delivery and the [finally] run, in this order; then the state shows
    [{a: 5}] and the flag is false. *)
Example promised_initial_state :
  let w0 := newFacade "counter" [] (InitPromise (Fulfilled (SObject 7 [("a", PNum 5)])))
                      (mkWorld [] [] [] 8 ∅ ∅ [] 0) in
  (flagOf 0 <$> w0) = Some (Some true)
  /\ (stateOf 0 <$> w0) = Some (Some SUndefined)
  /\ (microtasks <$> w0) = Some [JSeed 0 (SObject 7 [("a", PNum 5)])]
  /\ (microtasks ∘ runJob transparentProxy <$> w0)
     = Some [JDeliver 0 (SObject 8 [("a", PNum 5)]); JFinally 0]
  /\ (flagOf 0 ∘ runJob transparentProxy ∘ runJob transparentProxy
        ∘ runJob transparentProxy <$> w0) = Some (Some false)
  /\ (stateOf 0 ∘ runJob transparentProxy ∘ runJob transparentProxy
        ∘ runJob transparentProxy <$> w0) = Some (Some (SObject 8 [("a", PNum 5)])).
Proof. by vm_compute. Qed.

(** The facade of the slice "counter" once its constructor has returned,
    and its store. *)
Definition counterFacade : Facade Tree :=
  mkFacade Tree "counter" (sliceMountPoint "counter")
           (reducerOfCommands "counter" [("m", increment)]) false 0
           (SObject 0 [("n", PNum 0)]) [SUndefined; SObject 0 [("n", PNum 0)]]
           false [] true true true.

Definition counterStore : World Tree :=
  mkWorld [("counter", SObject 0 [("n", PNum 0)])] [counterFacade] [] 1
          {["counter"]} {["counter"]}
          [seedingAction "counter" (SObject 0 [("n", PNum 0)])] 0.

Example counterStore_constructed :
  newFacade "counter" [("m", increment)] (InitValue (SObject 0 [("n", PNum 0)]))
            (mkWorld [] [] [] 1 ∅ {["counter"]} [] 0)
  = Some counterStore.
Proof. vm_compute. reflexivity. Qed.

(** C8 fails as stated: whoever observes the destroyed subject is handed
    [true] by the first [destroy()] and again by the second. *)
Lemma second_destroy_notifies_again :
  (destroyedSubject <$> facades (destroy 0 counterStore) !! 0) = Some [true]
  /\ (destroyedSubject <$> facades (destroy 0 (destroy 0 counterStore)) !! 0)
     = Some [true; true].
Proof. by vm_compute. Qed.

Lemma destroy_repeats_its_notification_witness :
  (destroyedSubject <$> facades (destroy 0 (destroy 0 counterStore)) !! 0)
  = Some (destroyedSubject counterFacade ++ [true; true]).
Proof.
  exact (proj1 (proj2 (proj2 (proj2 (proj2 (proj2 (proj2
           (destroy_repeats_its_notification Tree transparentProxy 0 counterStore
              counterFacade eq_refl)))))))).
Defined.

(** Two actions that name no command: the sub-state stays, and the
    subject receives two objects that differ. *)
Lemma every_notification_delivers_a_new_object_witness :
  let a := mkAction (PStr "[counter] absent") [] SUndefined in
  let w1 := dispatch transparentProxy a counterStore in
  let w1' := Nat.iter (length (microtasks w1)) (runJob transparentProxy) w1 in
  let w2 := dispatch transparentProxy a w1' in
  let w2' := Nat.iter (length (microtasks w2)) (runJob transparentProxy) w2 in
  exists n1 n2 f2,
    n1 < n2
    /\ facades w2' !! 0 = Some f2
    /\ reduxStoreStateSubject f2
       = [SUndefined; SObject 0 [("n", PNum 0)];
          SObject n1 [("n", PNum 0)]; SObject n2 [("n", PNum 0)]].
Proof.
  intros a w1 w1' w2 w2'.
  destruct (every_notification_delivers_a_new_object Tree transparentProxy 0
              counterStore counterFacade a a eq_refl eq_refl eq_refl eq_refl)
    as (n1 & n2 & f1 & f2 & _ & Hn & _ & _ & _ & _ & Hj1 & _ & _ & Hf2 & Hj2 & _).
  exists n1, n2, f2. split; [exact Hn|]. split; [exact Hf2|].
  rewrite Hj2, Hj1. reflexivity.
Defined.

Example unchanged_state_is_delivered_anew :
  let a := mkAction (PStr "[counter] absent") [] SUndefined in
  let w := dispatch transparentProxy a (dispatch transparentProxy a counterStore) in
  root w = root counterStore
  /\ microtasks w = [JDeliver 0 (SObject 1 [("n", PNum 0)]);
                     JDeliver 0 (SObject 2 [("n", PNum 0)])]
  /\ (reduxStoreStateSubject <$>
        facades (runJob transparentProxy (runJob transparentProxy w)) !! 0)
     = Some [SUndefined; SObject 0 [("n", PNum 0)]; SObject 1 [("n", PNum 0)];
             SObject 2 [("n", PNum 0)]].
Proof. by vm_compute. Qed.

(** C9 fails as stated: the seeding action of a facade whose initial
    state was promised is dispatched when the facade is subscribed. For
    this one change of the root state the subject receives two values:
    the seed itself, from the reducer, and then the copy. *)
Lemma seeding_fills_the_subject_twice :
  let v := SObject 7 [("n", PNum 5)] in
  let w0 := newFacade "counter" [("m", increment)] (InitPromise Pending)
                      (mkWorld [] [] [] 8 ∅ ∅ [] 0) in
  let w1 := runJob transparentProxy ∘ settle 0 (Fulfilled v) <$> w0 in
  let w2 := (fun w => Nat.iter (length (microtasks w)) (runJob transparentProxy) w)
              <$> w1 in
  ((fun w => reduxStoreStateSubject <$> facades w !! 0) <$> w0)
  = Some (Some [SUndefined])
  /\ (dispatched <$> w2) = Some [seedingAction "counter" v]
  /\ (root <$> w2) = Some [("counter", v)]
  /\ ((fun w => reduxStoreStateSubject <$> facades w !! 0) <$> w2)
     = Some (Some [SUndefined; v; SObject 8 [("n", PNum 5)]])
  /\ (microtasks <$> w2) = Some [].
Proof. by vm_compute. Qed.

Arguments run {Root}.
Arguments bufferedStateChanges {Root}.
Arguments subscribed {Root}.
Arguments isDestroyed {Root}.

(** *** The lifecycle on the facade of the slice "counter" *)

Lemma buffered_flag_follows_the_queue_witness :
  let es := [ECommand 0 "m" []; ETurn; EDispatch (mkAction PNull [] SUndefined)] in
  exists f',
    facades (run transparentProxy counterStore es) !! 0 = Some f'
    /\ bufferedStateChanges f'
       = (owed 0 (microtasks (run transparentProxy counterStore es)) + 0)%Z.
Proof.
  intros es.
  destruct (buffered_flag_follows_the_queue Tree transparentProxy counterStore es 0
              counterFacade 0 eq_refl (Z.le_refl 0) eq_refl) as (f' & H1 & H2 & _).
  exists f'. split; [exact H1|exact H2].
Defined.

Lemma destroyed_facade_emits_no_more_witness :
  let es := [ECommand 0 "m" []; ETurn] in
  exists f',
    facades (run transparentProxy (destroy 0 counterStore) es) !! 0 = Some f'
    /\ reduxStoreStateSubject f' = reduxStoreStateSubject counterFacade.
Proof.
  intros es.
  destruct (destroyed_facade_emits_no_more Tree transparentProxy counterStore es 0
              counterFacade eq_refl) as (f' & H1 & _ & _ & H2 & _).
  exists f'. split; [exact H1|exact H2].
Defined.

Lemma command_reaches_the_state_witness :
  extractState (sliceMountPoint "counter")
    (root (command transparentProxy 0 "m" [] counterStore))
  = SObject 0 [("n", PNum 1)].
Proof.
  exact (proj1 (proj2 (proj2
           (command_reaches_the_state Tree transparentProxy counterStore counterFacade
              "m" [] eq_refl eq_refl eq_refl eq_refl eq_refl
              (fun _ => ltac:(discriminate)) (slice_reads_back "counter"))))).
Defined.

Lemma destroyed_facade_still_seeds_witness :
  exists w0,
    newFacade "counter" [("m", increment)] (InitPromise Pending) emptyStore = Some w0
    /\ root (runJob transparentProxy
               (settle 0 (Fulfilled (SObject 7 [("n", PNum 5)])) (destroy 0 w0)))
       = [("counter", SObject 7 [("n", PNum 5)])].
Proof.
  destruct (destroyed_facade_still_seeds Tree transparentProxy
              (sliceMountPoint "counter")
              (reducerOfCommands "counter" [("m", increment)]) emptyStore
              (SObject 7 [("n", PNum 5)]) "m" []
              eq_refl eq_refl (not_elem_of_empty _) ltac:(discriminate))
    as (w0 & Hc & _ & (_ & Hroot & _)).
  exists w0. split; [exact Hc|exact Hroot].
Defined.

Lemma action_names_tell_their_owner_witness :
  isActionForThisFacade "b" (mkAction (PStr (createActionName "a" "m")) [] SUndefined)
  = bool_decide ("a" = "b").
Proof.
  refine (proj2 (action_names_tell_their_owner "a" "b" "m" "m" _ _) [] SUndefined);
    (split; [discriminate|exact I]).
Defined.

Lemma unowned_action_changes_no_state_witness :
  root (dispatch transparentProxy (mkAction (PStr "[other] m") [] SUndefined) counterStore)
  = root counterStore.
Proof.
  refine (proj1 (unowned_action_changes_no_state Tree transparentProxy counterStore
                   (mkAction (PStr "[other] m") [] SUndefined) _)).
  repeat constructor.
Defined.

Lemma facade_without_initial_state_witness :
  exists w',
    newFacade "counter" [("m", increment)] (InitValue SUndefined) emptyStore = Some w'
    /\ root w' = root emptyStore
    /\ dispatched w' = dispatched emptyStore.
Proof.
  destruct (facade_without_initial_state Tree transparentProxy (sliceMountPoint "counter")
              (reducerOfCommands "counter" [("m", increment)]) emptyStore
              (not_elem_of_empty _)) as (w' & Hc & Hr & Hd & _).
  by exists w'.
Defined.

End FacadeTs.
